(** * LEMON: aperture photometry (qphot.py) and overscan stabilisation
      (fitsimage.py), embedded in Rocq.

    Python [float] is IEEE-754 binary64: it is modelled by Rocq's primitive
    floats, whose operations are the same binary64 operations.  Python
    exceptions are values of [exn]; a computation that may raise returns a
    [result].  Objects that the code mutates through references (the Pixel
    instances of a coordinate list) live in an explicit store.  Code that
    works on files is a tree of calls, each answered by the world. *)

From Stdlib Require Import ZArith Bool Floats Ascii String DecimalString.
From stdpp Require Import list sorting gmap.

Local Open Scope Z_scope.

(** ** Exceptions and results *)

Inductive exn : Type :=
  | ValueError (msg : string)
  | ZeroDivisionError
  | AssertionError
  | IndexError
  | KeyError (msg : string)
  | IOError (msg : string).

Inductive result (A : Type) : Type :=
  | Ok (a : A)
  | Raise (e : exn).
Arguments Ok {A} a.
Arguments Raise {A} e.

Definition rbind {A B} (c : result A) (k : A -> result B) : result B :=
  match c with
  | Ok a => k a
  | Raise e => Raise e
  end.

Notation "'let?' x ':=' c 'in' k" := (rbind c (fun x => k))
  (at level 10, x name, c at level 100, k at level 200).

Definition is_ValueError {A} (r : result A) : bool :=
  match r with
  | Raise (ValueError _) => true
  | _ => false
  end.

(** ** Python float arithmetic

    [*], [abs], unary minus and the comparisons of Python floats are the
    IEEE operations and never raise.  Two operations used by the code do
    raise: [a / b] raises ZeroDivisionError when [b] compares equal to zero
    (of either sign), and [math.sqrt] raises ValueError on a negative
    argument. *)

Module PyFloat.

Definition truediv (a b : float) : result float :=
  if (b =? 0)%float then Raise ZeroDivisionError else Ok (a / b)%float.

Definition math_sqrt (a : float) : result float :=
  if (a <? 0)%float then Raise (ValueError "math domain error")
  else Ok (PrimFloat.sqrt a).

(** [float('infinity')] *)
Definition infinity : float := PrimFloat.infinity.

End PyFloat.

(** A float, in the form of its specification, that is NaN or carries
    the sign [b] ([true] for minus). *)
Definition sf_sign_is (b : bool) (f : spec_float) : Prop :=
  match f with
  | S754_nan => True
  | S754_zero s | S754_infinity s | S754_finite s _ _ => s = b
  end.

(** ** qphot.QPhotResult

    [magnitude] and [stdev] are [None] where IRAF printed INDEF.  [mag] is
    not set by [__init__]: it is the instance attribute of that name, absent
    ([None]) until some code assigns it. *)

Module QPhotResult.

Record t : Type := mk {
  x : float;
  y : float;
  magnitude : option float;
  sum_ : float;
  flux : float;
  stdev : option float;
  mag : option float
}.

(** [__init__(self, xcenter, ycenter, mag, sum_, flux, stdev)] *)
Definition init (xcenter ycenter : float) (mag0 : option float)
    (sum0 flux0 : float) (stdev0 : option float) : t :=
  {| x := xcenter; y := ycenter; magnitude := mag0;
     sum_ := sum0; flux := flux0; stdev := stdev0; mag := None |}.

(** The assignment [self.mag = v]. *)
Definition set_mag (v : float) (self : t) : t :=
  {| x := x self; y := y self; magnitude := magnitude self;
     sum_ := sum_ self; flux := flux self; stdev := stdev self;
     mag := Some v |}.

(** [snr(self, gain)] *)
Definition snr (self : t) (gain : float) : result float :=
  if (gain <=? 0)%float then
    Raise (ValueError "CCD gain must be a positive value")
  else if (sum_ self =? 0)%float then            (* not self.sum *)
    Ok 0%float
  else if (sum_ self <? 0)%float then
    let num := PrimFloat.abs (flux self * gain) in
    let? den := PyFloat.math_sqrt (PrimFloat.abs (sum_ self * gain)) in
    let? q := PyFloat.truediv num den in
    Ok (- q)%float
  else
    let num := (flux self * gain)%float in
    let? den := PyFloat.math_sqrt (sum_ self * gain) in
    PyFloat.truediv num den.

End QPhotResult.

(** ** Pixels and the text records of the photometer *)

(** Modelled from the spec: the Pixel class is declared outside the
    modelled files.  It is the spec's Coordinate, an (x, y) floating-point
    pixel position; the code uses it as a plain object whose attributes
    [x] and [y] it reads and assigns. *)
Module Pixel.
Record t : Type := mk { x : float; y : float }.
End Pixel.

(** One whitespace-separated field of a txdump line: either text that
    Python's [float()] accepts, carried with the float it denotes, or any
    other text (such as INDEF), on which [float()] raises ValueError. *)
Inductive field : Type :=
  | Numeric (v : float)
  | Text (s : string).

Definition py_float (f : field) : result float :=
  match f with
  | Numeric v => Ok v
  | Text _ => Raise (ValueError "could not convert string to float")
  end.

(** [mag_str == 'INDEF'] *)
Definition is_INDEF (f : field) : bool :=
  match f with
  | Text s => String.eqb s "INDEF"
  | Numeric _ => false
  end.

(** [splitted_line[k]] *)
Definition getitem (splitted_line : list field) (k : nat) : result field :=
  match splitted_line !! k with
  | Some f => Ok f
  | None => Raise IndexError
  end.

(** The [assert] statement: checked only when [__debug__] is true. *)
Definition py_assert (debug cond : bool) : result unit :=
  if debug && negb cond then Raise AssertionError else Ok tt.

(** [epsilon = 0.001  # a thousandth of a pixel!]  (Python, too, reads the
    literal as the nearest binary64 value.) *)
#[local] Set Warnings "-inexact-float".
Definition epsilon : float := 0.001%float.

(** [abs(center - coordinate) < epsilon] *)
Definition within_epsilon (center coordinate : float) : bool :=
  (PrimFloat.abs (center - coordinate) <? epsilon)%float.

(** The [try: float(...) except ValueError: assert ... == 'INDEF'] blocks
    that read the magnitude and the standard deviation. *)
Definition float_or_INDEF (debug : bool) (splitted_line : list field)
    (k : nat) : result (option float) :=
  let? str := getitem splitted_line k in
  match py_float str with
  | Ok v => Ok (Some v)
  | Raise (ValueError _) =>
      let? _ := py_assert debug (is_INDEF str) in Ok None
  | Raise e => Raise e
  end.

(** The body of the [for line, pixel in zip(txdump_lines, pixels)] loop of
    [QPhot.run]: one line of txdump parsed into a [QPhotResult]. *)
Definition parse_line (debug : bool) (splitted_line : list field)
    (pixel : Pixel.t) : result QPhotResult.t :=
  let? f0 := getitem splitted_line 0 in
  let? xcenter := py_float f0 in
  let? f1 := getitem splitted_line 1 in
  let? ycenter := py_float f1 in
  (* if __debug__: *)
  let? _ := py_assert debug (within_epsilon xcenter (Pixel.x pixel)) in
  let? _ := py_assert debug (within_epsilon ycenter (Pixel.y pixel)) in
  let? mag := float_or_INDEF debug splitted_line 2 in
  let? f3 := getitem splitted_line 3 in
  let? sum_ := py_float f3 in
  let? f4 := getitem splitted_line 4 in
  let? flux := py_float f4 in
  let? stdev := float_or_INDEF debug splitted_line 5 in
  Ok (QPhotResult.init xcenter ycenter mag sum_ flux stdev).

(** The loop itself: every parsed star is appended to [self]; an exception
    leaves in [self] the stars appended so far. *)
Fixpoint parse_lines (debug : bool) (self : list QPhotResult.t)
    (pairs : list (list field * Pixel.t))
    : list QPhotResult.t * result unit :=
  match pairs with
  | [] => (self, Ok tt)
  | (line, pixel) :: rest =>
      match parse_line debug line pixel with
      | Ok star_phot => parse_lines debug (self ++ [star_phot]) rest
      | Raise e => (self, Raise e)
      end
  end.

(** The arguments that [run] hands on to IRAF's qphot unchanged. *)
Record qphot_params : Type := mk_params {
  margin : float;
  annulus : float;
  dannulus : float;
  aperture : float;
  exptimek : string
}.

Section QPhot.

(** [__debug__]: true unless Python runs with -O. *)
Variable debug : bool.

(** SExtractor on an image: [FITSeeingImage(path, margin).coordinates()]. *)
Variable sextractor : string -> float -> result (list Pixel.t).

(** IRAF's qphot followed by txdump on the image at a path, for a list
    of coordinates: the lines of the txdump file, each already split at
    whitespace, or the exception of a failed task. *)
Variable qphot_txdump :
  string -> qphot_params -> list Pixel.t -> result (list (list field)).

(** [QPhot.run(self, margin, annulus, dannulus, aperture, exptimek,
    pixels)] on the instance of the image at [path]: the contents of
    [self] when the method exits, and what it returns or raises.  The
    temporary files of the method are not modelled. *)
Definition QPhot_run (path : string) (params : qphot_params)
    (pixels : list Pixel.t) : list QPhotResult.t * result nat :=
  let self : list QPhotResult.t := [] in                  (* self.clear() *)
  let coordinates :=
    match pixels with
    | [] => sextractor path (margin params)               (* if not pixels *)
    | _ :: _ => Ok pixels
    end in
  match coordinates with
  | Raise e => (self, Raise e)
  | Ok pixels =>
      match qphot_txdump path params pixels with
      | Raise e => (self, Raise e)
      | Ok txdump_lines =>
          match py_assert debug
                  (Nat.eqb (length txdump_lines) (length pixels)) with
          | Raise e => (self, Raise e)
          | Ok _ =>
              match parse_lines debug self (zip txdump_lines pixels) with
              | (self, Raise e) => (self, Raise e)
              | (self, Ok _) => (self, Ok (length self))
              end
          end
      end
  end.

End QPhot.

(** ** The store of Pixel objects

    A Python list holds references.  The store maps each reference (an
    index) to the object it denotes; a coordinate list is a list of
    references, in which the same object may occur more than once. *)

Abbreviation store := (list Pixel.t).
Abbreviation ref := nat.

(** The coordinates a list of references denotes; [None] on a dangling
    reference, which no Python list holds. *)
Definition deref (h : store) (l : list ref) : option (list Pixel.t) :=
  mapM (fun r => h !! r) l.

(** [copy.deepcopy] of a list of Pixel objects.  The memo dictionary maps
    every object already copied to its copy, so an object that occurs
    twice in the list is copied once and its copy occurs twice.  The two
    attributes of a Pixel are floats, which are immutable and kept. *)
Fixpoint deepcopy_items (h : store) (memo : gmap ref ref) (l : list ref)
    : option (store * list ref) :=
  match l with
  | [] => Some (h, [])
  | r :: rest =>
      match memo !! r with
      | Some r' =>
          '(h', out) ← deepcopy_items h memo rest; Some (h', r' :: out)
      | None =>
          p ← h !! r;
          let r' := length h in
          '(h', out) ← deepcopy_items (h ++ [p]) (<[r := r']> memo) rest;
          Some (h', r' :: out)
      end
  end.

Definition deepcopy (h : store) (l : list ref) : option (store * list ref) :=
  deepcopy_items h ∅ l.

(** Modelled from the spec: the class xmlparse.XMLOffset is declared
    outside the modelled files.  It is the known (dx, dy) pixel offset
    between a reference and a shifted image, of which [run] reads the
    attributes [reference], [shifted], [x] and [y]. *)
Module XMLOffset.
Record t : Type := mk {
  reference : string;
  shifted : string;
  x : float;
  y : float
}.
End XMLOffset.

(** The coordinates [(x + xml_offset.x, y + xml_offset.y)]. *)
Definition translate (xml_offset : XMLOffset.t) (p : Pixel.t) : Pixel.t :=
  Pixel.mk (Pixel.x p + XMLOffset.x xml_offset)
           (Pixel.y p + XMLOffset.y xml_offset).

(** The loop [for shifted_pixel in list_of_shifted_pixels], which assigns
    both attributes of every object of the list, in place. *)
Fixpoint apply_offset (h : store) (l : list ref) (xml_offset : XMLOffset.t)
    : option store :=
  match l with
  | [] => Some h
  | r :: rest =>
      shifted_pixel ← h !! r;
      let x' := (Pixel.x shifted_pixel + XMLOffset.x xml_offset)%float in
      let y' := (Pixel.y shifted_pixel + XMLOffset.y xml_offset)%float in
      apply_offset (<[r := Pixel.mk x' y']> h) rest xml_offset
  end.

(** Lines 436-439 of [run]: the deep copy, then the loop. *)
Definition shift_pixels (h : store) (reference_pixels : list ref)
    (xml_offset : XMLOffset.t) : option (store * list ref) :=
  '(h1, list_of_shifted_pixels) ← deepcopy h reference_pixels;
  h2 ← apply_offset h1 list_of_shifted_pixels xml_offset;
  Some (h2, list_of_shifted_pixels).

(** The loop that closes [run] (lines 509-515), on the photometry of the
    image and that of the saturation mask.  [zip] stops at the end of the
    shorter list; the stars beyond it are not visited. *)
Fixpoint classify (debug : bool) (img_qphot mask_qphot : list QPhotResult.t)
    : result (list QPhotResult.t) :=
  match img_qphot, mask_qphot with
  | star_phot :: img', star_mask :: mask' =>
      let? _ := py_assert debug
                  (QPhotResult.x star_phot =? QPhotResult.x star_mask)%float in
      let? _ := py_assert debug
                  (QPhotResult.y star_phot =? QPhotResult.y star_mask)%float in
      let star_phot :=
        if (0 <? QPhotResult.flux star_mask)%float           (* flux > 0 *)
        then QPhotResult.set_mag PyFloat.infinity star_phot
        else star_phot in
      let? rest := classify debug img' mask' in
      Ok (star_phot :: rest)
  | _, _ => Ok img_qphot
  end.

(** ** FITSImage.stable_overscan

    The coordinates of a section are integers (they are printed with %d);
    the threshold and the statistics are floats. *)

Definition region : Type := (Z * Z * Z * Z)%type.

(** How one invocation of the method ends: with the four-element tuple it
    returns, or with the call [self.stable_overscan(x1, x2, y1, y2,
    threshold * 2, offset)] whose value it returns. *)
Inductive outcome : Type :=
  | Return (r : region)
  | Recurse (x1 x2 y1 y2 : Z) (threshold : float).

(** [threshold * 2], [k] times over. *)
Definition relaxed (k : nat) (threshold : float) : float :=
  Nat.iter k (fun t => (t * 2)%float) threshold.

Section StableOverscan.

(** [self.imstat(statistic, x1, x2, y1, y2)]: IRAF's imstat on a section
    of the image. *)
Variable imstat : string -> Z -> Z -> Z -> Z -> float.
(** [methods.percentage_change], declared outside the modelled files. *)
Variable percentage_change : float -> float -> float.

(** [x1 > x2 or y1 > y2] *)
Definition exhausted (x1 x2 y1 y2 : Z) : bool := (x1 >? x2) || (y1 >? y2).

(** [stddev_pc <= threshold and mean_pc <= threshold], for the statistics
    of the previous section and the coordinates of the current one. *)
Definition converged (mean stddev : float) (x1 x2 y1 y2 : Z)
    (threshold : float) : bool :=
  let new_mean := imstat "mean" x1 x2 y1 y2 in
  let new_stddev := imstat "stddev" x1 x2 y1 y2 in
  let mean_pc := PrimFloat.abs (percentage_change mean new_mean) in
  let stddev_pc := PrimFloat.abs (percentage_change stddev new_stddev) in
  (stddev_pc <=? threshold)%float && (mean_pc <=? threshold)%float.

(** The [while True] loop; [fuel] bounds its iterations. *)
Fixpoint shrink (fuel : nat) (x1 x2 y1 y2 : Z) (threshold : float)
    (offset : Z) (mean stddev : float) : option outcome :=
  match fuel with
  | O => None
  | S fuel =>
      let x1 := x1 + offset in
      let x2 := x2 - offset in
      let y1 := y1 + offset in
      let y2 := y2 - offset in
      if exhausted x1 x2 y1 y2 then
        Some (Recurse x1 x2 y1 y2 (threshold * 2))
      else if converged mean stddev x1 x2 y1 y2 threshold then
        Some (Return (x1, x2, y1, y2))
      else
        shrink fuel x1 x2 y1 y2 threshold offset
          (imstat "mean" x1 x2 y1 y2) (imstat "stddev" x1 x2 y1 y2)
  end.

(** The method; [depth] bounds the nesting of its recursive calls and
    [fuel] the iterations of the loop in each.  [None]: the bounds were
    reached before the method returned. *)
Fixpoint stable_overscan (depth fuel : nat) (x1 x2 y1 y2 : Z)
    (threshold : float) (offset : Z) : option region :=
  match depth with
  | O => None
  | S depth =>
      let mean := imstat "mean" x1 x2 y1 y2 in
      let stddev := imstat "stddev" x1 x2 y1 y2 in
      match shrink fuel x1 x2 y1 y2 threshold offset mean stddev with
      | Some (Return r) => Some r
      | Some (Recurse x1' x2' y1' y2' threshold') =>
          stable_overscan depth fuel x1' x2' y1' y2' threshold' offset
      | None => None
      end
  end.

(** The method as its docstring and the specification describe it: on
    exhaustion the search starts over, on the rectangle the caller
    supplied, with twice the threshold. *)
Fixpoint stable_overscan_starting_over (depth fuel : nat) (x1 x2 y1 y2 : Z)
    (threshold : float) (offset : Z) : option region :=
  match depth with
  | O => None
  | S depth =>
      let mean := imstat "mean" x1 x2 y1 y2 in
      let stddev := imstat "stddev" x1 x2 y1 y2 in
      match shrink fuel x1 x2 y1 y2 threshold offset mean stddev with
      | Some (Return r) => Some r
      | Some (Recurse _ _ _ _ threshold') =>
          stable_overscan_starting_over depth fuel x1 x2 y1 y2
            threshold' offset
      | None => None
      end
  end.

End StableOverscan.

(** ** The name of an image (fitsimage.py)

    A Python 2 [str] is a sequence of bytes: the names below are lists of
    characters, sliced with [take] and [drop].  The slices of the code
    never use a negative index. *)

Abbreviation str := (list ascii).

Definition is_digit (c : ascii) : bool :=
  match c with
  | "0" | "1" | "2" | "3" | "4" | "5" | "6" | "7" | "8" | "9" => true
  | _ => false
  end%char.

(** [s.isdigit()]: all the characters are digits and there is at least
    one. *)
Definition isdigit (s : str) : bool :=
  match s with
  | [] => false
  | _ => forallb is_digit s
  end.

Definition digit_value (c : ascii) : Z := Z.of_nat (nat_of_ascii c) - 48.

(** [int(s)] on the strings the code gives it, which are one character
    ([prefix]) or the value of [number]: a run of decimal digits is its
    value, anything else raises ValueError.  (Python also reads a sign and
    surrounding blanks; a string of one character that is not a digit
    raises there too.) *)
Definition py_int (s : str) : result Z :=
  if isdigit s
  then Ok (foldl (fun n c => 10 * n + digit_value c) 0 s)
  else Raise (ValueError "invalid literal for int() with base 10").

(** [p.rfind(c)]: the highest index of [c] in [p], -1 when there is
    none. *)
Fixpoint rfind (c : ascii) (p : str) : Z :=
  match p with
  | [] => -1
  | a :: p' =>
      let i := rfind c p' in
      if 0 <=? i then i + 1
      else if Ascii.eqb a c then 0 else -1
  end.

(** [os.path.basename] (posixpath):
    [i = p.rfind('/') + 1; return p[i:]]. *)
Definition os_path_basename (p : str) : str :=
  let i := rfind "/" p + 1 in
  drop (Z.to_nat i) p.

(** The loop of [genericpath._splitext] that skips the leading dots of
    the file name: [Some] is its [return] inside the loop, [None] its
    falling out of the loop after [n] iterations. *)
Fixpoint skip_leading_dots (p : str) (dotIndex filenameIndex : Z) (n : nat)
  : option (str * str) :=
  match n with
  | O => None
  | S n' =>
      match p !! Z.to_nat filenameIndex with
      | Some c =>
          if negb (Ascii.eqb c ".")
          then Some (take (Z.to_nat dotIndex) p, drop (Z.to_nat dotIndex) p)
          else skip_leading_dots p dotIndex (filenameIndex + 1) n'
      | None => None
      end
  end.

(** [os.path.splitext] (posixpath: [sep = '/'], no [altsep],
    [extsep = '.']). *)
Definition os_path_splitext (p : str) : str * str :=
  let sepIndex := rfind "/" p in
  let dotIndex := rfind "." p in
  if sepIndex <? dotIndex then
    let filenameIndex := sepIndex + 1 in
    match skip_leading_dots p dotIndex filenameIndex
            (Z.to_nat (dotIndex - filenameIndex)) with
    | Some r => r
    | None => (p, [])
    end
  else (p, []).

(** ** Exceptions of any class, and what a call gives back

    The methods of fitsimage.py below raise, and let through, exceptions
    of more classes than [exn] names (OverflowError, OSError, IRAF's
    errors): they are given by the name of their class. *)

Inductive exception : Type :=
  | Builtin (e : exn)
  | Other (class msg : string).

Inductive answer (A : Type) : Type :=
  | Returns (a : A)
  | Raises (e : exception).
Arguments Returns {A} a.
Arguments Raises {A} e.

(** To state that a binary64 number is finite: a zero or a finite number
    of sign [s], or a zero of either sign or a finite positive number,
    with an exponent of at most [E]. *)
Definition finite_or_zero (s : bool) (E : Z) (x : spec_float) : Prop :=
  match x with
  | S754_zero s' => s' = s
  | S754_finite s' _ e => s' = s /\ e <= E
  | _ => False
  end.

Definition nonneg_finite (E : Z) (x : spec_float) : Prop :=
  match x with
  | S754_zero _ => True
  | S754_finite s _ e => s = false /\ e <= E
  | _ => False
  end.

(** ** Python numbers: [float(n)], [round] and [int] *)

Module PyNumber.

(** The float of an integer [0 <= n < 2^63] (a number of images, a size
    in pixels): the nearest binary64 number. *)
Definition float_of_int (n : Z) : float := PrimFloat.of_uint63 (Uint63.of_Z n).

(** [bool(x)] of a float: [x != 0], so NaN is true. *)
Definition truth (x : float) : bool := negb (x =? 0)%float.

(** [round(x)] of Python 2: the nearest integer, as a float, with the
    halfway cases rounded away from zero; a zero, an infinity and NaN
    round to themselves.  A finite [x] is [m * 2^e]: with [e < 0] its
    integer part is [m] shifted right by [-e] bits and the bit below
    tells whether the fraction is at least one half; the result is at
    most [2^52], which binary64 represents exactly. *)
Definition round (x : float) : float :=
  match Prim2SF x with
  | S754_finite s m e =>
      if 0 <=? e then x
      else
        let q := Z.shiftr (Z.pos m) (- e) in
        let r := if Z.testbit (Z.pos m) (- e - 1) then q + 1 else q in
        if s then (- float_of_int r)%float else float_of_int r
  | _ => x
  end.

(** [int(x)] of a float truncates towards zero; it raises OverflowError
    on an infinity and ValueError on NaN. *)
Definition int (x : float) : answer Z :=
  match Prim2SF x with
  | S754_zero _ => Returns 0
  | S754_finite s m e =>
      let a := if 0 <=? e then Z.shiftl (Z.pos m) e
               else Z.shiftr (Z.pos m) (- e) in
      Returns (if s then - a else a)
  | S754_infinity _ =>
      Raises (Other "OverflowError" "cannot convert float infinity to integer")
  | S754_nan =>
      Raises (Builtin (ValueError "cannot convert float NaN to integer"))
  end.

End PyNumber.

(** ** qphot.run and the calls it makes

    [run] works on files, through the operating system, PyFITS and IRAF.
    It is a tree of calls: each call is answered by the world, with a
    value or with an exception, and [run] goes on from the answer.
    [Host.runs p t out] says that [p] can make the calls of [t], with the
    answers of [t], and end in [out].  The calls of the logging module,
    which leave no trace in what [run] does, are left out. *)

(** [%d] of an integer, as a string. *)
Definition percent_d (n : Z) : string := NilZero.string_of_int (Z.to_int n).

(** [s.upper()] on the ASCII letters. *)
Definition upper_char (c : ascii) : ascii :=
  let n := nat_of_ascii c in
  if (97 <=? n)%nat && (n <=? 122)%nat then ascii_of_nat (n - 32) else c.

Definition upper (s : string) : string :=
  string_of_list_ascii (map upper_char (list_ascii_of_string s)).

(** [result] among the exceptions of any class. *)
Definition of_result {A} (r : result A) : answer A :=
  match r with
  | Ok a => Returns a
  | Raise e => Raises (Builtin e)
  end.

Module Host.

(** The primary header that [FITSImage.__init__] keeps in memory
    ([self._header]), as the value of each keyword it has.  The values
    that [run] reads from it are paths. *)
Definition header : Type := string -> option string.

(** The calls whose value is not used. *)
Inductive command : Type :=
  | SeeingImage (path : string) (margin : float)
      (* seeing.FITSeeingImage(path, margin), declared outside the
         modelled files *)
  | Close (fd : Z)                                   (* os.close *)
  | Unlink (path : string)                           (* os.unlink *)
  | Imexpr (expr a output : string).    (* pyraf.iraf.images.imexpr *)

Inductive prog (A : Type) : Type :=
  | Ret (a : A)
  | Throw (e : exception)
  | Do (c : command) (k : answer unit -> prog A)
  | Exists (path : string) (k : bool -> prog A)      (* os.path.exists *)
  | Open (path : string) (k : answer header -> prog A)
      (* FITSImage.__init__ after its test of os.path.exists: pyfits.open
         and the reading of the primary header, or the exception that
         [__init__] raises from there *)
  | Mkstemp (prefix suffix : string) (k : answer (Z * string) -> prog A)
      (* tempfile.mkstemp(prefix = ..., suffix = ..., text = True) *)
  | QPhotRun (path : string) (params : qphot_params) (pixels : list Pixel.t)
      (k : list QPhotResult.t * result nat -> prog A).
      (* the method [run] of a new QPhot instance: what it leaves in the
         instance and what it returns or raises *)
Arguments Ret {A} a.
Arguments Throw {A} e.
Arguments Do {A} c k.
Arguments Exists {A} path k.
Arguments Open {A} path k.
Arguments Mkstemp {A} prefix suffix k.
Arguments QPhotRun {A} path params pixels k.

(** [handle p h]: [p], then [h] on what [p] returned or raised. *)
Fixpoint handle {A B} (p : prog A) (h : answer A -> prog B) : prog B :=
  match p with
  | Ret a => h (Returns a)
  | Throw e => h (Raises e)
  | Do c k => Do c (fun r => handle (k r) h)
  | Exists path k => Exists path (fun b => handle (k b) h)
  | Open path k => Open path (fun r => handle (k r) h)
  | Mkstemp prefix suffix k =>
      Mkstemp prefix suffix (fun r => handle (k r) h)
  | QPhotRun path params pixels k =>
      QPhotRun path params pixels (fun r => handle (k r) h)
  end.

Definition lift {A} (r : answer A) : prog A :=
  match r with
  | Returns a => Ret a
  | Raises e => Throw e
  end.

Definition bind {A B} (p : prog A) (k : A -> prog B) : prog B :=
  handle p (fun r => match r with
                     | Returns a => k a
                     | Raises e => Throw e
                     end).

(** [try: p finally: cleanup]: the cleanup runs whatever [p] did, and an
    exception of the cleanup replaces the outcome of [p]. *)
Definition finally {A} (p : prog A) (cleanup : prog unit) : prog A :=
  handle p (fun r => bind cleanup (fun _ => lift r)).

Definition call (c : command) : prog unit := Do c lift.
Definition path_exists (path : string) : prog bool := Exists path Ret.
Definition mkstemp (prefix suffix : string) : prog (Z * string) :=
  Mkstemp prefix suffix lift.

(** A call with the answer it got. *)
Inductive step : Type :=
  | Did (c : command) (r : answer unit)
  | Existed (path : string) (b : bool)
  | Opened (path : string) (r : answer header)
  | Mkstemped (prefix suffix : string) (r : answer (Z * string))
  | Photometered (path : string) (params : qphot_params)
      (pixels : list Pixel.t) (r : list QPhotResult.t * result nat).

Section Runs.

(** [__debug__], and the two tools behind [QPhot.run]. *)
Variable debug : bool.
Variable sextractor : string -> float -> result (list Pixel.t).
Variable qphot_txdump :
  string -> qphot_params -> list Pixel.t -> result (list (list field)).

Inductive runs {A} : prog A -> list step -> answer A -> Prop :=
  | runs_Ret a : runs (Ret a) [] (Returns a)
  | runs_Throw e : runs (Throw e) [] (Raises e)
  | runs_Do c k r t out :
      runs (k r) t out -> runs (Do c k) (Did c r :: t) out
  | runs_Exists path k b t out :
      runs (k b) t out -> runs (Exists path k) (Existed path b :: t) out
  | runs_Open path k r t out :
      runs (k r) t out -> runs (Open path k) (Opened path r :: t) out
  | runs_Mkstemp prefix suffix k r t out :
      runs (k r) t out ->
      runs (Mkstemp prefix suffix k) (Mkstemped prefix suffix r :: t) out
  | runs_QPhotRun path params pixels k r t out :
      r = QPhot_run debug sextractor qphot_txdump path params pixels ->
      runs (k r) t out ->
      runs (QPhotRun path params pixels k)
        (Photometered path params pixels r :: t) out.

End Runs.

(** What a trace holds: the paths that mkstemp returned, the paths whose
    removal was asked for, the paths tested for existence, the calls of
    imexpr and of [QPhot.run] with their arguments, and the exceptions
    with which calls were answered. *)
Definition temp_paths (t : list step) : list string :=
  omap (fun s => match s with
                 | Mkstemped _ _ (Returns (_, path)) => Some path
                 | _ => None
                 end) t.

Definition unlinks (t : list step) : list string :=
  omap (fun s => match s with
                 | Did (Unlink path) _ => Some path
                 | _ => None
                 end) t.


Definition imexpr_calls (t : list step) : list (string * string * string) :=
  omap (fun s => match s with
                 | Did (Imexpr expr a output) _ => Some (expr, a, output)
                 | _ => None
                 end) t.

Definition photometries (t : list step) : list (string * list Pixel.t) :=
  omap (fun s => match s with
                 | Photometered path _ pixels _ => Some (path, pixels)
                 | _ => None
                 end) t.


End Host.

Notation "'do!' x ':=' c 'in' k" := (Host.bind c (fun x => k))
  (at level 10, x name, c at level 100, k at level 200).

(** ["file '%s' does not exist"] *)
Definition no_file_msg (path : string) : string :=
  ("file '" ++ path ++ "' does not exist")%string.

(** ["image %s (keyword '%s' of image %s) does not exist"] *)
Definition missing_msg (orig_img_path uncimgk shifted_path : string) : string :=
  ("image " ++ orig_img_path ++ " (keyword '" ++ uncimgk ++ "' of image "
     ++ shifted_path ++ ") does not exist")%string.

(** [FITSImage(path)] (fitsimage.py, lines 99-152): the header of the
    image, or IOError when the path does not exist. *)
Definition fits_image (path : string) : Host.prog Host.header :=
  do! found := Host.path_exists path in
  if found then Host.Open path Host.lift
  else Host.Throw (Builtin (IOError (no_file_msg path))).

(** [FITSImage.read_keyword(keyword)] (fitsimage.py, lines 195-218), on
    the header kept in memory. *)
Definition read_keyword (path : string) (header : Host.header)
    (keyword : option string) : answer string :=
  match keyword with
  | None => Raises (Other "TypeError" "keyword cannot be None")
  | Some keyword =>
      if String.eqb keyword ""
      then Raises (Builtin (ValueError "keyword cannot be empty"))
      else
        match header (upper keyword) with
        | Some value => Returns value
        | None =>
            Raises (Builtin (KeyError
              (path ++ ": keyword '" ++ keyword ++ "' not found")%string))
        end
  end.


(** Lines 466-474 of [run]: the image whose pixels are compared with the
    saturation level. *)
Definition orig_img_path (shifted_path : string) (header : Host.header)
    (uncimgk : option string) : Host.prog string :=
  match uncimgk with
  | None => Host.Ret shifted_path                        (* not None *)
  | Some keyword =>
      if String.eqb keyword "" then Host.Ret shifted_path  (* not '' *)
      else
        do! orig :=
          Host.lift (read_keyword shifted_path header (Some keyword)) in
        do! found := Host.path_exists orig in
        if found then Host.Ret orig
        else
          Host.Throw (Builtin (IOError
            (missing_msg orig keyword shifted_path)))
  end.

(** [QPhot(path)], whose [__init__] opens the image, and its [run]; the
    instance is new, so that only what the method leaves in it matters. *)
Definition photometer (path : string) (params : qphot_params)
    (pixels : list Pixel.t) : Host.prog (list QPhotResult.t) :=
  do! _ := fits_image path in
  Host.QPhotRun path params pixels (fun r =>
    match r with
    | (self, Ok _) => Host.Ret self
    | (_, Raise e) => Host.Throw (Builtin e)
    end).

(** ["%s_satur_mask_%d_ADUS_" % (basename, maximum)], for the basename of
    the image [orig]. *)
Definition mkstemp_prefix (orig : string) (maximum : Z) : string :=
  (string_of_list_ascii (os_path_basename (list_ascii_of_string orig))
   ++ "_satur_mask_" ++ percent_d maximum ++ "_ADUS_")%string.

(** ["a>%d ? 1 : 0" % maximum] *)
Definition imexpr_expr (maximum : Z) : string :=
  ("a>" ++ percent_d maximum ++ " ? 1 : 0")%string.

(** The handler [except (NameError, OSError): pass]: the classes of the
    exceptions that it passes over.  (Neither class has a subclass that
    [os.unlink] raises on a POSIX system.) *)
Definition passed_over (e : exception) : bool :=
  match e with
  | Other class _ => String.eqb class "NameError" || String.eqb class "OSError"
  | Builtin _ => false
  end.

(** The [finally] clause of [run], once [satur_mask_path] is bound. *)
Definition unlink_mask (satur_mask_path : string) : Host.prog unit :=
  Host.handle (Host.call (Host.Unlink satur_mask_path))
    (fun r => match r with
              | Returns _ => Host.Ret tt
              | Raises e => if passed_over e then Host.Ret tt
                            else Host.Throw e
              end).

(** Lines 476-521 of [run]: the [try] statement that makes the saturation
    mask, photometers it and marks the saturated stars.  When mkstemp
    raises, [satur_mask_path] is not bound: the [finally] clause raises
    NameError before it calls anything, and passes over it. *)
Definition saturation (debug : bool) (orig : string)
    (params : qphot_params) (maximum : Z) (pixels : list Pixel.t)
    (img_qphot : list QPhotResult.t) : Host.prog (list QPhotResult.t) :=
  Host.handle
    (Host.mkstemp (mkstemp_prefix orig maximum) ".fits")
    (fun r =>
       match r with
       | Raises e => Host.Throw e
       | Returns (mask_fd, satur_mask_path) =>
           Host.finally
             (do! _ := Host.call (Host.Close mask_fd) in
              do! _ := Host.call (Host.Unlink satur_mask_path) in
              do! _ := Host.call (Host.Imexpr (imexpr_expr maximum)
                                    orig satur_mask_path) in
              do! mask_qphot := photometer satur_mask_path params pixels in
              do! _ := Host.lift (of_result (py_assert debug
                         (Nat.eqb (length img_qphot) (length mask_qphot)))) in
              Host.lift (of_result (classify debug img_qphot mask_qphot)))
             (unlink_mask satur_mask_path)
       end).

(** The calls of [run], in order, for the coordinates [shifted_pixels]
    that lines 436-439 produce. *)
Definition run_calls (debug : bool) (xml_offset : XMLOffset.t)
    (params : qphot_params) (maximum : Z) (uncimgk : option string)
    (shifted_pixels : list Pixel.t) : Host.prog (list QPhotResult.t) :=
  let shifted_path := XMLOffset.shifted xml_offset in
  do! _ := Host.call (Host.SeeingImage (XMLOffset.reference xml_offset)
                        (margin params)) in
  do! shifted_header := fits_image shifted_path in
  do! img_qphot := photometer shifted_path params shifted_pixels in
  do! orig := orig_img_path shifted_path shifted_header uncimgk in
  saturation debug orig params maximum shifted_pixels img_qphot.

(** [a or b] on lists: [b] when [a] is empty. *)
Definition py_or {A} (a b : list A) : list A :=
  match a with
  | [] => b
  | _ :: _ => a
  end.

(** [run(xml_offset, margin, aperture, annulus, dannulus, maximum,
    exptimek, uncimgk, pixels)].  [pixels] is the list given by the
    caller, empty when it gave None or an empty list, and [coordinates]
    the attribute of that name of the reference image, of a class
    declared outside the modelled files.  The copy of the reference
    coordinates (lines 436-439) changes the store and calls nothing: it
    is made beforehand, and [None] stands for a store with a dangling
    reference, which Python does not have. *)
Definition run (debug : bool) (h : store) (xml_offset : XMLOffset.t)
    (params : qphot_params) (maximum : Z) (uncimgk : option string)
    (pixels coordinates : list ref)
    : option (Host.prog (list QPhotResult.t)) :=
  let reference_pixels := py_or pixels coordinates in
  '(h', list_of_shifted_pixels) ← shift_pixels h reference_pixels xml_offset;
  shifted_pixels ← deref h' list_of_shifted_pixels;
  Some (run_calls debug xml_offset params maximum uncimgk shifted_pixels).


(** ** The outside world: the file system, IRAF and PyFITS

    A method that works on files is a tree of calls: each call is
    answered by the world, with a value or with an exception, and the
    method goes on from the answer.  [runs p t out] says that [p] can make
    the calls of [t], with the answers of [t], and end in [out]. *)

Module Sys.

(** The second operand of IRAF's imarith: an image or a number. *)
Inductive operand : Type :=
  | Image (path : str)
  | Integer (n : Z)
  | Real (x : float).

(** The calls whose value is not used. *)
Inductive command : Type :=
  | Close (path : str)             (* os.close, on the descriptor of mkstemp *)
  | Write (path data : str)        (* os.write, on the descriptor of mkstemp *)
  | Unlink (path : str)            (* os.unlink *)
  | Copy2 (src dst : str)          (* shutil.copy2 *)
  | OpenDevnull                    (* open(os.devnull, 'wt') *)
  | IrafImcopy (input output : str)
  | IrafImarith (operand1 operator : str) (operand2 : operand) (result : str)
  | IrafImcombine (input output : str) (nlow nhigh : Z)
  | DeleteKeyword (path keyword : str).   (* FITSImage.delete_keyword *)

Inductive prog (A : Type) : Type :=
  | Ret (a : A)
  | Throw (e : exception)
  | Do (c : command) (k : answer unit -> prog A)
  | Mkstemp (suffix : str) (k : answer str -> prog A)  (* tempfile.mkstemp *)
  | Exists (path : str) (k : bool -> prog A)           (* os.path.exists *)
  | Open (path : str) (k : answer (Z * Z) -> prog A).
      (* FITSImage(path): the size of the image, read from the file *)
Arguments Ret {A} a.
Arguments Throw {A} e.
Arguments Do {A} c k.
Arguments Mkstemp {A} suffix k.
Arguments Exists {A} path k.
Arguments Open {A} path k.

(** [handle p h]: [p], then [h] on what [p] returned or raised. *)
Fixpoint handle {A B} (p : prog A) (h : answer A -> prog B) : prog B :=
  match p with
  | Ret a => h (Returns a)
  | Throw e => h (Raises e)
  | Do c k => Do c (fun r => handle (k r) h)
  | Mkstemp suffix k => Mkstemp suffix (fun r => handle (k r) h)
  | Exists path k => Exists path (fun b => handle (k b) h)
  | Open path k => Open path (fun r => handle (k r) h)
  end.

Definition lift {A} (r : answer A) : prog A :=
  match r with
  | Returns a => Ret a
  | Raises e => Throw e
  end.

Definition bind {A B} (p : prog A) (k : A -> prog B) : prog B :=
  handle p (fun r => match r with
                     | Returns a => k a
                     | Raises e => Throw e
                     end).

(** [try: p finally: cleanup]: the cleanup runs whatever [p] did, and an
    exception of the cleanup replaces the outcome of [p]. *)
Definition finally {A} (p : prog A) (cleanup : prog unit) : prog A :=
  handle p (fun r => bind cleanup (fun _ => lift r)).

Definition call (c : command) : prog unit := Do c lift.
Definition mkstemp (suffix : str) : prog str := Mkstemp suffix lift.
Definition path_exists (path : str) : prog bool := Exists path Ret.

(** A call with the answer it got. *)
Inductive step : Type :=
  | Did (c : command) (r : answer unit)
  | Mkstemped (suffix : str) (r : answer str)
  | Existed (path : str) (b : bool)
  | Opened (path : str) (r : answer (Z * Z)).

Inductive runs {A} : prog A -> list step -> answer A -> Prop :=
  | runs_Ret a : runs (Ret a) [] (Returns a)
  | runs_Throw e : runs (Throw e) [] (Raises e)
  | runs_Do c k r t out :
      runs (k r) t out -> runs (Do c k) (Did c r :: t) out
  | runs_Mkstemp suffix k r t out :
      runs (k r) t out -> runs (Mkstemp suffix k) (Mkstemped suffix r :: t) out
  | runs_Exists path k b t out :
      runs (k b) t out -> runs (Exists path k) (Existed path b :: t) out
  | runs_Open path k r t out :
      runs (k r) t out -> runs (Open path k) (Opened path r :: t) out.

(** The paths that mkstemp returned in a run, the paths whose removal was
    asked for, and the pairs of files that shutil.copy2 was given. *)
Definition temp_paths (t : list step) : list str :=
  omap (fun s => match s with
                 | Mkstemped _ (Returns p) => Some p
                 | _ => None
                 end) t.

Definition unlinks (t : list step) : list str :=
  omap (fun s => match s with
                 | Did (Unlink p) _ => Some p
                 | _ => None
                 end) t.

Definition copies (t : list step) : list (str * str) :=
  omap (fun s => match s with
                 | Did (Copy2 src dst) _ => Some (src, dst)
                 | _ => None
                 end) t.

(** The calls of IRAF's tasks in a run, with their arguments. *)
Definition imcopy_calls (t : list step) : list (str * str) :=
  omap (fun s => match s with
                 | Did (IrafImcopy input output) _ => Some (input, output)
                 | _ => None
                 end) t.

Definition imarith_calls (t : list step)
    : list (str * str * operand * str) :=
  omap (fun s => match s with
                 | Did (IrafImarith operand1 operator operand2 result) _ =>
                     Some (operand1, operator, operand2, result)
                 | _ => None
                 end) t.


Definition imcombine_calls (t : list step) : list (str * str * Z * Z) :=
  omap (fun s => match s with
                 | Did (IrafImcombine input output nlow nhigh) _ =>
                     Some (input, output, nlow, nhigh)
                 | _ => None
                 end) t.

End Sys.

Notation "'sys!' x ':=' c 'in' k" := (Sys.bind c (fun x => k))
  (at level 10, x name, c at level 100, k at level 200).
Notation "c ';;' k" := (Sys.bind c (fun _ => k))
  (at level 100, k at level 200, right associativity).

(** [%d] of an integer. *)
Definition decimal (n : Z) : str :=
  list_ascii_of_string (NilZero.string_of_int (Z.to_int n)).

Module FITSImage.

(** The attributes of a FITSImage that the methods below read. *)
Record t : Type := mk { path : str; size : Z * Z }.

Definition basename (self : t) : str := os_path_basename (path self).

Definition basename_woe (self : t) : str :=
  fst (os_path_splitext (basename self)).

Definition extension (self : t) : str := snd (os_path_splitext (path self)).

(** The loop of [prefix] over the characters of [basename_woe]. *)
Fixpoint prefix_loop (str_char : str) (characters : str) : result str :=
  match characters with
  | [] => Ok str_char
  | character :: rest =>
      match py_int [character] with
      | Ok _ => Ok str_char
      | Raise (ValueError _) => prefix_loop (str_char ++ [character]) rest
      | Raise e => Raise e
      end
  end.

Definition prefix (self : t) : result str :=
  prefix_loop [] (basename_woe self).

(** The loop of [number]: [index] is the loop variable, unbound ([None])
    until the first iteration. *)
Fixpoint number_loop (characters : str) (indexes : list Z) (index : option Z)
  : option Z :=
  match indexes with
  | [] => index
  | i :: rest =>
      if negb (isdigit (take (Z.to_nat (i + 1)) characters))
      then Some i
      else number_loop characters rest (Some i)
  end.

Definition number (debug : bool) (self : t) : result str :=
  let? f_prefix := prefix self in
  let basename_woprefix :=
    if negb (length f_prefix =? 0)%nat
    then drop (length f_prefix) (basename self)
    else basename self in
  let characters := basename_woprefix in
  match number_loop characters
          (seqZ 0 (Z.of_nat (length characters) - 1)) None with
  | Some index => Ok (take (Z.to_nat index) characters)
  | None =>
      (* UnboundLocalError *)
      let? _ := py_assert debug (Z.of_nat (length characters) <? 2) in
      Ok []
  end.

(** [FITSImage(path)], as a call: the instance has the path it was given
    and the size found in the file. *)
Definition new (path : str) : Sys.prog t :=
  Sys.Open path (fun r => match r with
                          | Returns size => Sys.Ret (mk path size)
                          | Raises e => Sys.Throw e
                          end).

(** ["%s[%d:%d,%d:%d]" % (self.path, x1, x2, y1, y2)] *)
Definition _subscript (self : t) (x1 x2 y1 y2 : Z) : str :=
  path self ++ "["%char :: decimal x1 ++ ":"%char :: decimal x2
    ++ ","%char :: decimal y1 ++ ":"%char :: decimal y2 ++ ["]"%char].

(** [self.path == output_path] *)
Definition is_path (self : t) (output_path : option str) : bool :=
  match output_path with
  | None => false
  | Some p => bool_decide (path self = p)
  end.

(** [x1 is not None and x2 is not None and y1 is not None and
    y2 is not None]: the four coordinates of a section. *)
Definition section (x1 x2 y1 y2 : option Z) : option (Z * Z * Z * Z) :=
  match x1, x2, y1, y2 with
  | Some x1, Some x2, Some y1, Some y2 => Some (x1, x2, y1, y2)
  | _, _, _, _ => None
  end.

(** [imcopy]; [self_imcopy] is the call [self.imcopy()] that the method
    makes on itself. *)
Definition imcopy_with (self_imcopy : Sys.prog t) (self : t)
    (output_path : option str) (suffix : str) (x1 x2 y1 y2 : option Z)
    : Sys.prog t :=
  sys! copied_path :=
    match output_path with
    | Some (c :: p) => Sys.Ret (c :: p)             (* if output_path: *)
    | _ =>
        sys! copied_path := Sys.mkstemp suffix in
        Sys.call (Sys.Close copied_path);;
        Sys.Ret copied_path
    end in
  sys! source :=
    if is_path self output_path
    then sys! source_image := self_imcopy in Sys.Ret (source_image, true)
    else Sys.Ret (self, false) in
  let '(source_image, image_copied) := source in
  match section x1 x2 y1 y2 with
  | Some (x1, x2, y1, y2) =>
      let subscript_path := _subscript source_image x1 x2 y1 y2 in
      sys! there := Sys.path_exists copied_path in
      (if there then Sys.call (Sys.Unlink copied_path) else Sys.Ret tt);;
      Sys.call Sys.OpenDevnull;;
      Sys.call (Sys.IrafImcopy subscript_path copied_path)
  | None => Sys.call (Sys.Copy2 (path source_image) copied_path)
  end;;
  (if image_copied then Sys.call (Sys.Unlink (path source_image))
   else Sys.Ret tt);;
  new copied_path.

(** [self.imcopy()], with the default arguments: no output path, so the
    method does not call itself again. *)
Definition imcopy_default (self : t) : Sys.prog t :=
  imcopy_with (Sys.Throw (Other "RuntimeError" "maximum recursion depth"))
    self None (list_ascii_of_string ".fits") None None None None.

Definition imcopy (self : t) (output_path : option str) (suffix : str)
    (x1 x2 y1 y2 : option Z) : Sys.prog t :=
  imcopy_with (imcopy_default self) self output_path suffix x1 x2 y1 y2.

(** The second operand of [imarith]: an instance of FITSImage, an int, a
    float, or an object of another type. *)
Inductive other : Type :=
  | OtherImage (img : t)
  | OtherInt (n : Z)
  | OtherFloat (x : float)
  | OtherObject.

Definition operators : list str :=
  map list_ascii_of_string ["+"; "-"; "*"; "/"; "min"; "max"]%string.

Definition imarith (self : t) (operator : str) (other : other)
    (output_path : option str) : Sys.prog t :=
  if negb (bool_decide (operator ∈ operators)) then
    Sys.Throw (Builtin (ValueError "illegal operand when invoking 'imarith'"))
  else
  sys! output_path :=
    match output_path with
    | Some (c :: p) => Sys.Ret (c :: p)
    | _ =>                                          (* if not output_path: *)
        sys! output_path := Sys.mkstemp (list_ascii_of_string ".fits") in
        Sys.call (Sys.Close output_path);;
        Sys.Ret output_path
    end in
  match other with
  | OtherObject =>
      Sys.Throw (Builtin (ValueError
        "second operand must be either a FITSImage or a real value"))
  | _ =>
  sys! first :=
    if bool_decide (path self = output_path)
    then sys! copy := imcopy_default self in Sys.Ret (path copy, true)
    else Sys.Ret (path self, false) in
  let '(first_operand, self_copied) := first in
  sys! second :=
    match other with
    | OtherImage other =>
        if bool_decide (path other = output_path)
        then sys! copy := imcopy_default other in
             Sys.Ret (Sys.Image (path copy), true)
        else Sys.Ret (Sys.Image (path other), false)
    | OtherInt n => Sys.Ret (Sys.Integer n, false)
    | OtherFloat x => Sys.Ret (Sys.Real x, false)
    | OtherObject => Sys.Ret (Sys.Integer 0, false)   (* not reached *)
    end in
  let '(second_operand, other_copied) := second in
  sys! there := Sys.path_exists output_path in
  (if there then Sys.call (Sys.Unlink output_path) else Sys.Ret tt);;
  Sys.call (Sys.IrafImarith first_operand operator second_operand
              output_path);;
  (if self_copied then Sys.call (Sys.Unlink first_operand) else Sys.Ret tt);;
  (if other_copied
   then match second_operand with
        | Sys.Image p => Sys.call (Sys.Unlink p)
        | _ => Sys.Ret tt
        end
   else Sys.Ret tt);;
  new output_path
  end.

(** [center]: [int(round(x / 2))] for each of the two sizes; [/] is the
    true division of [from __future__ import division]. *)
Definition center_of (x : Z) : answer Z :=
  PyNumber.int (PyNumber.round (PyNumber.float_of_int x / 2)).

(** Lines 989-1003 of [normalize]: the section of the image on which the
    central value is computed, and whether the method warned that it
    falls back on the full frame. *)
Definition central_area (self : t) (fraction : float)
    : answer (bool * (Z * Z * Z * Z)) :=
  let '(x_size, y_size) := size self in
  match center_of x_size with
  | Raises e => Raises e
  | Returns x_center =>
  match center_of y_size with
  | Raises e => Raises e
  | Returns y_center =>
  let square_width := Z.min x_size y_size in
  match PyNumber.int (PyNumber.float_of_int square_width * fraction / 2) with
  | Raises e => Raises e
  | Returns half_width =>
      let x1 := x_center - half_width in
      let x2 := x_center + half_width in
      let y1 := y_center - half_width in
      let y2 := y_center + half_width in
      if (Z.min x1 y1 <? 1) || (x_size <? x2) || (y_size <? y2)
      then Returns (true, (1, x_size, 1, y_size))
      else Returns (false, (x1, x2, y1, y2))
  end
  end
  end.

End FITSImage.

(** ** fitsimage.FITSet: sorting and selecting by number

    A FITSet is the list of its images.  [list.sort(key = ...)] computes
    the key of every element, in order, and then sorts stably by the keys:
    of the stable sorts, which all give the same list, this is insertion
    sort. *)

Module FITSet.

Section ListSort.
Context {A : Type}.

Fixpoint insert (kx : Z * A) (l : list (Z * A)) : list (Z * A) :=
  match l with
  | [] => [kx]
  | ky :: l' => if kx.1 <=? ky.1 then kx :: l else ky :: insert kx l'
  end.

Fixpoint decorate (key : A -> result Z) (l : list A)
  : result (list (Z * A)) :=
  match l with
  | [] => Ok []
  | x :: l' =>
      let? k := key x in
      let? d := decorate key l' in
      Ok ((k, x) :: d)
  end.

Definition list_sort (key : A -> result Z) (l : list A) : result (list A) :=
  let? d := decorate key l in
  Ok (map snd (foldr insert [] d)).

End ListSort.

(** [[img for img in self if len(img.number)]] *)
Fixpoint with_number (debug : bool) (self : list FITSImage.t)
  : result (list FITSImage.t) :=
  match self with
  | [] => Ok []
  | img :: rest =>
      let? number := FITSImage.number debug img in
      let? imgs := with_number debug rest in
      Ok (if negb (length number =? 0)%nat then img :: imgs else imgs)
  end.

Definition sort_key (debug : bool) (x : FITSImage.t) : result Z :=
  let? number := FITSImage.number debug x in
  py_int number.

Definition sort (debug : bool) (self : list FITSImage.t)
  : result (list FITSImage.t) :=
  let? imgs := with_number debug self in
  list_sort (sort_key debug) imgs.

(** The loop of [number_interval_filter]: the images appended to
    [selected] and the paths of the images it warned about, both in the
    order of the set. *)
Fixpoint select (debug : bool) (interval_lower interval_upper : Z)
  (self : list FITSImage.t) : result (list FITSImage.t * list str) :=
  match self with
  | [] => Ok ([], [])
  | image :: rest =>
      let? number := FITSImage.number debug image in
      if negb (length number =? 0)%nat then
        let? n := py_int number in
        let? r := select debug interval_lower interval_upper rest in
        Ok (if (interval_lower <=? n) && (n <=? interval_upper)
            then (image :: r.1, r.2) else r)
      else
        let? r := select debug interval_lower interval_upper rest in
        Ok (r.1, FITSImage.path image :: r.2)
  end.

Definition number_interval_filter (debug : bool)
  (interval_lower interval_upper : Z) (self : list FITSImage.t)
  : result (list FITSImage.t * list str) :=
  let? r := select debug interval_lower interval_upper self in
  let? sorted := sort debug r.1 in
  Ok (sorted, r.2).

(** To state what the two methods return: whether an image has a number,
    and the number as an integer. *)
Definition has_number (debug : bool) (img : FITSImage.t) : bool :=
  match FITSImage.number debug img with
  | Ok (_ :: _) => true
  | _ => false
  end.

Definition number_of (debug : bool) (img : FITSImage.t) : Z :=
  match sort_key debug img with
  | Ok n => n
  | Raise _ => 0
  end.

(** Lines 1211-1225 of [imcombine]: the numbers of low and high pixels
    that IRAF is told to reject, for a set of [len] images. *)
Definition rejection_counts (len : Z) (flow fhigh : float) : answer (Z * Z) :=
  match PyNumber.int (PyNumber.round (PyNumber.float_of_int len * flow)) with
  | Raises e => Raises e
  | Returns nlow =>
  match PyNumber.int (PyNumber.round (PyNumber.float_of_int len * fhigh)) with
  | Raises e => Raises e
  | Returns nhigh =>
      if (len =? 2) && (nhigh =? 0) && PyNumber.truth fhigh then
        Returns (nlow, 1)
      else if 3 <=? len then
        let nlow := if (nlow =? 0) && PyNumber.truth flow then 1 else nlow in
        let nhigh :=
          if (nhigh =? 0) && PyNumber.truth fhigh then 1 else nhigh in
        Returns (nlow, nhigh)
      else Returns (nlow, nhigh)
  end
  end.

(** [for img in self: os.write(input_fd, '%s\n' % img.path)] *)
Fixpoint write_paths (input_path : str) (self : list FITSImage.t)
    : Sys.prog unit :=
  match self with
  | [] => Sys.Ret tt
  | img :: rest =>
      Sys.call (Sys.Write input_path (FITSImage.path img ++ ["010"%char]));;
      write_paths input_path rest
  end.

Definition in_range (f : float) : bool := ((0 <=? f) && (f <=? 1))%float.

Definition imcombine (self : list FITSImage.t) (output_path : str)
    (flow fhigh : float) : Sys.prog FITSImage.t :=
  if (length self =? 0)%nat then
    Sys.Throw (Builtin (ValueError "FITSet is empty"))
  else if negb (in_range flow) || negb (in_range fhigh) then
    Sys.Throw (Builtin (ValueError
      "both 'nlow' and 'fhigh' must be in the range [0,1]"))
  else if negb (length (remove_dups (map FITSImage.size self)) =? 1)%nat then
    Sys.Throw (Builtin (ValueError "images in the FITSet differ in size"))
  else
  sys! counts :=
    Sys.lift (rejection_counts (Z.of_nat (length self)) flow fhigh) in
  let '(nlow, nhigh) := counts in
  sys! input_path := Sys.mkstemp (list_ascii_of_string ".lst") in
  Sys.finally
    (write_paths input_path self;;
     Sys.call (Sys.Close input_path);;
     sys! there := Sys.path_exists output_path in
     (if there then Sys.call (Sys.Unlink output_path) else Sys.Ret tt);;
     Sys.call Sys.OpenDevnull;;
     Sys.call (Sys.IrafImcombine ("@"%char :: input_path) output_path
                 nlow nhigh))
    (Sys.call (Sys.Unlink input_path));;
  sys! output_img := FITSImage.new output_path in
  Sys.call (Sys.DeleteKeyword (FITSImage.path output_img)
              (list_ascii_of_string "SEX_CATALOG"));;
  Sys.call (Sys.DeleteKeyword (FITSImage.path output_img)
              (list_ascii_of_string "SEX_MD5SUM"));;
  Sys.Ret output_img.

End FITSet.

(** * Scenarios

    Concrete inputs on which the definitions above are evaluated below. *)

Module Scenario.

(** A star of the specification's scenario: sum = -100, flux = -50. *)
Definition margin_star : QPhotResult.t :=
  QPhotResult.init 10 10 (Some 12.5%float) (-100) (-50) None.

(** Two stars whose sum is the smallest binary64 magnitude, 2^-1074. *)
Definition faint_star : QPhotResult.t :=
  QPhotResult.init 10 10 None 0x1p-1074 1 None.

Definition faint_negative_star : QPhotResult.t :=
  QPhotResult.init 10 10 None (-0x1p-1074) 1 None.

End Scenario.

(** Two coordinates, and a photometer that prints a single record, whose
    center is far from both. *)
Module ScenarioQPhot.

Definition params : qphot_params :=
  {| margin := 0; annulus := 10; dannulus := 5; aperture := 4;
     exptimek := "EXPTIME" |}.

Definition pixels : list Pixel.t := [Pixel.mk 12 9; Pixel.mk 52 49].

Definition stray_line : list field :=
  [Numeric 99; Numeric 99; Text "INDEF"; Numeric 1; Numeric 1; Text "INDEF"].

Definition no_sextractor (_ : string) (_ : float) : result (list Pixel.t) :=
  Ok [].

Definition one_stray_record (_ : string) (_ : qphot_params)
    (_ : list Pixel.t) : result (list (list field)) :=
  Ok [stray_line].

(** A photometer in step with its input: one record per coordinate, each
    echoing its coordinate. *)
Definition echo_line (pixel : Pixel.t) : list field :=
  [Numeric (Pixel.x pixel); Numeric (Pixel.y pixel); Numeric 12.5;
   Numeric 200; Numeric 150; Text "INDEF"].

Definition echoing (_ : string) (_ : qphot_params)
    (pixels : list Pixel.t) : result (list (list field)) :=
  Ok (map echo_line pixels).

End ScenarioQPhot.

(** The specification's scenario for the saturation mask: two stars, the
    second with a flux of 3.2 on the mask. *)
Module ScenarioMask.

Definition img_qphot : list QPhotResult.t :=
  [QPhotResult.init 12 9 (Some 12.5%float) 200 150 None;
   QPhotResult.init 52 49 (Some 11.25%float) 900 850 None].

#[local] Set Warnings "-inexact-float".
Definition mask_qphot : list QPhotResult.t :=
  [QPhotResult.init 12 9 None 0 0 None;
   QPhotResult.init 52 49 (Some 1%float) 3.2 3.2 None].

End ScenarioMask.

(** A world for [run]: the reference coordinates of the specification's
    scenario, a shifted image whose keyword UNCIMG names a raw image, and
    a photometer that finds a flux of 3.2 on the saturation mask for the
    second of the two stars. *)
Module ScenarioRun.

Definition xml_offset : XMLOffset.t :=
  XMLOffset.mk "reference.fits" "shifted.fits" 2 (-1).

(** The reference coordinates of the specification's scenario, as two
    distinct objects. *)
Definition h : store := [Pixel.mk 10 10; Pixel.mk 50 50].
Definition reference_pixels : list ref := [0%nat; 1%nat].

(** The same object listed twice. *)
Definition aliased_pixels : list ref := [0%nat; 0%nat].

Definition header : Host.header :=
  fun keyword => if String.eqb keyword "UNCIMG" then Some "raw.fits"%string
                 else None.

Definition mask_header : Host.header := fun _ => None.

(** The file that mkstemp creates for the mask. *)
Definition mask : string :=
  "/tmp/shifted.fits_satur_mask_50000_ADUS_k3Yw1a.fits".

Definition mask_line (flux : float) (pixel : Pixel.t) : list field :=
  [Numeric (Pixel.x pixel); Numeric (Pixel.y pixel); Text "INDEF";
   Numeric flux; Numeric flux; Text "INDEF"].

#[local] Set Warnings "-inexact-float".
Definition qphot_txdump (path : string) (params : qphot_params)
    (pixels : list Pixel.t) : result (list (list field)) :=
  if String.eqb path mask then Ok (zip_with mask_line [0; 3.2]%float pixels)
  else ScenarioQPhot.echoing path params pixels.

Definition photometry (path : string) : list QPhotResult.t * result nat :=
  QPhot_run true ScenarioQPhot.no_sextractor qphot_txdump path
    ScenarioQPhot.params ScenarioQPhot.pixels.

(** The calls of a run in which every call succeeds, up to the choice of
    the image to threshold. *)
Definition photometering : list Host.step :=
  [Host.Did (Host.SeeingImage "reference.fits" 0) (Returns tt);
   Host.Existed "shifted.fits" true;
   Host.Opened "shifted.fits" (Returns header);
   Host.Existed "shifted.fits" true;
   Host.Opened "shifted.fits" (Returns header);
   Host.Photometered "shifted.fits" ScenarioQPhot.params ScenarioQPhot.pixels
     (photometry "shifted.fits")].

(** The calls that follow when the shifted image itself is thresholded. *)
Definition masking : list Host.step :=
  [Host.Mkstemped "shifted.fits_satur_mask_50000_ADUS_" ".fits"
     (Returns (3, mask));
   Host.Did (Host.Close 3) (Returns tt);
   Host.Did (Host.Unlink mask) (Returns tt);
   Host.Did (Host.Imexpr "a>50000 ? 1 : 0" "shifted.fits" mask) (Returns tt);
   Host.Existed mask true;
   Host.Opened mask (Returns mask_header);
   Host.Photometered mask ScenarioQPhot.params ScenarioQPhot.pixels
     (photometry mask);
   Host.Did (Host.Unlink mask) (Returns tt)].

(** The photometry that such a run returns: the second star is marked. *)
Definition marked : list QPhotResult.t :=
  [QPhotResult.init 12 9 (Some 12.5%float) 200 150 None;
   QPhotResult.set_mag PyFloat.infinity
     (QPhotResult.init 52 49 (Some 12.5%float) 200 150 None)].


End ScenarioRun.

(** Statistics for [stable_overscan]: a flat overscan area, whose mean and
    deviation are the same on every section, and a drifting one, whose
    mean grows by some 15 per cent with every pixel trimmed. *)
Module ScenarioOverscan.

Definition percentage_change (old new : float) : float :=
  ((new - old) / old)%float.

Definition flat (statistic : string) (x1 x2 y1 y2 : Z) : float :=
  if String.eqb statistic "mean" then 100%float else 10%float.

Definition drifting (statistic : string) (x1 x2 y1 y2 : Z) : float :=
  if String.eqb statistic "mean" then
    match x1 with
    | 0 => 100 | 1 => 115 | 2 => 133 | 3 => 153 | 4 => 176 | _ => 100
    end%float
  else 10%float.

End ScenarioOverscan.


(** Two images, named with and without an extension. *)
Module ScenarioNames.

Definition ferM_0013_fits : FITSImage.t :=
  FITSImage.mk (list_ascii_of_string "/caha/ferM_0013.fits") (2048, 2048).

Definition ferM_0013 : FITSImage.t :=
  FITSImage.mk (list_ascii_of_string "/caha/ferM_0013") (2048, 2048).

End ScenarioNames.


(** Three flat-field images of the same size, the fractions of their
    pixels to reject, and a world in which every call succeeds. *)
Module ScenarioCombine.

Definition flat (n : string) : FITSImage.t :=
  FITSImage.mk (list_ascii_of_string ("/data/flat_" ++ n ++ ".fits"))
    (2048, 2048).

Definition flats : list FITSImage.t := [flat "001"; flat "002"; flat "003"].

Definition master : str := list_ascii_of_string "/data/master.fits".
Definition lst : str := list_ascii_of_string "/tmp/tmpX1.lst".
Definition tmp : str := list_ascii_of_string "/tmp/tmpY2.fits".

Definition flow : float := 0.125.
Definition fhigh : float := 0.5.

(** The calls of [imcombine] after the creation of the list file. *)
Definition combining : list Sys.step :=
  map (fun img => Sys.Did (Sys.Write lst (FITSImage.path img ++ ["010"%char]))
                    (Returns tt)) flats
  ++ [Sys.Did (Sys.Close lst) (Returns tt);
      Sys.Existed master false;
      Sys.Did Sys.OpenDevnull (Returns tt);
      Sys.Did (Sys.IrafImcombine ("@"%char :: lst) master 1 2) (Returns tt);
      Sys.Did (Sys.Unlink lst) (Returns tt);
      Sys.Opened master (Returns (2048, 2048));
      Sys.Did (Sys.DeleteKeyword master (list_ascii_of_string "SEX_CATALOG"))
        (Returns tt);
      Sys.Did (Sys.DeleteKeyword master (list_ascii_of_string "SEX_MD5SUM"))
        (Returns tt)].

(** The calls of [flat "001" / flat "001"] written over [flat "001"]. *)
Definition dividing : list Sys.step :=
  let a := FITSImage.path (flat "001") in
  let fits := list_ascii_of_string ".fits" in
  [Sys.Mkstemped fits (Returns tmp);
   Sys.Did (Sys.Close tmp) (Returns tt);
   Sys.Did (Sys.Copy2 a tmp) (Returns tt);
   Sys.Opened tmp (Returns (2048, 2048));
   Sys.Existed a true;
   Sys.Did (Sys.Unlink a) (Returns tt);
   Sys.Did (Sys.IrafImarith tmp ["/"%char] (Sys.Real 2) a) (Returns tt);
   Sys.Did (Sys.Unlink tmp) (Returns tt);
   Sys.Opened a (Returns (2048, 2048))].

(** The calls of copying a section of [flat "001"] onto the image. *)
Definition cropping : list Sys.step :=
  let a := FITSImage.path (flat "001") in
  let fits := list_ascii_of_string ".fits" in
  [Sys.Mkstemped fits (Returns tmp);
   Sys.Did (Sys.Close tmp) (Returns tt);
   Sys.Did (Sys.Copy2 a tmp) (Returns tt);
   Sys.Opened tmp (Returns (2048, 2048));
   Sys.Existed a true;
   Sys.Did (Sys.Unlink a) (Returns tt);
   Sys.Did Sys.OpenDevnull (Returns tt);
   Sys.Did (Sys.IrafImcopy
              (FITSImage._subscript (FITSImage.mk tmp (2048, 2048))
                 1 100 1 200) a) (Returns tt);
   Sys.Did (Sys.Unlink tmp) (Returns tt);
   Sys.Opened a (Returns (2048, 2048))].

(** The calls of [flat "001" + None], without an output path. *)
Definition rejecting : list Sys.step :=
  [Sys.Mkstemped (list_ascii_of_string ".fits") (Returns tmp);
   Sys.Did (Sys.Close tmp) (Returns tt)].

End ScenarioCombine.


(** The files of a night, in the order in which they were found. *)
Module ScenarioSet.

Definition image (path : string) : FITSImage.t :=
  FITSImage.mk (list_ascii_of_string path) (2048, 2048).

Definition night : list FITSImage.t :=
  [image "/caha/ferM_0020.fits"; image "/caha/ferM_0003.fits";
   image "/caha/notes.txt"; image "/caha/ferM_0013.fits"].

Definition sorted : list FITSImage.t :=
  [image "/caha/ferM_0003.fits"; image "/caha/ferM_0013.fits";
   image "/caha/ferM_0020.fits"].

End ScenarioSet.

(** * Properties *)

(** ** Signs of binary64 results

    The facts below are read off the specification of the primitive
    operations ([FloatAxioms]): the sign of a product, quotient or square
    root of non-negative floats is never negative. *)

Module FloatFacts.

Lemma binary_round_aux_sign p e s m ex l :
  sf_sign_is s (binary_round_aux p e s m ex l).
Proof.
  unfold binary_round_aux.
  destruct (shr_fexp p e m ex l) as [mrs' e'].
  destruct (shr_fexp p e _ e' loc_Exact) as [mrs'' e''].
  destruct (shr_m mrs''); simpl; auto.
  destruct (Z.leb _ _); simpl; auto.
Qed.

Lemma sign_false_not_neg a :
  sf_sign_is false (Prim2SF a) -> (a <? 0)%float = false.
Proof.
  rewrite FloatAxioms.ltb_spec.
  destruct (Prim2SF a) as [s|s| |s m e]; simpl; intros H;
    try rewrite H; reflexivity.
Qed.

Lemma sign_true_not_pos a :
  sf_sign_is true (Prim2SF a) -> (0 <? a)%float = false.
Proof.
  rewrite FloatAxioms.ltb_spec.
  destruct (Prim2SF a) as [s|s| |s m e]; simpl; intros H;
    try rewrite H; reflexivity.
Qed.

Lemma abs_sign a : sf_sign_is false (Prim2SF (PrimFloat.abs a)).
Proof. rewrite abs_spec. destruct (Prim2SF a); simpl; auto. Qed.

Lemma opp_sign a :
  sf_sign_is false (Prim2SF a) -> sf_sign_is true (Prim2SF (- a)).
Proof.
  rewrite opp_spec. destruct (Prim2SF a); simpl; intros; subst; auto.
Qed.

Lemma mul_sign a b :
  sf_sign_is false (Prim2SF a) -> sf_sign_is false (Prim2SF b) ->
  sf_sign_is false (Prim2SF (a * b)).
Proof.
  rewrite mul_spec. unfold SF64mul, SFmul.
  destruct (Prim2SF a) as [s|s| |s m e],
           (Prim2SF b) as [s'|s'| |s' m' e'];
    simpl; intros; subst; simpl; auto.
  apply (binary_round_aux_sign prec emax false).
Qed.

Lemma div_sign a b :
  sf_sign_is false (Prim2SF a) -> sf_sign_is false (Prim2SF b) ->
  sf_sign_is false (Prim2SF (a / b)).
Proof.
  rewrite div_spec. unfold SF64div, SFdiv.
  destruct (Prim2SF a) as [s|s| |s m e],
           (Prim2SF b) as [s'|s'| |s' m' e'];
    simpl; intros; subst; simpl; auto.
  destruct (SFdiv_core_binary _ _ _ _ _ _) as [[mz ez] lz].
  apply (binary_round_aux_sign prec emax false).
Qed.

Lemma sqrt_sign a :
  sf_sign_is false (Prim2SF a) ->
  sf_sign_is false (Prim2SF (PrimFloat.sqrt a)).
Proof.
  rewrite sqrt_spec. unfold SF64sqrt, SFsqrt.
  destruct (Prim2SF a) as [s|s| |s m e];
    simpl; intros; subst; simpl; auto.
  destruct (SFsqrt_core_binary _ _ _ _) as [[mz ez] lz].
  apply (binary_round_aux_sign prec emax false).
Qed.

(** [g > 0] excludes [g <= 0]. *)
Lemma gt_zero_not_le g : (0 <? g)%float = true -> (g <=? 0)%float = false.
Proof.
  rewrite FloatAxioms.ltb_spec, FloatAxioms.leb_spec.
  destruct (Prim2SF g) as [s|s| |s m e]; simpl;
    try destruct s; simpl; auto; discriminate.
Qed.

Lemma gt_zero_sign g :
  (0 <? g)%float = true -> sf_sign_is false (Prim2SF g).
Proof.
  rewrite FloatAxioms.ltb_spec.
  destruct (Prim2SF g) as [s|s| |s m e]; simpl;
    try destruct s; simpl; auto; discriminate.
Qed.

Lemma gt_zero_not_eq_lt a :
  (0 <? a)%float = true ->
  (a =? 0)%float = false /\ (a <? 0)%float = false.
Proof.
  rewrite FloatAxioms.eqb_spec, !FloatAxioms.ltb_spec.
  destruct (Prim2SF a) as [s|s| |s m e]; simpl;
    try destruct s; simpl; auto; discriminate.
Qed.

(** What is left of [a] after [a == 0] and [a < 0] both failed. *)
Lemma not_lt_sign a :
  (a =? 0)%float = false -> (a <? 0)%float = false ->
  sf_sign_is false (Prim2SF a).
Proof.
  rewrite FloatAxioms.eqb_spec, FloatAxioms.ltb_spec.
  destruct (Prim2SF a) as [s|s| |s m e]; simpl;
    try destruct s; simpl; auto; discriminate.
Qed.

Lemma lt_zero_not_eq a :
  (a <? 0)%float = true -> (a =? 0)%float = false.
Proof.
  rewrite FloatAxioms.eqb_spec, FloatAxioms.ltb_spec.
  destruct (Prim2SF a) as [s|s| |s m e]; simpl;
    try destruct s; simpl; auto; discriminate.
Qed.

End FloatFacts.

(** ** QPhotResult.snr *)

Lemma math_sqrt_abs a :
  PyFloat.math_sqrt (PrimFloat.abs a) = Ok (PrimFloat.sqrt (PrimFloat.abs a)).
Proof.
  unfold PyFloat.math_sqrt.
  now rewrite (FloatFacts.sign_false_not_neg _ (FloatFacts.abs_sign a)).
Qed.

Lemma math_sqrt_nonneg a :
  sf_sign_is false (Prim2SF a) ->
  PyFloat.math_sqrt a = Ok (PrimFloat.sqrt a).
Proof.
  intros H. unfold PyFloat.math_sqrt.
  now rewrite (FloatFacts.sign_false_not_neg _ H).
Qed.

(** The three branches of [snr] for a positive gain, each as the Python
    expression it evaluates. *)
Lemma snr_zero_sum self gain :
  (0 <? gain)%float = true -> (QPhotResult.sum_ self =? 0)%float = true ->
  QPhotResult.snr self gain = Ok 0%float.
Proof.
  intros Hg Hs. unfold QPhotResult.snr.
  now rewrite (FloatFacts.gt_zero_not_le _ Hg), Hs.
Qed.

Lemma snr_negative_sum self gain :
  (0 <? gain)%float = true -> (QPhotResult.sum_ self <? 0)%float = true ->
  QPhotResult.snr self gain =
    let? q := PyFloat.truediv
                (PrimFloat.abs (QPhotResult.flux self * gain))
                (PrimFloat.sqrt (PrimFloat.abs (QPhotResult.sum_ self * gain)))
    in Ok (- q)%float.
Proof.
  intros Hg Hs. unfold QPhotResult.snr.
  rewrite (FloatFacts.gt_zero_not_le _ Hg), (FloatFacts.lt_zero_not_eq _ Hs).
  rewrite Hs.
  now rewrite math_sqrt_abs.
Qed.

Lemma snr_positive_sum self gain :
  (0 <? gain)%float = true -> (0 <? QPhotResult.sum_ self)%float = true ->
  QPhotResult.snr self gain =
    PyFloat.truediv (QPhotResult.flux self * gain)
      (PrimFloat.sqrt (QPhotResult.sum_ self * gain)).
Proof.
  intros Hg Hs. unfold QPhotResult.snr.
  destruct (FloatFacts.gt_zero_not_eq_lt _ Hs) as [He Hl].
  rewrite (FloatFacts.gt_zero_not_le _ Hg), He, Hl.
  rewrite math_sqrt_nonneg; [reflexivity|].
  apply FloatFacts.mul_sign; now apply FloatFacts.gt_zero_sign.
Qed.

(** C8: [snr] raises ValueError for every gain [g <= 0], whatever the sum
    and the flux of the star (the test on the gain comes first), and it
    raises no ValueError for any gain [g > 0]. *)
Theorem snr_gain_check (self : QPhotResult.t) (gain : float) :
  ((gain <=? 0)%float = true ->
     QPhotResult.snr self gain =
       Raise (ValueError "CCD gain must be a positive value")) /\
  ((0 <? gain)%float = true ->
     is_ValueError (QPhotResult.snr self gain) = false).
Proof.
  split.
  - intros Hg. unfold QPhotResult.snr. now rewrite Hg.
  - intros Hg. unfold QPhotResult.snr.
    rewrite (FloatFacts.gt_zero_not_le _ Hg).
    destruct (QPhotResult.sum_ self =? 0)%float eqn:He; [reflexivity|].
    destruct (QPhotResult.sum_ self <? 0)%float eqn:Hl.
    + rewrite math_sqrt_abs. simpl. unfold PyFloat.truediv.
      destruct (PrimFloat.sqrt _ =? 0)%float; reflexivity.
    + rewrite math_sqrt_nonneg.
      * simpl. unfold PyFloat.truediv.
        destruct (PrimFloat.sqrt _ =? 0)%float; reflexivity.
      * apply FloatFacts.mul_sign.
        -- now apply FloatFacts.not_lt_sign.
        -- now apply FloatFacts.gt_zero_sign.
Qed.

Lemma snr_gain_check_witness :
  QPhotResult.snr Scenario.margin_star (-2) =
    Raise (ValueError "CCD gain must be a positive value") /\
  is_ValueError (QPhotResult.snr Scenario.margin_star 2) = false.
Proof.
  destruct (snr_gain_check Scenario.margin_star (-2)) as [H _].
  destruct (snr_gain_check Scenario.margin_star 2) as [_ H'].
  split; [apply H | apply H']; reflexivity.
Defined.

(** C4, at the inputs where the code departs from it: the gain is
    positive and the sum is not zero, but the product [sum * gain] rounds
    to zero, its square root is zero, and the division raises
    ZeroDivisionError: [snr] returns no value, for a negative sum as for a
    positive one. *)
Theorem snr_underflow_raises_ZeroDivisionError :
  (0 <? 0.25)%float = true /\
  (QPhotResult.sum_ Scenario.faint_negative_star <? 0)%float = true /\
  QPhotResult.snr Scenario.faint_negative_star 0.25 = Raise ZeroDivisionError /\
  (0 <? QPhotResult.sum_ Scenario.faint_star)%float = true /\
  QPhotResult.snr Scenario.faint_star 0.25 = Raise ZeroDivisionError.
Proof. repeat split; reflexivity. Qed.

(** What [snr] computes for a positive gain: 0.0 for a zero sum; for a
    negative sum the negated quotient of the absolute values, which is
    never positive; for a positive sum the plain quotient; each quotient
    provided its denominator, the square root, is not zero. *)
Theorem snr_formula (self : QPhotResult.t) (gain : float)
    (Hgain : (0 <? gain)%float = true) :
  let sum_ := QPhotResult.sum_ self in
  let flux := QPhotResult.flux self in
  ((sum_ =? 0)%float = true -> QPhotResult.snr self gain = Ok 0%float) /\
  ((sum_ <? 0)%float = true ->
   (PrimFloat.sqrt (PrimFloat.abs (sum_ * gain)) =? 0)%float = false ->
   QPhotResult.snr self gain =
     Ok (- (PrimFloat.abs (flux * gain)
            / PrimFloat.sqrt (PrimFloat.abs (sum_ * gain))))%float /\
   (0 <? - (PrimFloat.abs (flux * gain)
            / PrimFloat.sqrt (PrimFloat.abs (sum_ * gain))))%float = false) /\
  ((0 <? sum_)%float = true ->
   (PrimFloat.sqrt (sum_ * gain) =? 0)%float = false ->
   QPhotResult.snr self gain =
     Ok (flux * gain / PrimFloat.sqrt (sum_ * gain))%float).
Proof.
  intros sum_ flux. subst sum_ flux. split; [|split].
  - intros Hs. now apply snr_zero_sum.
  - intros Hs Hd. split.
    + rewrite (snr_negative_sum _ _ Hgain Hs). unfold PyFloat.truediv.
      now rewrite Hd.
    + apply FloatFacts.sign_true_not_pos, FloatFacts.opp_sign,
        FloatFacts.div_sign.
      * apply FloatFacts.abs_sign.
      * apply FloatFacts.sqrt_sign, FloatFacts.abs_sign.
  - intros Hs Hd. rewrite (snr_positive_sum _ _ Hgain Hs).
    unfold PyFloat.truediv. now rewrite Hd.
Qed.

(** The specification's scenario: sum = -100, flux = -50, gain = 1 give
    an SNR of -5.0. *)
Lemma snr_formula_witness :
  QPhotResult.snr Scenario.margin_star 1 = Ok (-5)%float.
Proof.
  destruct (snr_formula Scenario.margin_star 1 eq_refl) as (_ & H & _).
  destruct (H eq_refl eq_refl) as [-> _]. reflexivity.
Defined.

(** ** QPhot.run *)

Lemma rbind_Ok_inv {A B} (c : result A) (k : A -> result B) (b : B) :
  rbind c k = Ok b -> exists a, c = Ok a /\ k a = Ok b.
Proof. destruct c; simpl; [eauto | discriminate]. Qed.

Lemma py_assert_true_Ok cond u : py_assert true cond = Ok u -> cond = true.
Proof.
  unfold py_assert. destruct cond; simpl; [reflexivity | discriminate].
Qed.

(** With assertions enabled, a parsed star echoes the coordinate it was
    parsed against. *)
Lemma parse_line_echo line pixel star :
  parse_line true line pixel = Ok star ->
  within_epsilon (QPhotResult.x star) (Pixel.x pixel) = true /\
  within_epsilon (QPhotResult.y star) (Pixel.y pixel) = true.
Proof.
  unfold parse_line. intros H.
  repeat (apply rbind_Ok_inv in H; destruct H as (? & ? & H)).
  injection H as <-. simpl.
  split; eapply py_assert_true_Ok; eassumption.
Qed.

(** With assertions enabled, a record whose center is off raises
    AssertionError. *)
Lemma parse_line_mismatch line pixel xcenter ycenter :
  line !! 0%nat = Some (Numeric xcenter) ->
  line !! 1%nat = Some (Numeric ycenter) ->
  within_epsilon xcenter (Pixel.x pixel) = false \/
  within_epsilon ycenter (Pixel.y pixel) = false ->
  parse_line true line pixel = Raise AssertionError.
Proof.
  intros H0 H1 Hoff. unfold parse_line, getitem. rewrite H0, H1. simpl.
  destruct (within_epsilon xcenter (Pixel.x pixel)) eqn:Hx; simpl;
    [|reflexivity].
  destruct Hoff as [Hoff|Hoff]; [discriminate|]. now rewrite Hoff.
Qed.

(** The loop appends one star per pair, in order, or stops at the first
    pair that raises. *)
Lemma parse_lines_Ok debug pairs : forall self self',
  parse_lines debug self pairs = (self', Ok tt) ->
  exists stars, self' = self ++ stars /\
    Forall2 (fun pair star => parse_line debug pair.1 pair.2 = Ok star)
      pairs stars.
Proof.
  induction pairs as [|[line pixel] rest IH]; simpl; intros self self' H.
  - injection H as <-. exists []. split; [now rewrite app_nil_r | constructor].
  - destruct (parse_line debug line pixel) as [star|e] eqn:Hp; [|discriminate].
    destruct (IH _ _ H) as (stars & -> & HF).
    exists (star :: stars). split; [now rewrite <- app_assoc|].
    now constructor.
Qed.

Lemma parse_lines_all_Ok debug pairs : forall self,
  Forall (fun pair => exists star, parse_line debug pair.1 pair.2 = Ok star)
    pairs ->
  exists self', parse_lines debug self pairs = (self', Ok tt).
Proof.
  induction pairs as [|[line pixel] rest IH]; intros self HF; simpl.
  - eauto.
  - apply Forall_cons in HF as [[star Hstar] HF]. simpl in Hstar.
    rewrite Hstar. apply IH, HF.
Qed.

Lemma parse_lines_Raise debug pairs i pair e0 : forall self,
  pairs !! i = Some pair ->
  parse_line debug pair.1 pair.2 = Raise e0 ->
  (exists e, (parse_lines debug self pairs).2 = Raise e) /\
  ((forall j pair', (j < i)%nat -> pairs !! j = Some pair' ->
      exists star, parse_line debug pair'.1 pair'.2 = Ok star) ->
   (parse_lines debug self pairs).2 = Raise e0).
Proof.
  revert i. induction pairs as [|[line pixel] rest IH]; intros i self Hi Hp;
    [discriminate|].
  simpl. destruct i as [|i]; simpl in Hi.
  - injection Hi as <-. simpl in Hp. rewrite Hp. simpl. eauto.
  - destruct (parse_line debug line pixel) as [star|e] eqn:Hl.
    + destruct (IH i (self ++ [star]) Hi Hp) as [He Hfirst].
      split; [exact He|]. intros Hbefore. apply Hfirst.
      intros j pair' Hj Hpair'. apply (Hbefore (S j)); [lia | exact Hpair'].
    + split; [simpl; eauto|]. intros Hbefore.
      destruct (Hbefore 0%nat (line, pixel)) as [star Hstar];
        [lia | reflexivity |].
      simpl in Hstar. congruence.
Qed.

(** A center that is off by epsilon or more is not within epsilon. *)
Lemma at_least_epsilon_not_within center coordinate :
  (epsilon <=? PrimFloat.abs (center - coordinate))%float = true ->
  within_epsilon center coordinate = false.
Proof.
  unfold within_epsilon.
  rewrite FloatAxioms.leb_spec, FloatAxioms.ltb_spec.
  generalize (Prim2SF (PrimFloat.abs (center - coordinate))).
  generalize (Prim2SF epsilon). intros a b. unfold SFleb, SFltb.
  destruct a as [s|s| |s m e], b as [s'|s'| |s' m' e']; simpl;
    try destruct s; try destruct s'; simpl; try discriminate; auto.
  all: change (PosDef.Pos.compare_cont Eq m' m) with (m' ?= m)%positive;
    change (PosDef.Pos.compare_cont Eq m m') with (m ?= m')%positive;
    rewrite (Z.compare_antisym e e'), (Pos.compare_antisym m m');
    destruct (e ?= e'); simpl; try discriminate; auto;
    destruct (m ?= m')%positive; simpl; try discriminate; auto.
Qed.

(** C3, as the code has it: with assertions enabled ([__debug__] true),
    a run of [QPhot.run] on a non-empty coordinate list that returns has
    put in the instance exactly one star per coordinate, the i-th parsed
    from the i-th record against the i-th coordinate and echoing it to
    within 0.001 pixel; when the photometer printed another number of
    records the run raises AssertionError and the instance is empty; when
    the center of some record is not within 0.001 pixel of its coordinate
    the run raises instead of returning: AssertionError, unless an earlier
    record failed to parse; and when there is one record per coordinate
    and each parses against its coordinate, the run does return. *)
Theorem QPhot_run_with_assertions
    (sextractor : string -> float -> result (list Pixel.t))
    (qphot_txdump :
       string -> qphot_params -> list Pixel.t -> result (list (list field)))
    (path : string) (params : qphot_params) (pixels : list Pixel.t)
    (self : list QPhotResult.t) (r : result nat) :
  pixels <> [] ->
  QPhot_run true sextractor qphot_txdump path params pixels = (self, r) ->
  (forall n, r = Ok n ->
     n = length pixels /\ length self = length pixels /\
     exists txdump_lines,
       qphot_txdump path params pixels = Ok txdump_lines /\
       forall i pixel, pixels !! i = Some pixel ->
         exists line star,
           txdump_lines !! i = Some line /\ self !! i = Some star /\
           parse_line true line pixel = Ok star /\
           within_epsilon (QPhotResult.x star) (Pixel.x pixel) = true /\
           within_epsilon (QPhotResult.y star) (Pixel.y pixel) = true) /\
  (forall txdump_lines,
     qphot_txdump path params pixels = Ok txdump_lines ->
     length txdump_lines <> length pixels ->
     self = [] /\ r = Raise AssertionError) /\
  (forall txdump_lines i line pixel xcenter ycenter,
     qphot_txdump path params pixels = Ok txdump_lines ->
     txdump_lines !! i = Some line -> pixels !! i = Some pixel ->
     line !! 0%nat = Some (Numeric xcenter) ->
     line !! 1%nat = Some (Numeric ycenter) ->
     within_epsilon xcenter (Pixel.x pixel) = false \/
     within_epsilon ycenter (Pixel.y pixel) = false ->
     (exists e, r = Raise e) /\
     ((forall j line' pixel', (j < i)%nat ->
         txdump_lines !! j = Some line' -> pixels !! j = Some pixel' ->
         exists star, parse_line true line' pixel' = Ok star) ->
      r = Raise AssertionError)) /\
  (forall txdump_lines,
     qphot_txdump path params pixels = Ok txdump_lines ->
     length txdump_lines = length pixels ->
     (forall i line pixel,
        txdump_lines !! i = Some line -> pixels !! i = Some pixel ->
        exists star, parse_line true line pixel = Ok star) ->
     r = Ok (length pixels)).
Proof.
  intros Hne Hrun. unfold QPhot_run in Hrun.
  destruct pixels as [|p ps]; [contradiction|].
  set (pixels := p :: ps) in *. clearbody pixels. clear Hne.
  destruct (qphot_txdump path params pixels) as [lines|e0] eqn:Hq;
    [|injection Hrun as <- <-; repeat split; intros; discriminate].
  destruct (Nat.eqb (length lines) (length pixels)) eqn:Hlen; simpl in Hrun.
  2: { injection Hrun as <- <-. apply Nat.eqb_neq in Hlen.
       split; [intros; discriminate|]. split; [auto|].
       split; intros; simplify_eq; eauto. }
  apply Nat.eqb_eq in Hlen.
  split; [|split; [intros; simplify_eq; congruence|split]].
  - destruct (parse_lines true [] (zip lines pixels)) as [self' [[]|e]] eqn:Hpl;
      injection Hrun as <- <-; [|intros; discriminate].
    destruct (parse_lines_Ok _ _ _ _ Hpl) as (stars & -> & HF). simpl.
    pose proof (Forall2_length _ _ _ HF) as Hl.
    rewrite length_zip, Hlen, Nat.min_id in Hl.
    intros n [= <-]. split; [auto|]. split; [auto|].
    exists lines. split; [reflexivity|]. intros i pixel Hi.
    destruct (lookup_lt_is_Some_2 lines i) as [line Hline].
    { rewrite Hlen. eapply lookup_lt_Some; eassumption. }
    assert (Hz : zip lines pixels !! i = Some (line, pixel)).
    { apply lookup_zip_with_Some. eauto. }
    destruct (Forall2_lookup_l _ _ _ _ _ HF Hz) as (star & Hstar & Hp).
    simpl in Hp. exists line, star.
    repeat split; auto; eapply parse_line_echo; eassumption.
  - intros lines' i line pixel xcenter ycenter [= <-] Hline Hpixel H0 H1 Hoff.
    assert (Hz : zip lines pixels !! i = Some (line, pixel)).
    { apply lookup_zip_with_Some. eauto. }
    pose proof (parse_line_mismatch line pixel _ _ H0 H1 Hoff) as Hp.
    destruct (parse_lines_Raise true _ i (line, pixel) AssertionError [] Hz Hp)
      as [[e He] Hfirst].
    destruct (parse_lines true [] (zip lines pixels)) as [self' [[]|e']];
      injection Hrun as <- <-; simpl in He, Hfirst; [discriminate|].
    split; [eauto|].
    intros Hbefore. enough (e' = AssertionError) as -> by reflexivity.
    assert (Raise e' = Raise AssertionError :> result unit) as [= ->];
      [|reflexivity].
    apply Hfirst. intros j [line' pixel'] Hj Hz'.
    apply lookup_zip_with_Some in Hz' as (l1 & p1 & [= -> ->] & Hl1 & Hp1).
    simpl. eauto.
  - intros lines' [= <-] _ Hall.
    destruct (parse_lines_all_Ok true (zip lines pixels) []) as [self' Hpl].
    { apply Forall_lookup. intros i [line pixel] Hz.
      apply lookup_zip_with_Some in Hz as (l1 & p1 & [= -> ->] & Hl1 & Hp1).
      simpl. eauto. }
    rewrite Hpl in Hrun. injection Hrun as <- <-.
    destruct (parse_lines_Ok _ _ _ _ Hpl) as (stars & -> & HF). simpl.
    pose proof (Forall2_length _ _ _ HF) as Hl.
    rewrite length_zip, Hlen, Nat.min_id in Hl. congruence.
Qed.

Lemma QPhot_run_with_assertions_witness :
  (QPhot_run true ScenarioQPhot.no_sextractor ScenarioQPhot.echoing
     "shifted.fits" ScenarioQPhot.params ScenarioQPhot.pixels).2 = Ok 2%nat /\
  (QPhot_run true ScenarioQPhot.no_sextractor ScenarioQPhot.one_stray_record
     "shifted.fits" ScenarioQPhot.params ScenarioQPhot.pixels).2 =
    Raise AssertionError.
Proof.
  split.
  - destruct (QPhot_run true ScenarioQPhot.no_sextractor ScenarioQPhot.echoing
                "shifted.fits" ScenarioQPhot.params ScenarioQPhot.pixels)
      as [self r] eqn:E.
    assert (Hne : ScenarioQPhot.pixels <> []) by discriminate.
    destruct (QPhot_run_with_assertions _ _ _ _ _ _ _ Hne E)
      as (Hok & _ & _ & _).
    vm_compute in E. injection E as <- <-.
    destruct (Hok 2%nat eq_refl) as (Hn & _). reflexivity.
  - destruct (QPhot_run true ScenarioQPhot.no_sextractor
                ScenarioQPhot.one_stray_record
                "shifted.fits" ScenarioQPhot.params ScenarioQPhot.pixels)
      as [self r] eqn:E.
    assert (Hne : ScenarioQPhot.pixels <> []) by discriminate.
    destruct (QPhot_run_with_assertions _ _ _ _ _ _ _ Hne E)
      as (_ & Hlen & _ & _).
    destruct (Hlen [ScenarioQPhot.stray_line] eq_refl) as [_ ->];
      [discriminate | reflexivity].
Defined.

(** C3 as stated fails when assertions are disabled ([__debug__] false):
    for two coordinates and a photometer that printed one record, whose
    center is far from the first coordinate, [QPhot.run] raises nothing and
    returns 1, leaving a single star in the instance. *)
Lemma QPhot_run_without_assertions_skips_mismatch :
  QPhot_run false ScenarioQPhot.no_sextractor ScenarioQPhot.one_stray_record
    "shifted.fits" ScenarioQPhot.params ScenarioQPhot.pixels =
    ([QPhotResult.init 99 99 None 1 1 None], Ok 1%nat) /\
  length ScenarioQPhot.pixels = 2%nat /\
  ScenarioQPhot.pixels !! 0%nat = Some (Pixel.mk 12 9) /\
  within_epsilon 99 12 = false.
Proof. repeat split; reflexivity. Qed.

(** ** The saturation loop of [run] *)

Lemma classify_magnitude debug img_qphot : forall mask_qphot out,
  classify debug img_qphot mask_qphot = Ok out ->
  map QPhotResult.magnitude out = map QPhotResult.magnitude img_qphot.
Proof.
  induction img_qphot as [|star_phot img' IH]; intros [|star_mask mask'] out;
    simpl; try (intros [= <-]; reflexivity).
  intros H.
  repeat (apply rbind_Ok_inv in H; destruct H as (? & ? & H)).
  injection H as <-. simpl. f_equal.
  - now destruct (0 <? QPhotResult.flux star_mask)%float.
  - eapply IH; eassumption.
Qed.

(** C1, at the input where the code departs from it.  The loop assigns
    the attribute [mag], which [QPhotResult] does not otherwise have; the
    field [magnitude] that [__init__] set keeps its value for every star,
    whatever the flux on the mask.  In the specification's scenario the
    second star has a flux of 3.2 on the mask: after the loop its
    [magnitude] is still 11.25, not infinity, and infinity sits in
    [mag]. *)
Theorem classify_leaves_magnitude :
  (forall debug img_qphot mask_qphot out,
     classify debug img_qphot mask_qphot = Ok out ->
     map QPhotResult.magnitude out = map QPhotResult.magnitude img_qphot) /\
  (exists out,
     classify true ScenarioMask.img_qphot ScenarioMask.mask_qphot = Ok out /\
     length ScenarioMask.img_qphot = length ScenarioMask.mask_qphot /\
     (QPhotResult.flux <$> ScenarioMask.mask_qphot !! 1%nat) = Some 3.2%float /\
     (0 <? 3.2)%float = true /\
     (QPhotResult.magnitude <$> out !! 1%nat) = Some (Some 11.25%float) /\
     (QPhotResult.mag <$> out !! 1%nat) = Some (Some PyFloat.infinity) /\
     out !! 0%nat = ScenarioMask.img_qphot !! 0%nat).
Proof.
  split; [apply classify_magnitude|].
  eexists. split; [vm_compute; reflexivity|]. repeat split.
Qed.

(** ** Runs of [run] *)

#[local] Set Warnings "-clear-no-such-hyp".

Module HostFacts.
Import Host.

Section Runs.

Variable debug : bool.
Variable sextractor : string -> float -> result (list Pixel.t).
Variable qphot_txdump :
  string -> qphot_params -> list Pixel.t -> result (list (list field)).

Local Abbreviation runs := (@Host.runs debug sextractor qphot_txdump _).

Lemma handle_runs {A B} (p : prog A) (h : answer A -> prog B) t out :
  runs (handle p h) t out <->
  exists t1 r t2, runs p t1 r /\ runs (h r) t2 out /\ t = t1 ++ t2.
Proof.
  split.
  - revert t.
    induction p as [a|e|c k IH|path k IH|path k IH|pre suf k IH|
                    path params pixels k IH]; simpl; intros t H.
    + exists [], (Returns a), t. repeat split; [constructor|easy].
    + exists [], (Raises e), t. repeat split; [constructor|easy].
    + inversion H as [| |? ? r t' ? H'| | | |]; subst.
      destruct (IH _ _ H') as (t1 & r' & t2 & H1 & H2 & ->).
      exists (Did c r :: t1), r', t2. repeat split; [now constructor|easy].
    + inversion H as [| | |? ? r t' ? H'| | |]; subst.
      destruct (IH _ _ H') as (t1 & r' & t2 & H1 & H2 & ->).
      exists (Existed path r :: t1), r', t2.
      repeat split; [now constructor|easy].
    + inversion H as [| | | |? ? r t' ? H'| |]; subst.
      destruct (IH _ _ H') as (t1 & r' & t2 & H1 & H2 & ->).
      exists (Opened path r :: t1), r', t2.
      repeat split; [now constructor|easy].
    + inversion H as [| | | | |? ? ? r t' ? H'|]; subst.
      destruct (IH _ _ H') as (t1 & r' & t2 & H1 & H2 & ->).
      exists (Mkstemped pre suf r :: t1), r', t2.
      repeat split; [now constructor|easy].
    + inversion H as [| | | | | |? ? ? ? r t' ? Hr H']; subst.
      destruct (IH _ _ H') as (t1 & r' & t2 & H1 & H2 & ->).
      eexists (Photometered path params pixels _ :: t1), r', t2.
      repeat split; [now constructor|easy].
  - intros (t1 & r & t2 & H1 & H2 & ->).
    induction H1; simpl; try (constructor; auto); exact H2.
Qed.

Lemma lift_runs {A} (r : answer A) t out :
  runs (lift r) t out <-> t = [] /\ out = r.
Proof.
  destruct r; simpl; split.
  - now inversion 1.
  - intros [-> ->]. constructor.
  - now inversion 1.
  - intros [-> ->]. constructor.
Qed.

Lemma Ret_runs {A} (a : A) t out :
  runs (Ret a) t out <-> t = [] /\ out = Returns a.
Proof. apply (lift_runs (Returns a)). Qed.

Lemma Throw_runs {A} e t (out : answer A) :
  runs (Throw e) t out <-> t = [] /\ out = Raises e.
Proof. apply (lift_runs (Raises e)). Qed.

Lemma bind_runs {A B} (p : prog A) (k : A -> prog B) t out :
  runs (bind p k) t out <->
  (exists t1 e, runs p t1 (Raises e) /\ t = t1 /\ out = Raises e) \/
  (exists t1 a t2, runs p t1 (Returns a) /\ runs (k a) t2 out /\
     t = t1 ++ t2).
Proof.
  unfold bind. rewrite handle_runs. split.
  - intros (t1 & [a|e] & t2 & H1 & H2 & ->).
    + right. now exists t1, a, t2.
    + left. apply Throw_runs in H2 as [-> ->].
      exists t1, e. now rewrite app_nil_r.
  - intros [(t1 & e & H1 & -> & ->)|(t1 & a & t2 & H1 & H2 & ->)].
    + exists t1, (Raises e), []. rewrite app_nil_r.
      repeat split; [easy|constructor].
    + now exists t1, (Returns a), t2.
Qed.

Lemma call_runs c t out :
  runs (call c) t out <-> t = [Did c out].
Proof.
  unfold call. split.
  - inversion 1 as [| |? ? r t' ? H'| | | |]; subst.
    now apply lift_runs in H' as [-> ->].
  - intros ->. constructor. now apply lift_runs.
Qed.

Lemma mkstemp_runs prefix suffix t out :
  runs (mkstemp prefix suffix) t out <-> t = [Mkstemped prefix suffix out].
Proof.
  unfold mkstemp. split.
  - inversion 1 as [| | | | |? ? ? r t' ? H'|]; subst.
    now apply lift_runs in H' as [-> ->].
  - intros ->. constructor. now apply lift_runs.
Qed.

Lemma path_exists_runs path t out :
  runs (path_exists path) t out <->
  exists b, t = [Existed path b] /\ out = Returns b.
Proof.
  unfold path_exists. split.
  - inversion 1 as [| | |? ? r t' ? H'| | |]; subst.
    apply Ret_runs in H' as [-> ->]. eauto.
  - intros (b & -> & ->). constructor. constructor.
Qed.

Lemma finally_runs {A} (p : prog A) cleanup t out :
  runs (finally p cleanup) t out <->
  exists t1 r t2 c, runs p t1 r /\ runs cleanup t2 c /\ t = t1 ++ t2 /\
    out = match c with Returns _ => r | Raises e => Raises e end.
Proof.
  unfold finally. rewrite handle_runs. split.
  - intros (t1 & r & t2 & H1 & H2 & ->).
    apply bind_runs in H2
      as [(t' & e & Hc & -> & ->)|(t' & [] & t'' & Hc & Hl & ->)].
    + now exists t1, r, t', (Raises e).
    + apply lift_runs in Hl as [-> ->]. rewrite app_nil_r.
      now exists t1, r, t', (Returns tt).
  - intros (t1 & r & t2 & c & H1 & H2 & -> & ->).
    exists t1, r, t2. repeat split; [easy|]. apply bind_runs.
    destruct c as [[]|e].
    + right. exists t2, tt, []. rewrite app_nil_r.
      repeat split; [easy|]. now apply lift_runs.
    + left. now exists t2, e.
Qed.

(** [FITSImage(path)]: the test of existence, then the opening. *)
Lemma fits_image_runs path t out :
  runs (fits_image path) t out <->
  (t = [Existed path false] /\
   out = Raises (Builtin (IOError (no_file_msg path)))) \/
  (t = [Existed path true; Opened path out]).
Proof.
  unfold fits_image. rewrite bind_runs. split.
  - intros [(t1 & e & H & _)|(t1 & b & t2 & H1 & H2 & ->)].
    + apply path_exists_runs in H as (b & _ & [=]).
    + apply path_exists_runs in H1 as (b' & -> & [= <-]).
      destruct b.
      * inversion H2 as [| | | |? ? r t' ? H'| |]; subst.
        apply lift_runs in H' as [-> ->]. now right.
      * apply Throw_runs in H2 as [-> ->]. now left.
  - intros [[-> ->]| ->]; right.
    + exists [Existed path false], false, []. repeat split.
      * apply path_exists_runs. eauto.
      * constructor.
    + exists [Existed path true], true, [Opened path out]. repeat split.
      * apply path_exists_runs. eauto.
      * constructor. now apply lift_runs.
Qed.

(** [QPhot(path).run(...)]: the image is opened, then photometered. *)
Lemma photometer_runs path params pixels t out :
  runs (photometer path params pixels) t out <->
  (t = [Existed path false] /\
   out = Raises (Builtin (IOError (no_file_msg path)))) \/
  (exists e, t = [Existed path true; Opened path (Raises e)] /\
     out = Raises e) \/
  (exists header self r,
     QPhot_run debug sextractor qphot_txdump path params pixels = (self, r) /\
     t = [Existed path true; Opened path (Returns header);
          Photometered path params pixels (self, r)] /\
     out = match r with
           | Ok _ => Returns self
           | Raise e => Raises (Builtin e)
           end).
Proof.
  unfold photometer. rewrite bind_runs. split.
  - intros [(t1 & e & H & -> & ->)|(t1 & hd & t2 & H1 & H2 & ->)].
    + apply fits_image_runs in H as [[-> [= <-]]| ->]; eauto.
    + apply fits_image_runs in H1 as [[_ [=]]| ->].
      inversion H2 as [| | | | | |? ? ? ? r t' ? Hr H']; subst.
      right. right.
      destruct (QPhot_run _ _ _ _ _ _) as [self [n|e]] eqn:E.
      * apply Ret_runs in H' as [-> ->]. now exists hd, self, (Ok n).
      * apply Throw_runs in H' as [-> ->]. now exists hd, self, (Raise e).
  - intros [[-> ->]|[(e & -> & ->)|(hd & self & r & E & -> & ->)]].
    + left. eexists _, _. split; [|easy]. apply fits_image_runs. eauto.
    + left. eexists _, _. split; [|easy]. apply fits_image_runs. eauto.
    + right. exists [Existed path true; Opened path (Returns hd)], hd,
        [Photometered path params pixels (self, r)].
      split; [apply fits_image_runs; eauto|]. split; [|easy].
      constructor; [easy|]. destruct r; constructor.
Qed.

Lemma unlink_mask_runs path t out :
  runs (unlink_mask path) t out <->
  exists r, t = [Did (Unlink path) r] /\
    out = match r with
          | Returns _ => Returns tt
          | Raises e => if passed_over e then Returns tt else Raises e
          end.
Proof.
  unfold unlink_mask. rewrite handle_runs. split.
  - intros (t1 & r & t2 & H1 & H2 & ->). apply call_runs in H1 as ->.
    exists r. destruct r as [[]|e].
    + now apply Ret_runs in H2 as [-> ->].
    + destruct (passed_over e).
      * now apply Ret_runs in H2 as [-> ->].
      * now apply Throw_runs in H2 as [-> ->].
  - intros (r & -> & ->). exists [Did (Unlink path) r], r, [].
    split; [now apply call_runs|]. split; [|easy].
    destruct r as [[]|e]; [constructor|].
    destruct (passed_over e); constructor.
Qed.

End Runs.

(** Taking a run apart, call by call. *)
Ltac host_step :=
  match goal with
  | H : true = false |- _ => discriminate H
  | H : false = true |- _ => discriminate H
  | H : (?a, ?b) = (?c, ?d) |- _ =>
      assert (a = c) by congruence; assert (b = d) by congruence;
      clear H; subst
  | H : Host.runs _ _ _ (bind _ _) _ _ |- _ =>
      let H' := fresh "H" in
      apply bind_runs in H
        as [(? & ? & H & ? & ?)|(? & ? & ? & H & H' & ?)];
      [|cbv beta in H']; subst
  | H : Host.runs _ _ _ (handle (mkstemp _ _) _) _ _ |- _ =>
      let H' := fresh "H" in
      apply handle_runs in H as (? & [[? ?]|?] & ? & H & H' & ?);
      cbv beta iota in H'; subst
  | H : Host.runs _ _ _ (finally _ _) _ _ |- _ =>
      let H1 := fresh "H" in
      let H2 := fresh "H" in
      apply finally_runs in H as (? & ? & ? & ? & H1 & H2 & ? & ?); subst
  | H : Host.runs _ _ _ (call _) _ _ |- _ => apply call_runs in H; subst
  | H : Host.runs _ _ _ (mkstemp _ _) _ _ |- _ =>
      apply mkstemp_runs in H; subst
  | H : Host.runs _ _ _ (path_exists _) _ _ |- _ =>
      let b := fresh "found" in
      apply path_exists_runs in H as (b & ? & ?); subst
  | H : Host.runs _ _ _ (fits_image _) _ _ |- _ =>
      apply fits_image_runs in H as [[? ?]|?]; subst
  | H : Host.runs _ _ _ (photometer _ _ _) _ _ |- _ =>
      apply photometer_runs in H
        as [[? ?]|[(? & ? & ?)|(? & ? & [?|?] & ? & ? & ?)]]; subst
  | H : Host.runs _ _ _ (unlink_mask _) _ _ |- _ =>
      apply unlink_mask_runs in H as ([[]|?] & ? & ?); subst
  | H : Host.runs _ _ _ (lift _) _ _ |- _ =>
      apply lift_runs in H as [? ?]; subst
  | H : Host.runs _ _ _ (Ret _) _ _ |- _ =>
      apply Ret_runs in H as [? ?]; subst
  | H : Host.runs _ _ _ (Throw _) _ _ |- _ =>
      apply Throw_runs in H as [? ?]; subst
  | H : Host.runs _ _ _ (if true then _ else _) _ _ |- _ => cbv iota in H
  | H : Host.runs _ _ _ (if false then _ else _) _ _ |- _ => cbv iota in H
  | H : Host.runs _ _ _ (if ?b then _ else _) _ _ |- _ => destruct b eqn:?
  | H : Returns _ = Raises _ |- _ => discriminate H
  | H : Raises _ = Returns _ |- _ => discriminate H
  | H : Returns ?a = Returns ?b |- _ =>
      assert (a = b) by congruence; clear H; subst
  | H : Raises ?a = Raises ?b |- _ =>
      assert (a = b) by congruence; clear H; subst
  | u : unit |- _ => destruct u
  end.

End HostFacts.

(** ** The image of the saturation mask *)

Lemma run_Some debug h xml_offset params maximum uncimgk pixels coordinates
    p :
  run debug h xml_offset params maximum uncimgk pixels coordinates = Some p ->
  exists h' list_of_shifted_pixels shifted_pixels,
    shift_pixels h (py_or pixels coordinates) xml_offset =
      Some (h', list_of_shifted_pixels) /\
    deref h' list_of_shifted_pixels = Some shifted_pixels /\
    p = run_calls debug xml_offset params maximum uncimgk shifted_pixels.
Proof.
  unfold run. intros H.
  destruct (shift_pixels h _ xml_offset) as [[h' l]|]; [|discriminate].
  simpl in H. destruct (deref h' l) as [shifted_pixels|] eqn:Hd;
    [|discriminate].
  injection H as <-. eauto 6.
Qed.


Lemma py_assert_Raise debug cond e :
  py_assert debug cond = Raise e -> e = AssertionError.
Proof.
  unfold py_assert. destruct (debug && negb cond); [|discriminate].
  now intros [= <-].
Qed.

Lemma classify_Raise debug img_qphot : forall mask_qphot e,
  classify debug img_qphot mask_qphot = Raise e -> e = AssertionError.
Proof.
  induction img_qphot as [|star_phot img' IH]; intros [|star_mask mask'] e;
    simpl; try discriminate.
  destruct (py_assert debug (_ =? _)%float) as [[]|e1] eqn:H1; simpl;
    [|intros [= <-]; eapply py_assert_Raise; eassumption].
  destruct (py_assert debug (QPhotResult.y _ =? _)%float) as [[]|e2] eqn:H2;
    simpl; [|intros [= <-]; eapply py_assert_Raise; eassumption].
  destruct (classify debug img' mask') as [rest|e3] eqn:H3; simpl;
    [discriminate|].
  intros [= <-]. eapply IH; eassumption.
Qed.

Lemma of_result_Raises {A} (r : result A) e :
  Raises e = of_result r -> exists e', r = Raise e' /\ e = Builtin e'.
Proof. destruct r; simpl; [discriminate|]. intros [= ->]. eauto. Qed.

Lemma of_result_Returns {A} (r : result A) a :
  Returns a = of_result r -> r = Ok a.
Proof. destruct r; simpl; [|discriminate]. now intros [= ->]. Qed.


(** What is left of a run once it has been taken apart. *)
Ltac run_outcomes :=
  repeat match goal with
    | H : Raises _ = of_result _ |- _ =>
        apply of_result_Raises in H as (? & H & ->);
        first [apply py_assert_Raise in H | apply classify_Raise in H];
        subst
    | H : of_result _ = Returns _ |- _ => symmetry in H
    | H : of_result _ = Raises _ |- _ => symmetry in H
    | H : Returns _ = of_result _ |- _ => apply of_result_Returns in H
    end;
  simpl;
  repeat match goal with
    | |- context [passed_over ?e] => destruct (passed_over e) eqn:?
    end.



(** The runs of the scenario. *)
Ltac host_run_it :=
  repeat first
    [ apply Host.runs_Ret | apply Host.runs_Throw | apply Host.runs_Do
    | apply Host.runs_Exists | apply Host.runs_Open
    | apply Host.runs_Mkstemp
    | apply Host.runs_QPhotRun;
      [reflexivity|];
      match goal with
      | |- context [ScenarioRun.photometry ?path] =>
          let v := eval vm_compute in (ScenarioRun.photometry path) in
          change (ScenarioRun.photometry path) with v
      end ];
  simpl.

Lemma runs_masking :
  Host.runs true ScenarioQPhot.no_sextractor ScenarioRun.qphot_txdump
    (run_calls true ScenarioRun.xml_offset ScenarioQPhot.params 50000 None
       ScenarioQPhot.pixels)
    (ScenarioRun.photometering ++ ScenarioRun.masking)
    (Returns ScenarioRun.marked).
Proof.
  unfold run_calls, saturation, photometer, fits_image. simpl.
  repeat (host_run_it; try reflexivity).
Qed.



Lemma run_scenario uncimgk :
  run true ScenarioRun.h ScenarioRun.xml_offset ScenarioQPhot.params 50000
    uncimgk ScenarioRun.reference_pixels [] =
    Some (run_calls true ScenarioRun.xml_offset ScenarioQPhot.params 50000
            uncimgk ScenarioQPhot.pixels).
Proof. reflexivity. Qed.



(** ** The registration step of [run] *)

Section Registration.

Variable xml_offset : XMLOffset.t.

Lemma deref_Forall2 (h : store) l ps :
  deref h l = Some ps <-> Forall2 (fun r p => h !! r = Some p) l ps.
Proof. apply mapM_Some. Qed.

(** The loop on freshly allocated objects, each listed once. *)
Lemma apply_offset_fresh ps : forall pre : store,
  apply_offset (pre ++ ps) (seq (length pre) (length ps)) xml_offset =
    Some (pre ++ map (translate xml_offset) ps).
Proof.
  induction ps as [|p ps IH]; intros pre; simpl.
  - reflexivity.
  - rewrite lookup_app_r by lia. rewrite Nat.sub_diag. simpl.
    rewrite insert_app_r_alt by lia. rewrite Nat.sub_diag. simpl.
    fold (translate xml_offset p).
    specialize (IH (pre ++ [translate xml_offset p])).
    rewrite length_app, Nat.add_1_r, <- !app_assoc in IH. exact IH.
Qed.

(** The deep copy of a list of distinct objects: one new object each. *)
Lemma deepcopy_items_distinct l : forall (h : store) memo ps,
  NoDup l -> (forall r, r ∈ l -> memo !! r = None) ->
  Forall2 (fun r p => h !! r = Some p) l ps ->
  deepcopy_items h memo l = Some (h ++ ps, seq (length h) (length l)).
Proof.
  induction l as [|r rest IH]; intros h memo ps Hnd Hmemo HF.
  - inversion HF; subst. simpl. now rewrite app_nil_r.
  - inversion HF as [|? p ? ps' Hr HF']; subst.
    apply NoDup_cons in Hnd as [Hnotin Hnd]. simpl.
    rewrite (Hmemo r) by (left). rewrite Hr. simpl.
    rewrite (IH (h ++ [p]) (<[r := length h]> memo) ps').
    + simpl. rewrite length_app, Nat.add_1_r, <- app_assoc. reflexivity.
    + exact Hnd.
    + intros r' Hr'. rewrite lookup_insert_ne by (intros ->; contradiction).
      apply Hmemo. now right.
    + eapply Forall2_impl; [exact HF'|]. intros r' p' Hl.
      now apply lookup_app_l_Some.
Qed.

(** The deep copy only allocates: the store grows at its end, and every
    reference of the copy is one allocated since the copy began. *)
Lemma deepcopy_items_frame n0 l : forall (h : store) memo h' out,
  (n0 <= length h)%nat ->
  (forall r r', memo !! r = Some r' -> (n0 <= r' < length h)%nat) ->
  deepcopy_items h memo l = Some (h', out) ->
  (exists ext, h' = h ++ ext) /\
  Forall (fun r' => (n0 <= r' < length h')%nat) out.
Proof.
  induction l as [|r rest IH]; intros h memo h' out Hn Hmemo; simpl.
  - intros [= <- <-]. split; [exists []; now rewrite app_nil_r | constructor].
  - destruct (memo !! r) as [r'|] eqn:Hr.
    + destruct (deepcopy_items h memo rest) as [[h1 out1]|] eqn:Hd;
        [|discriminate].
      simpl. intros [= <- <-].
      destruct (IH _ _ _ _ Hn Hmemo Hd) as [[ext ->] Hout].
      split; [eauto|]. constructor; [|exact Hout].
      specialize (Hmemo _ _ Hr). rewrite length_app. lia.
    + destruct (h !! r) as [p|]; [|discriminate]. simpl.
      destruct (deepcopy_items (h ++ [p]) (<[r:=length h]> memo) rest)
        as [[h1 out1]|] eqn:Hd; [|discriminate].
      simpl. intros [= <- <-].
      assert (Hn' : (n0 <= length (h ++ [p]))%nat)
        by (rewrite length_app; lia).
      assert (Hmemo' : forall a b, <[r:=length h]> memo !! a = Some b ->
                (n0 <= b < length (h ++ [p]))%nat).
      { intros a b. rewrite length_app. simpl.
        destruct (decide (r = a)) as [->|Hne].
        - rewrite lookup_insert_eq. intros [= <-]. lia.
        - rewrite lookup_insert_ne by exact Hne. intros Hab.
          specialize (Hmemo _ _ Hab). lia. }
      destruct (IH _ _ _ _ Hn' Hmemo' Hd) as [[ext ->] Hout].
      split; [exists ([p] ++ ext); now rewrite <- app_assoc|].
      constructor; [|exact Hout].
      rewrite !length_app. simpl. lia.
Qed.

(** The loop assigns only to the objects of its list. *)
Lemma apply_offset_frame l : forall (h h2 : store) n0,
  Forall (fun r => (n0 <= r)%nat) l ->
  apply_offset h l xml_offset = Some h2 ->
  forall r, (r < n0)%nat -> h2 !! r = h !! r.
Proof.
  induction l as [|r0 rest IH]; intros h h2 n0 Hl; simpl.
  - now intros [= <-].
  - destruct (h !! r0) as [p|]; [|discriminate]. simpl. intros Ha r Hr.
    apply Forall_cons in Hl as [Hr0 Hl].
    rewrite (IH _ _ _ Hl Ha r Hr). apply list_lookup_insert_ne. lia.
Qed.

(** Whatever the list, aliased or not, registration leaves every object
    that existed before it as it was. *)
Lemma shift_pixels_frame (h : store) reference_pixels h' l' :
  shift_pixels h reference_pixels xml_offset = Some (h', l') ->
  forall r, (r < length h)%nat -> h' !! r = h !! r.
Proof.
  unfold shift_pixels, deepcopy.
  destruct (deepcopy_items h ∅ reference_pixels) as [[h1 l1]|] eqn:Hd;
    [|discriminate].
  simpl. destruct (apply_offset h1 l1 xml_offset) as [h2|] eqn:Ha;
    [|discriminate].
  simpl. intros [= <- <-] r Hr.
  assert (Hmemo : forall a b : nat, (∅ : gmap nat nat) !! a = Some b ->
            (length h <= b < length h)%nat)
    by (intros a b; rewrite lookup_empty; discriminate).
  destruct (deepcopy_items_frame (length h) _ _ _ _ _ (le_n _) Hmemo Hd)
    as [[ext ->] Hout].
  rewrite (apply_offset_frame _ _ _ (length h) (Forall_impl _ _ _ Hout
             (fun _ H => proj1 H)) Ha r Hr).
  now apply lookup_app_l.
Qed.

End Registration.

(** C7 for a reference list of pairwise distinct objects, and its frame
    part for every list: registration yields a new list, of new objects,
    whose i-th element is [(x_i + dx, y_i + dy)], while the reference list
    still denotes the coordinates it denoted, as does every reference that
    existed before. *)
Theorem shift_pixels_distinct (xml_offset : XMLOffset.t) (h : store)
    (reference_pixels : list ref) (ps : list Pixel.t) :
  NoDup reference_pixels ->
  deref h reference_pixels = Some ps ->
  exists h' list_of_shifted_pixels,
    shift_pixels h reference_pixels xml_offset =
      Some (h', list_of_shifted_pixels) /\
    deref h' list_of_shifted_pixels = Some (map (translate xml_offset) ps) /\
    deref h' reference_pixels = Some ps /\
    forall r, (r < length h)%nat -> h' !! r = h !! r.
Proof.
  intros Hnd Hps. apply deref_Forall2 in Hps.
  pose proof (Forall2_length _ _ _ Hps) as Hlen.
  assert (Hrun : shift_pixels h reference_pixels xml_offset =
            Some (h ++ map (translate xml_offset) ps,
                  seq (length h) (length reference_pixels))).
  { unfold shift_pixels, deepcopy.
    rewrite (deepcopy_items_distinct _ h ∅ ps Hnd
               (fun r _ => lookup_empty r) Hps). simpl.
    rewrite Hlen, apply_offset_fresh. reflexivity. }
  pose proof (shift_pixels_frame _ _ _ _ _ Hrun) as Hframe.
  eexists _, _. split; [exact Hrun|]. split; [|split; [|exact Hframe]].
  - apply deref_Forall2, Forall2_same_length_lookup_2.
    + now rewrite length_seq, length_map.
    + intros i r p Hr Hp. apply lookup_seq in Hr as [-> Hi].
      rewrite lookup_app_r by lia. now replace (length h + i - length h)%nat
        with i by lia.
  - apply deref_Forall2. eapply Forall2_impl; [exact Hps|].
    intros r p Hr. simpl in Hr. rewrite Hframe; [exact Hr|].
    eapply lookup_lt_Some; eassumption.
Qed.

(** The specification's scenario: [(10, 10), (50, 50)] shifted by
    (2, -1) gives [(12, 9), (52, 49)]. *)
Lemma shift_pixels_distinct_witness :
  exists h' list_of_shifted_pixels,
    shift_pixels ScenarioRun.h ScenarioRun.reference_pixels
      ScenarioRun.xml_offset = Some (h', list_of_shifted_pixels) /\
    deref h' list_of_shifted_pixels = Some [Pixel.mk 12 9; Pixel.mk 52 49] /\
    deref h' ScenarioRun.reference_pixels =
      Some [Pixel.mk 10 10; Pixel.mk 50 50].
Proof.
  assert (Hnd : NoDup ScenarioRun.reference_pixels).
  { unfold ScenarioRun.reference_pixels.
    repeat (constructor; [rewrite ?elem_of_cons, ?elem_of_nil; lia|]).
    constructor. }
  destruct (shift_pixels_distinct ScenarioRun.xml_offset ScenarioRun.h
              ScenarioRun.reference_pixels _ Hnd eq_refl)
    as (h' & l' & Hrun & Hnew & Hold & _).
  exists h', l'. repeat split; assumption.
Defined.

(** C7, at the input where the code departs from it: a reference list in
    which one Pixel object occurs twice.  The deep copy keeps the sharing,
    so the loop assigns the one copy twice: both elements of the new list
    are [(x + 2 dx, y + 2 dy)], here (14, 8) and not (12, 9).  The
    reference list is unchanged. *)
Theorem shift_pixels_aliased :
  exists h' list_of_shifted_pixels,
    deref ScenarioRun.h ScenarioRun.aliased_pixels =
      Some [Pixel.mk 10 10; Pixel.mk 10 10] /\
    shift_pixels ScenarioRun.h ScenarioRun.aliased_pixels
      ScenarioRun.xml_offset = Some (h', list_of_shifted_pixels) /\
    deref h' list_of_shifted_pixels = Some [Pixel.mk 14 8; Pixel.mk 14 8] /\
    translate ScenarioRun.xml_offset (Pixel.mk 10 10) = Pixel.mk 12 9 /\
    deref h' ScenarioRun.aliased_pixels =
      Some [Pixel.mk 10 10; Pixel.mk 10 10].
Proof. eexists _, _. repeat split; vm_compute; reflexivity. Qed.

(** ** FITSImage.stable_overscan *)

Section StableOverscanFacts.

Variable imstat : string -> Z -> Z -> Z -> Z -> float.
Variable percentage_change : float -> float -> float.

Local Abbreviation shrink := (shrink imstat percentage_change).
Local Abbreviation stable_overscan :=
  (stable_overscan imstat percentage_change).
Local Abbreviation converged := (converged imstat percentage_change).

(** More fuel does not change what the loop produced. *)
Lemma shrink_fuel_mono fuel : forall fuel' x1 x2 y1 y2 t offset mean stddev o,
  (fuel <= fuel')%nat ->
  shrink fuel x1 x2 y1 y2 t offset mean stddev = Some o ->
  shrink fuel' x1 x2 y1 y2 t offset mean stddev = Some o.
Proof.
  induction fuel as [|fuel IH]; intros fuel' x1 x2 y1 y2 t offset mean stddev o
    Hle; [discriminate|].
  destruct fuel' as [|fuel']; [lia|]. simpl.
  destruct (exhausted _ _ _ _); [auto|].
  destruct (converged _ _ _ _ _ _ _); [auto|].
  apply IH. lia.
Qed.

Lemma shrink_deterministic fuel fuel' x1 x2 y1 y2 t offset mean stddev o o' :
  shrink fuel x1 x2 y1 y2 t offset mean stddev = Some o ->
  shrink fuel' x1 x2 y1 y2 t offset mean stddev = Some o' ->
  o = o'.
Proof.
  intros H H'.
  apply (shrink_fuel_mono _ (Nat.max fuel fuel')) in H; [|lia].
  apply (shrink_fuel_mono _ (Nat.max fuel fuel')) in H'; [|lia].
  congruence.
Qed.

(** The call that the loop ends with on exhaustion has the coordinates of
    the section just found exhausted, some shrinks away from the section
    the loop began with, and twice the threshold. *)
Lemma shrink_Recurse fuel : forall x1 x2 y1 y2 t offset mean stddev a b c d t',
  shrink fuel x1 x2 y1 y2 t offset mean stddev = Some (Recurse a b c d t') ->
  exhausted a b c d = true /\ t' = (t * 2)%float /\
  exists n, 1 <= n <= Z.of_nat fuel /\
    a = x1 + n * offset /\ b = x2 - n * offset /\
    c = y1 + n * offset /\ d = y2 - n * offset.
Proof.
  induction fuel as [|fuel IH]; intros x1 x2 y1 y2 t offset mean stddev
    a b c d t'; [discriminate|].
  simpl. destruct (exhausted _ _ _ _) eqn:He.
  - intros [= <- <- <- <- <-]. split; [exact He|]. split; [reflexivity|].
    exists 1. lia.
  - destruct (converged _ _ _ _ _ _ _); [discriminate|]. intros H.
    destruct (IH _ _ _ _ _ _ _ _ _ _ _ _ _ H)
      as (Hex & Ht & n & Hn & -> & -> & -> & ->).
    split; [exact Hex|]. split; [exact Ht|]. exists (n + 1). lia.
Qed.

(** The tuple that the loop returns is a section that is not exhausted
    and on which the test of convergence passed, at the threshold of the
    call. *)
Lemma shrink_Return fuel : forall x1 x2 y1 y2 t offset mean stddev a b c d,
  shrink fuel x1 x2 y1 y2 t offset mean stddev = Some (Return (a, b, c, d)) ->
  exhausted a b c d = false /\
  exists mean' stddev', converged mean' stddev' a b c d t = true.
Proof.
  induction fuel as [|fuel IH]; intros x1 x2 y1 y2 t offset mean stddev
    a b c d; [discriminate|].
  simpl. destruct (exhausted _ _ _ _) eqn:He; [discriminate|].
  destruct (converged _ _ _ _ _ _ _) eqn:Hc.
  - intros [= <- <- <- <-]. eauto.
  - apply IH.
Qed.

(** A shrink by a non-negative offset keeps an inverted section
    inverted. *)
Lemma exhausted_shrunk x1 x2 y1 y2 offset :
  0 <= offset -> exhausted x1 x2 y1 y2 = true ->
  exhausted (x1 + offset) (x2 - offset) (y1 + offset) (y2 - offset) = true.
Proof.
  unfold exhausted. intros Ho H.
  apply orb_true_iff in H. apply orb_true_iff. lia.
Qed.

(** On an inverted section and a non-negative offset the method never
    returns: every call ends in another call on a section still
    inverted. *)
Lemma stable_overscan_inverted depth : forall fuel x1 x2 y1 y2 t offset,
  0 <= offset -> exhausted x1 x2 y1 y2 = true ->
  stable_overscan depth fuel x1 x2 y1 y2 t offset = None.
Proof.
  induction depth as [|depth IH]; intros fuel x1 x2 y1 y2 t offset Ho He;
    [reflexivity|].
  simpl. destruct fuel as [|fuel]; [reflexivity|]. simpl.
  rewrite (exhausted_shrunk _ _ _ _ _ Ho He).
  apply IH; [exact Ho|]. now apply exhausted_shrunk.
Qed.

(** Once a call has met exhaustion, with a non-negative offset, it never
    returns. *)
Lemma stable_overscan_after_exhaustion fuel0 x1 x2 y1 y2 t offset a b c d t' :
  0 <= offset ->
  shrink fuel0 x1 x2 y1 y2 t offset
    (imstat "mean" x1 x2 y1 y2) (imstat "stddev" x1 x2 y1 y2) =
    Some (Recurse a b c d t') ->
  forall depth fuel, stable_overscan depth fuel x1 x2 y1 y2 t offset = None.
Proof.
  intros Ho H0 [|depth] fuel; [reflexivity|]. simpl.
  destruct (shrink fuel x1 x2 y1 y2 t offset _ _) as [o|] eqn:Hs;
    [|reflexivity].
  rewrite <- (shrink_deterministic _ _ _ _ _ _ _ _ _ _ _ _ H0 Hs).
  apply stable_overscan_inverted; [exact Ho|].
  now destruct (shrink_Recurse _ _ _ _ _ _ _ _ _ _ _ _ _ _ H0).
Qed.


(** C9, for the offsets for which it holds: with a non-negative offset,
    when the loop meets exhaustion the call it makes has the coordinates
    of the exhausted, inverted section; that call meets exhaustion in the
    first iteration of its loop, whatever the statistics and the
    threshold; and the method returns for no bound on its recursion and
    on its iterations. *)
Theorem stable_overscan_exhaustion_diverges
    (fuel0 : nat) (x1 x2 y1 y2 : Z) (threshold : float) (offset : Z)
    (a b c d : Z) (threshold' : float) :
  0 <= offset ->
  shrink fuel0 x1 x2 y1 y2 threshold offset
    (imstat "mean" x1 x2 y1 y2) (imstat "stddev" x1 x2 y1 y2) =
    Some (Recurse a b c d threshold') ->
  exhausted a b c d = true /\
  (forall fuel mean stddev,
     shrink (S fuel) a b c d threshold' offset mean stddev =
       Some (Recurse (a + offset) (b - offset) (c + offset) (d - offset)
               (threshold' * 2))) /\
  (forall depth fuel,
     stable_overscan depth fuel a b c d threshold' offset = None) /\
  (forall depth fuel,
     stable_overscan depth fuel x1 x2 y1 y2 threshold offset = None).
Proof.
  intros Ho H0.
  destruct (shrink_Recurse _ _ _ _ _ _ _ _ _ _ _ _ _ _ H0) as (He & _ & _).
  split; [exact He|]. split; [|split].
  - intros fuel mean stddev. simpl.
    now rewrite (exhausted_shrunk _ _ _ _ _ Ho He).
  - intros depth fuel. now apply stable_overscan_inverted.
  - eapply stable_overscan_after_exhaustion; eassumption.
Qed.

(** C5, as the code has it: a call that returns, returns the four
    coordinates of a section and nothing else.  That section is the one
    on which the test of convergence passed in the last of the nested
    calls, the one made after [k] relaxations; the threshold of that call
    is the caller's threshold doubled [k] times, and [k] is at least 1
    exactly when the first call met exhaustion. *)
Theorem stable_overscan_returns
    (depth fuel : nat) (x1 x2 y1 y2 : Z) (threshold : float) (offset : Z)
    (r : region) :
  stable_overscan depth fuel x1 x2 y1 y2 threshold offset = Some r ->
  exists (k : nat) (a b c d : Z),
    (k < depth)%nat /\
    shrink fuel a b c d (relaxed k threshold) offset
      (imstat "mean" a b c d) (imstat "stddev" a b c d) = Some (Return r) /\
    (exists mean stddev,
       converged mean stddev r.1.1.1 r.1.1.2 r.1.2 r.2 (relaxed k threshold)
         = true) /\
    (k = 0%nat -> (a, b, c, d) = (x1, x2, y1, y2)) /\
    ((1 <= k)%nat <->
     exists a' b' c' d' t',
       shrink fuel x1 x2 y1 y2 threshold offset
         (imstat "mean" x1 x2 y1 y2) (imstat "stddev" x1 x2 y1 y2) =
         Some (Recurse a' b' c' d' t')).
Proof.
  revert x1 x2 y1 y2 threshold.
  induction depth as [|depth IH]; intros x1 x2 y1 y2 threshold;
    [discriminate|].
  simpl.
  destruct (shrink fuel x1 x2 y1 y2 threshold offset _ _) as [[r0|a b c d t']|]
    eqn:Hs; [| |discriminate].
  - intros [= ->]. exists 0%nat, x1, x2, y1, y2. simpl.
    split; [lia|]. split; [exact Hs|]. split; [|split; [reflexivity|]].
    + destruct r as [[[ra rb] rc] rd].
      now destruct (shrink_Return _ _ _ _ _ _ _ _ _ _ _ _ _ Hs).
    + split; [lia|]. intros (? & ? & ? & ? & ? & ?). discriminate.
  - intros Hrec.
    destruct (IH _ _ _ _ _ Hrec) as (k & a0 & b0 & c0 & d0 & Hk & Hk' & Hc & _).
    destruct (shrink_Recurse _ _ _ _ _ _ _ _ _ _ _ _ _ _ Hs) as (_ & -> & _).
    assert (Hrel : relaxed k (threshold * 2) = relaxed (S k) threshold)
      by (unfold relaxed; now rewrite Nat.iter_succ_r).
    rewrite Hrel in Hk', Hc.
    exists (S k), a0, b0, c0, d0.
    split; [lia|]. split; [exact Hk'|]. split; [exact Hc|].
    split; [discriminate|]. split; [eauto 6 | lia].
Qed.

End StableOverscanFacts.



(** The area 0..9 by 0..9 with drifting statistics, threshold 0.1 and
    offset 1: the loop meets exhaustion at [5:4,5:4], and the method never
    returns. *)
Lemma stable_overscan_exhaustion_diverges_witness :
  exhausted 5 4 5 4 = true /\
  forall depth fuel,
    stable_overscan ScenarioOverscan.drifting
      ScenarioOverscan.percentage_change depth fuel 0 9 0 9 0.1 1 = None.
Proof.
  destruct (stable_overscan_exhaustion_diverges ScenarioOverscan.drifting
              ScenarioOverscan.percentage_change 5 0 9 0 9 0.1 1 5 4 5 4
              (0.1 * 2)) as (He & _ & _ & Hnone);
    [lia | reflexivity |].
  split; [exact He | exact Hnone].
Defined.

(** C9 as stated fails for a negative offset, under which a shrink widens
    the section: from the inverted section [10:0,0:20] with offset -1 the
    loop meets exhaustion at [9:1,-1:21], and yet the method returns, in
    its fifth nested call, the section [5:5,-5:25]. *)
Lemma stable_overscan_negative_offset_returns :
  shrink ScenarioOverscan.flat ScenarioOverscan.percentage_change
    1 10 0 0 20 0.1 (-1)
    (ScenarioOverscan.flat "mean" 10 0 0 20)
    (ScenarioOverscan.flat "stddev" 10 0 0 20) =
    Some (Recurse 9 1 (-1) 21 (0.1 * 2)) /\
  exhausted 9 1 (-1) 21 = true /\
  stable_overscan ScenarioOverscan.flat ScenarioOverscan.percentage_change
    5 1 10 0 0 20 0.1 (-1) = Some (5, 5, -5, 25).
Proof. repeat split; vm_compute; reflexivity. Qed.

(** The call of the previous lemma returned after four relaxations, at
    the threshold 0.1 doubled four times. *)
Lemma stable_overscan_returns_witness :
  exists (k : nat) (a b c d : Z),
    (k < 5)%nat /\
    shrink ScenarioOverscan.flat ScenarioOverscan.percentage_change
      1 a b c d (relaxed k 0.1) (-1)
      (ScenarioOverscan.flat "mean" a b c d)
      (ScenarioOverscan.flat "stddev" a b c d) = Some (Return (5, 5, -5, 25)) /\
    (1 <= k)%nat.
Proof.
  destruct (stable_overscan_returns ScenarioOverscan.flat
              ScenarioOverscan.percentage_change 5 1 10 0 0 20 0.1 (-1)
              (5, 5, -5, 25) eq_refl)
    as (k & a & b & c & d & Hk & Hs & _ & _ & Hrelax).
  exists k, a, b, c, d. split; [exact Hk|]. split; [exact Hs|].
  apply Hrelax. eexists _, _, _, _, _. reflexivity.
Defined.

(** C5 as stated fails: the value returned holds no threshold.  On the
    flat area the calls with thresholds 0.1 and 0.5 return the same value,
    so no reading of the value gives the threshold of the call that
    returned it. *)
Lemma stable_overscan_value_has_no_threshold :
  ~ exists threshold_of : region -> float,
      forall threshold r,
        stable_overscan ScenarioOverscan.flat
          ScenarioOverscan.percentage_change 1 1 0 9 0 9 threshold 1 = Some r ->
        threshold_of r = threshold.
Proof.
  intros [threshold_of H].
  pose proof (H 0.1%float (1, 8, 1, 8) eq_refl) as H1.
  pose proof (H 0.5%float (1, 8, 1, 8) eq_refl) as H5.
  rewrite H1 in H5.
  assert (Hb : (0.1 =? 0.1)%float = (0.1 =? 0.5)%float) by now rewrite <- H5.
  vm_compute in Hb. discriminate.
Qed.

(** C2, at an input where the code departs from it.  On the area 0..9 by
    0..9 with drifting statistics, threshold 0.1 and offset 1, the loop
    meets exhaustion at [5:4,5:4]; the call it makes is on that shrunk,
    inverted section, not on the section of the caller, and from there no
    call ever returns; started over on the caller's section with the
    threshold 0.2, as the docstring describes, the search returns
    [1:8,1:8]. *)
Theorem stable_overscan_restarts_on_shrunk_section :
  shrink ScenarioOverscan.drifting ScenarioOverscan.percentage_change
    5 0 9 0 9 0.1 1
    (ScenarioOverscan.drifting "mean" 0 9 0 9)
    (ScenarioOverscan.drifting "stddev" 0 9 0 9) =
    Some (Recurse 5 4 5 4 (0.1 * 2)) /\
  (forall depth fuel,
     stable_overscan ScenarioOverscan.drifting
       ScenarioOverscan.percentage_change depth fuel 0 9 0 9 0.1 1 = None) /\
  stable_overscan_starting_over ScenarioOverscan.drifting
    ScenarioOverscan.percentage_change 2 5 0 9 0 9 0.1 1 = Some (1, 8, 1, 8).
Proof.
  split; [reflexivity|]. split; [|reflexivity].
  apply (stable_overscan_after_exhaustion ScenarioOverscan.drifting
           ScenarioOverscan.percentage_change 5 0 9 0 9 0.1 1 5 4 5 4
           (0.1 * 2)); [lia | reflexivity].
Qed.

(** * Further properties of the modelled code *)

(** ** [run]: the temporary file of the saturation mask *)

(** Takes a run of [run_calls] apart, for any [uncimgk]. *)
Ltac run_cases H :=
  unfold run_calls, saturation, orig_img_path in H;
  repeat first
    [ HostFacts.host_step
    | match goal with
      | H : Host.runs _ _ _ (match ?o with Some _ => _ | None => _ end) _ _
        |- _ => destruct o
      end ];
  run_outcomes.

(** X3 (qphot.py, run): the saturation mask is a temporary file of [run].
    [run] removes no path but the one that mkstemp returned to it; once
    mkstemp has returned a path, the last call of the run is the removal
    of that path, whatever happened in between, and an exception of that
    removal that the handler does not pass over is the outcome of the
    run; imexpr is called only after the empty file that mkstemp created
    has been removed (lines 490-491); and a run that returns has removed
    the path twice, before imexpr and at the end. *)
Theorem run_removes_mask debug sextractor qphot_txdump h xml_offset params
    maximum uncimgk pixels coordinates p t out :
  run debug h xml_offset params maximum uncimgk pixels coordinates = Some p ->
  Host.runs debug sextractor qphot_txdump p t out ->
  (forall path, path ∈ Host.unlinks t -> Host.temp_paths t = [path]) /\
  (forall path, path ∈ Host.temp_paths t ->
     exists r, last t = Some (Host.Did (Host.Unlink path) r) /\
       forall e, r = Raises e -> passed_over e = false -> out = Raises e) /\
  (forall i expr a output r,
     t !! i = Some (Host.Did (Host.Imexpr expr a output) r) ->
     Host.Did (Host.Unlink output) (Returns tt) ∈ take i t) /\
  (forall result, out = Returns result ->
     exists mask, Host.unlinks t = [mask; mask]).
Proof.
  intros Hrun H.
  apply run_Some in Hrun as (h' & l & shifted_pixels & _ & _ & ->).
  run_cases H.
  all: (split; [intros ? Hin; set_solver|]).
  all: (split; [intros ? Hin;
                first [ now apply elem_of_nil in Hin
                      | apply list_elem_of_singleton in Hin as ->;
                        eexists; split; [reflexivity|];
                        intros ? [=]; congruence ]|]).
  all: (split; [intros i ? ? ? ? Hi;
                repeat (destruct i as [|i]; simpl in Hi;
                        try discriminate Hi);
                injection Hi as -> -> -> ->; simpl; set_solver|]).
  all: intros ? [=]; subst; eexists; reflexivity.
Qed.

Lemma run_removes_mask_witness :
  Host.unlinks (ScenarioRun.photometering ++ ScenarioRun.masking) =
    [ScenarioRun.mask; ScenarioRun.mask] /\
  exists r,
    last (ScenarioRun.photometering ++ ScenarioRun.masking) =
      Some (Host.Did (Host.Unlink ScenarioRun.mask) r).
Proof.
  split; [reflexivity|].
  destruct (run_removes_mask true ScenarioQPhot.no_sextractor
              ScenarioRun.qphot_txdump ScenarioRun.h ScenarioRun.xml_offset
              ScenarioQPhot.params 50000 None ScenarioRun.reference_pixels []
              _ _ _ (run_scenario None) runs_masking)
    as (_ & Hlast & _).
  destruct (Hlast ScenarioRun.mask) as (r & Hr & _);
    [apply list_elem_of_singleton; reflexivity|].
  exists r. exact Hr.
Defined.

(** ** [run]: the two photometries *)

(** Registration of a list of distinct objects, with its result. *)
Lemma shift_pixels_fresh xml_offset (h : store) reference_pixels ps :
  NoDup reference_pixels -> deref h reference_pixels = Some ps ->
  shift_pixels h reference_pixels xml_offset =
    Some (h ++ map (translate xml_offset) ps,
          seq (length h) (length reference_pixels)) /\
  deref (h ++ map (translate xml_offset) ps)
    (seq (length h) (length reference_pixels)) =
    Some (map (translate xml_offset) ps).
Proof.
  intros Hnd Hps. apply deref_Forall2 in Hps.
  pose proof (Forall2_length _ _ _ Hps) as Hlen. split.
  - unfold shift_pixels, deepcopy.
    rewrite (deepcopy_items_distinct _ h ∅ ps Hnd
               (fun r _ => lookup_empty r) Hps). simpl.
    rewrite Hlen, apply_offset_fresh. reflexivity.
  - apply deref_Forall2, Forall2_same_length_lookup_2.
    + now rewrite length_seq, length_map.
    + intros i r p Hr Hp. apply lookup_seq in Hr as [-> Hi].
      rewrite lookup_app_r by lia.
      now replace (length h + i - length h)%nat with i by lia.
Qed.

(** A returning [QPhot.run] on given coordinates, with assertions: one
    star per coordinate, each echoing its coordinate. *)
Lemma QPhot_run_echo sextractor qphot_txdump path params pixels self n :
  pixels <> [] ->
  QPhot_run true sextractor qphot_txdump path params pixels = (self, Ok n) ->
  Forall2 (fun pixel star =>
             within_epsilon (QPhotResult.x star) (Pixel.x pixel) = true /\
             within_epsilon (QPhotResult.y star) (Pixel.y pixel) = true)
    pixels self.
Proof.
  intros Hne Hrun. unfold QPhot_run in Hrun.
  destruct pixels as [|p ps]; [contradiction|].
  set (pixels := p :: ps) in *. clearbody pixels. clear Hne.
  destruct (qphot_txdump path params pixels) as [lines|e0]; [|discriminate].
  destruct (Nat.eqb (length lines) (length pixels)) eqn:Hlen; simpl in Hrun;
    [|discriminate].
  apply Nat.eqb_eq in Hlen.
  destruct (parse_lines true [] (zip lines pixels)) as [self' [[]|e]] eqn:Hpl;
    [|discriminate].
  injection Hrun as <- _.
  destruct (parse_lines_Ok _ _ _ _ Hpl) as (stars & -> & HF). simpl.
  clear Hpl. revert pixels stars Hlen HF.
  induction lines as [|line lines IH]; intros [|pixel pixels] stars Hlen HF;
    simpl in *; try discriminate.
  - inversion HF. constructor.
  - inversion HF as [|? star ? stars' Hp HF']; subst. simpl in Hp.
    constructor; [eapply parse_line_echo; eassumption|].
    apply IH; [lia | exact HF'].
Qed.

(** The loop of lines 509-515 keeps the stars and their centers. *)
Lemma classify_centers debug img_qphot : forall mask_qphot out,
  classify debug img_qphot mask_qphot = Ok out ->
  Forall2 (fun star star' =>
             QPhotResult.x star' = QPhotResult.x star /\
             QPhotResult.y star' = QPhotResult.y star)
    img_qphot out.
Proof.
  induction img_qphot as [|star_phot img' IH]; intros [|star_mask mask'] out;
    simpl; try (intros [= <-]; apply Forall_Forall2_diag, Forall_forall; auto).
  intros H.
  repeat (apply rbind_Ok_inv in H; destruct H as (? & ? & H)).
  injection H as <-. constructor; [|eapply IH; eassumption].
  now destruct (0 <? QPhotResult.flux star_mask)%float.
Qed.

Lemma Forall2_compose {A B C} (P : A -> B -> Prop) (Q : B -> C -> Prop)
    (R : A -> C -> Prop) l k m :
  (forall x y z, P x y -> Q y z -> R x z) ->
  Forall2 P l k -> Forall2 Q k m -> Forall2 R l m.
Proof.
  intros HR HP. revert m.
  induction HP as [|x y l k Hxy _ IH]; intros m HQ; inversion HQ; subst;
    constructor; eauto.
Qed.

(** X4 (qphot.py, run): for reference coordinates that are distinct
    objects, at least one, every photometry of [run] is done on the
    reference coordinates translated by the offset; a run that returns
    has called imexpr once and has photometered two images on these
    coordinates, the shifted image and then the output of imexpr, and it
    returns what the loop of lines 509-515 makes of the two photometries;
    with assertions enabled it returns one star per reference coordinate,
    in order, each within 0.001 pixel of its translated coordinate. *)
Theorem run_photometers_shifted_pixels debug sextractor qphot_txdump h
    xml_offset params maximum uncimgk pixels coordinates ps :
  py_or pixels coordinates <> [] ->
  NoDup (py_or pixels coordinates) ->
  deref h (py_or pixels coordinates) = Some ps ->
  exists p,
    run debug h xml_offset params maximum uncimgk pixels coordinates =
      Some p /\
    forall t out, Host.runs debug sextractor qphot_txdump p t out ->
      let shifted_path := XMLOffset.shifted xml_offset in
      let shifted_pixels := map (translate xml_offset) ps in
      (forall path pixels', (path, pixels') ∈ Host.photometries t ->
         pixels' = shifted_pixels) /\
      (forall result, out = Returns result ->
         exists orig mask,
           Host.imexpr_calls t = [(imexpr_expr maximum, orig, mask)] /\
           Host.photometries t =
             [(shifted_path, shifted_pixels); (mask, shifted_pixels)] /\
           classify debug
             (QPhot_run debug sextractor qphot_txdump shifted_path params
                shifted_pixels).1
             (QPhot_run debug sextractor qphot_txdump mask params
                shifted_pixels).1 = Ok result /\
           (debug = true ->
            Forall2 (fun pixel star =>
                       within_epsilon (QPhotResult.x star) (Pixel.x pixel) =
                         true /\
                       within_epsilon (QPhotResult.y star) (Pixel.y pixel) =
                         true)
              shifted_pixels result)).
Proof.
  intros Hne Hnd Hps.
  destruct (shift_pixels_fresh xml_offset h _ ps Hnd Hps) as [Hshift Hderef].
  eexists. split.
  { unfold run. rewrite Hshift. simpl. rewrite Hderef. reflexivity. }
  assert (map (translate xml_offset) ps <> []) as Hne'.
  { apply deref_Forall2, Forall2_length in Hps.
    destruct ps; [|discriminate].
    destruct (py_or pixels coordinates); [contradiction|discriminate]. }
  clear Hshift Hderef Hps Hnd Hne.
  generalize dependent (map (translate xml_offset) ps).
  intros shifted_pixels Hne t out H. cbv zeta.
  run_cases H.
  all: (split; [intros ? ? Hin; set_solver|]).
  all: intros ? [=]; subst; run_outcomes.
  all: eexists _, _; (split; [reflexivity|]); (split; [reflexivity|]).
  all: repeat match goal with
         | H : QPhot_run _ _ _ _ _ _ = _ |- _ => rewrite H
         end.
  all: simpl; (split; [assumption|]); intros ->.
  all: match goal with
       | H1 : QPhot_run _ _ _ (XMLOffset.shifted _) _ _ = _,
         H2 : classify _ _ _ = Ok _ |- _ =>
           apply QPhot_run_echo in H1; [|assumption];
           apply classify_centers in H2;
           eapply Forall2_compose; [|exact H1|exact H2]
       end.
  all: simpl; intros pixel star star' [Hx Hy] [-> ->]; auto.
Qed.

Lemma run_photometers_shifted_pixels_witness :
  Host.photometries (ScenarioRun.photometering ++ ScenarioRun.masking) =
    [("shifted.fits"%string, [Pixel.mk 12 9; Pixel.mk 52 49]);
     (ScenarioRun.mask, [Pixel.mk 12 9; Pixel.mk 52 49])] /\
  Forall2 (fun pixel star =>
             within_epsilon (QPhotResult.x star) (Pixel.x pixel) = true /\
             within_epsilon (QPhotResult.y star) (Pixel.y pixel) = true)
    [Pixel.mk 12 9; Pixel.mk 52 49] ScenarioRun.marked.
Proof.
  assert (Hnd : NoDup (py_or ScenarioRun.reference_pixels [])).
  { simpl. unfold ScenarioRun.reference_pixels.
    repeat (constructor; [rewrite ?elem_of_cons, ?elem_of_nil; lia|]).
    constructor. }
  destruct (run_photometers_shifted_pixels true ScenarioQPhot.no_sextractor
              ScenarioRun.qphot_txdump ScenarioRun.h ScenarioRun.xml_offset
              ScenarioQPhot.params 50000 None ScenarioRun.reference_pixels []
              [Pixel.mk 10 10; Pixel.mk 50 50]
              ltac:(discriminate) Hnd eq_refl)
    as (p & Hrun & Hall).
  rewrite run_scenario in Hrun. injection Hrun as <-.
  destruct (Hall _ _ runs_masking) as (_ & Hret).
  destruct (Hret _ eq_refl) as (orig & mask & _ & _ & _ & Hecho).
  split; [reflexivity|]. exact (Hecho eq_refl).
Defined.

(** ** The saturation loop, star by star *)

(** What the loop of lines 509-515 does to the photometry, and what it
    never does: it returns as many stars as it was given, in the same
    order; a star that has a partner in the photometry of the mask is
    returned as it was but for the attribute [mag], set to infinity when
    the flux of the partner is positive and not set otherwise; a star
    without a partner is returned as it was. *)
Theorem classify_star_by_star (debug : bool)
    (img_qphot mask_qphot out : list QPhotResult.t) :
  classify debug img_qphot mask_qphot = Ok out ->
  length out = length img_qphot /\
  forall i star_phot, img_qphot !! i = Some star_phot ->
    out !! i =
      Some match mask_qphot !! i with
           | Some star_mask =>
               if (0 <? QPhotResult.flux star_mask)%float
               then QPhotResult.set_mag PyFloat.infinity star_phot
               else star_phot
           | None => star_phot
           end.
Proof.
  revert mask_qphot out.
  induction img_qphot as [|star img' IH]; intros mask_qphot out.
  - destruct mask_qphot; simpl; intros [= <-];
      (split; [reflexivity|]); intros i s Hi; rewrite lookup_nil in Hi;
      discriminate.
  - destruct mask_qphot as [|star_mask mask']; simpl.
    + intros [= <-]. split; [reflexivity|]. intros i s Hi.
      now destruct i.
    + intros H.
      repeat (apply rbind_Ok_inv in H; destruct H as (? & ? & H)).
      injection H as <-.
      match goal with
      | Hrec : classify _ _ _ = Ok _ |- _ =>
          destruct (IH _ _ Hrec) as [Hlen Hall]
      end.
      split; [simpl; now rewrite Hlen|].
      intros [|i] s Hi; simpl in *.
      * now injection Hi as <-.
      * now apply Hall.
Qed.

Lemma classify_star_by_star_witness :
  exists out,
    classify true ScenarioMask.img_qphot ScenarioMask.mask_qphot = Ok out /\
    out !! 1%nat =
      Some (QPhotResult.set_mag PyFloat.infinity
              (QPhotResult.init 52 49 (Some 11.25%float) 900 850 None)).
Proof.
  eexists. split; [vm_compute; reflexivity|].
  exact (proj2 (classify_star_by_star true ScenarioMask.img_qphot
                  ScenarioMask.mask_qphot _ eq_refl) 1%nat _ eq_refl).
Defined.

(** ** The records of txdump, field by field *)

Lemma float_or_INDEF_inv debug line k v :
  float_or_INDEF debug line k = Ok v ->
  match v with
  | Some f => line !! k = Some (Numeric f)
  | None => exists s, line !! k = Some (Text s) /\
                      (debug = true -> s = "INDEF"%string)
  end.
Proof.
  unfold float_or_INDEF, getitem. destruct (line !! k) as [[f|s]|]; simpl;
    [now intros [= <-] | | discriminate].
  unfold py_assert. destruct debug; simpl.
  - destruct (String.eqb s "INDEF") eqn:He; simpl; [|discriminate].
    intros [= <-]. exists s. split; [reflexivity|]. intros _.
    now apply String.eqb_eq.
  - intros [= <-]. exists s. split; [reflexivity | discriminate].
Qed.

Lemma getitem_float_inv line k f v :
  getitem line k = Ok f -> py_float f = Ok v -> line !! k = Some (Numeric v).
Proof.
  unfold getitem. destruct (line !! k) as [[w|s]|]; simpl;
    [|intros [= <-]|]; try discriminate.
  intros [= <-]. simpl. now intros [= <-].
Qed.

(** A star that [QPhot.run] built determines the six fields of its record:
    the two centers, the sum and the flux are the numbers of fields 0, 1,
    3 and 4; the magnitude and the deviation are the numbers of fields 2
    and 5, or None where the field is not a number, never zero; with
    assertions enabled such a field is the text INDEF, without them it is
    any text.  The attribute [mag] is not set. *)
Theorem parse_line_fields (debug : bool) (line : list field)
    (pixel : Pixel.t) (star : QPhotResult.t) :
  parse_line debug line pixel = Ok star ->
  line !! 0%nat = Some (Numeric (QPhotResult.x star)) /\
  line !! 1%nat = Some (Numeric (QPhotResult.y star)) /\
  match QPhotResult.magnitude star with
  | Some f => line !! 2%nat = Some (Numeric f)
  | None => exists s, line !! 2%nat = Some (Text s) /\
                      (debug = true -> s = "INDEF"%string)
  end /\
  line !! 3%nat = Some (Numeric (QPhotResult.sum_ star)) /\
  line !! 4%nat = Some (Numeric (QPhotResult.flux star)) /\
  match QPhotResult.stdev star with
  | Some f => line !! 5%nat = Some (Numeric f)
  | None => exists s, line !! 5%nat = Some (Text s) /\
                      (debug = true -> s = "INDEF"%string)
  end /\
  QPhotResult.mag star = None.
Proof.
  unfold parse_line. intros H.
  apply rbind_Ok_inv in H as (f0 & Hf0 & H).
  apply rbind_Ok_inv in H as (xcenter & Hx & H).
  apply rbind_Ok_inv in H as (f1 & Hf1 & H).
  apply rbind_Ok_inv in H as (ycenter & Hy & H).
  apply rbind_Ok_inv in H as (? & _ & H).
  apply rbind_Ok_inv in H as (? & _ & H).
  apply rbind_Ok_inv in H as (mag & Hmag & H).
  apply rbind_Ok_inv in H as (f3 & Hf3 & H).
  apply rbind_Ok_inv in H as (sum_ & Hsum & H).
  apply rbind_Ok_inv in H as (f4 & Hf4 & H).
  apply rbind_Ok_inv in H as (flux & Hflux & H).
  apply rbind_Ok_inv in H as (stdev & Hstdev & H).
  injection H as <-. simpl.
  repeat split; eauto using getitem_float_inv.
  - exact (float_or_INDEF_inv _ _ _ _ Hmag).
  - exact (float_or_INDEF_inv _ _ _ _ Hstdev).
Qed.

Lemma parse_line_fields_witness :
  exists star,
    parse_line true ScenarioQPhot.stray_line (Pixel.mk 99 99) = Ok star /\
    QPhotResult.magnitude star = None /\
    ScenarioQPhot.stray_line !! 2%nat = Some (Text "INDEF").
Proof.
  eexists. split; [vm_compute; reflexivity|]. split; [reflexivity|].
  destruct (parse_line_fields true ScenarioQPhot.stray_line (Pixel.mk 99 99)
              _ eq_refl) as (_ & _ & (s & Hs & Hindef) & _).
  rewrite Hs. now rewrite (Hindef eq_refl).
Defined.

(** ** [stable_overscan]: what it can return, and when its loop ends *)

Section StableOverscanMore.

Variable imstat : string -> Z -> Z -> Z -> Z -> float.
Variable percentage_change : float -> float -> float.


(** The tuple that the loop returns is the section the loop began with,
    some shrinks later. *)
Lemma shrink_Return_steps fuel :
  forall x1 x2 y1 y2 t offset mean stddev a b c d,
  shrink imstat percentage_change fuel x1 x2 y1 y2 t offset mean stddev =
    Some (Return (a, b, c, d)) ->
  exhausted a b c d = false /\
  exists n, 1 <= n <= Z.of_nat fuel /\
    a = x1 + n * offset /\ b = x2 - n * offset /\
    c = y1 + n * offset /\ d = y2 - n * offset.
Proof.
  induction fuel as [|fuel IH]; intros x1 x2 y1 y2 t offset mean stddev
    a b c d; [discriminate|].
  simpl. destruct (exhausted _ _ _ _) eqn:He; [discriminate|].
  destruct (converged _ _ _ _ _ _ _ _ _).
  - intros [= <- <- <- <-]. split; [exact He|]. exists 1. lia.
  - intros H.
    destruct (IH _ _ _ _ _ _ _ _ _ _ _ _ H)
      as (Hex & n & Hn & -> & -> & -> & ->).
    split; [exact Hex|]. exists (n + 1). lia.
Qed.

(** With a non-negative offset, whatever [stable_overscan] returns was
    returned by the loop of the first call, at the caller's threshold: it
    is the caller's section shrunk [n >= 1] times, it is not inverted and
    it lies within the caller's section.  Relaxation contributes to no
    result. *)
Theorem stable_overscan_result_nested
    (depth fuel : nat) (x1 x2 y1 y2 : Z) (threshold : float) (offset : Z)
    (a b c d : Z) :
  0 <= offset ->
  stable_overscan imstat percentage_change depth fuel x1 x2 y1 y2
    threshold offset =
    Some (a, b, c, d) ->
  shrink imstat percentage_change fuel x1 x2 y1 y2 threshold offset
    (imstat "mean" x1 x2 y1 y2) (imstat "stddev" x1 x2 y1 y2) =
    Some (Return (a, b, c, d)) /\
  (exists n, 1 <= n <= Z.of_nat fuel /\
     a = x1 + n * offset /\ b = x2 - n * offset /\
     c = y1 + n * offset /\ d = y2 - n * offset) /\
  x1 <= a /\ a <= b /\ b <= x2 /\ y1 <= c /\ c <= d /\ d <= y2.
Proof.
  intros Ho. destruct depth as [|depth]; [discriminate|]. simpl.
  destruct (shrink imstat percentage_change fuel x1 x2 y1 y2
              threshold offset _ _)
    as [[r|a' b' c' d' t']|] eqn:Hs; [| |discriminate].
  - intros [= ->]. split; [reflexivity|].
    destruct (shrink_Return_steps _ _ _ _ _ _ _ _ _ _ _ _ _ Hs)
      as (Hex & n & Hn & -> & -> & -> & ->).
    split; [exists n; lia|].
    unfold exhausted in Hex. apply orb_false_iff in Hex. nia.
  - destruct (shrink_Recurse _ _ _ _ _ _ _ _ _ _ _ _ _ _ _ _ Hs)
      as (Hex & _ & _).
    now rewrite (stable_overscan_inverted _ _ _ _ _ _ _ _ _ _ Ho Hex).
Qed.

(** With a positive offset the loop of a call ends, by exhaustion or by
    convergence, within [(x2 - x1) / (2 * offset) + 1] iterations. *)
Lemma shrink_ends fuel : forall x1 x2 y1 y2 t offset mean stddev,
  0 < offset -> (1 <= fuel)%nat ->
  x2 - x1 < Z.of_nat fuel * (2 * offset) ->
  exists o,
    shrink imstat percentage_change fuel x1 x2 y1 y2 t offset mean stddev =
      Some o.
Proof.
  induction fuel as [|fuel IH]; intros x1 x2 y1 y2 t offset mean stddev
    Ho Hf Hw; [lia|].
  simpl. destruct (exhausted _ _ _ _) eqn:He; [eauto|].
  destruct (converged _ _ _ _ _ _ _ _ _); [eauto|].
  unfold exhausted in He. apply orb_false_iff in He.
  apply IH; [exact Ho | nia | nia].
Qed.

(** With a positive offset the method is decided by the loop of its first
    call, which ends within [(x2 - x1) / (2 * offset) + 1] iterations, by
    convergence or by exhaustion: given that many iterations, the method
    returns a section exactly when that loop converged on it, and
    returns for no bound at all when that loop met exhaustion. *)
Theorem stable_overscan_decided
    (depth fuel : nat) (x1 x2 y1 y2 : Z) (threshold : float) (offset : Z) :
  0 < offset ->
  x2 - x1 < Z.of_nat fuel * (2 * offset) -> (1 <= fuel)%nat ->
  exists o,
    shrink imstat percentage_change fuel x1 x2 y1 y2 threshold offset
      (imstat "mean" x1 x2 y1 y2) (imstat "stddev" x1 x2 y1 y2) = Some o /\
    match o with
    | Return r =>
        forall depth' fuel', (fuel <= fuel')%nat ->
          stable_overscan imstat percentage_change (S depth') fuel'
            x1 x2 y1 y2 threshold offset =
            Some r
    | Recurse _ _ _ _ _ =>
        forall depth' fuel',
          stable_overscan imstat percentage_change depth' fuel'
            x1 x2 y1 y2 threshold offset =
            None
    end.
Proof.
  intros Ho Hw Hf.
  destruct (shrink_ends fuel x1 x2 y1 y2 threshold offset
              (imstat "mean" x1 x2 y1 y2) (imstat "stddev" x1 x2 y1 y2)
              Ho Hf Hw) as [o Hs].
  exists o. split; [exact Hs|]. destruct o as [r|a b c d t'].
  - intros depth' fuel' Hle. simpl.
    now rewrite (shrink_fuel_mono _ _ _ _ _ _ _ _ _ _ _ _ _ Hle Hs).
  - intros depth' fuel'.
    eapply stable_overscan_after_exhaustion; [lia | exact Hs].
Qed.

End StableOverscanMore.

Lemma stable_overscan_result_nested_witness :
  stable_overscan ScenarioOverscan.flat ScenarioOverscan.percentage_change
    1 1 0 9 0 9 0.1 1 = Some (1, 8, 1, 8) /\
  (0 <= 1 /\ 1 <= 8 /\ 8 <= 9).
Proof.
  split; [reflexivity|].
  destruct (stable_overscan_result_nested ScenarioOverscan.flat
              ScenarioOverscan.percentage_change 1 1 0 9 0 9 0.1 1 1 8 1 8
              ltac:(lia) eq_refl) as (_ & _ & H1 & H2 & H3 & _).
  auto.
Defined.

(** On the drifting area the loop ends in its fifth iteration, by
    exhaustion. *)
Lemma stable_overscan_decided_witness :
  exists o,
    shrink ScenarioOverscan.drifting ScenarioOverscan.percentage_change
      5 0 9 0 9 0.1 1
      (ScenarioOverscan.drifting "mean" 0 9 0 9)
      (ScenarioOverscan.drifting "stddev" 0 9 0 9) = Some o.
Proof.
  destruct (stable_overscan_decided ScenarioOverscan.drifting
              ScenarioOverscan.percentage_change 0 5 0 9 0 9 0.1 1
              ltac:(lia) ltac:(lia) ltac:(lia)) as (o & Hs & _).
  exists o. exact Hs.
Defined.

(** ** The name of an image: prefix and number *)

Lemma forallb_is_digit s :
  forallb is_digit s = true <-> Forall (fun c => is_digit c = true) s.
Proof.
  induction s as [|c s IH]; simpl.
  - split; auto.
  - rewrite andb_true_iff, Forall_cons, IH. tauto.
Qed.

Lemma isdigit_true s :
  isdigit s = true <-> s <> [] /\ Forall (fun c => is_digit c = true) s.
Proof.
  unfold isdigit. destruct s as [|c s]; [now split; [|intros [[] _]]|].
  rewrite forallb_is_digit. split; [now split|tauto].
Qed.

Lemma py_int_character c :
  py_int [c] =
    if is_digit c then Ok (digit_value c)
    else Raise (ValueError "invalid literal for int() with base 10").
Proof.
  unfold py_int, isdigit. simpl. now destruct (is_digit c).
Qed.

Lemma prefix_loop_spec characters :
  forall str_char, exists p rest,
    FITSImage.prefix_loop str_char characters = Ok (str_char ++ p) /\
    characters = p ++ rest /\
    Forall (fun c => is_digit c = false) p /\
    (rest = [] \/ exists d rest', rest = d :: rest' /\ is_digit d = true).
Proof.
  induction characters as [|c cs IH]; intros acc.
  - exists [], []. simpl. rewrite app_nil_r. auto.
  - simpl FITSImage.prefix_loop. rewrite py_int_character.
    destruct (is_digit c) eqn:Hc.
    + exists [], (c :: cs). rewrite app_nil_r. repeat split; eauto.
    + destruct (IH (acc ++ [c])) as (p & rest & Hp & -> & Hnd & Hrest).
      exists (c :: p), rest. rewrite Hp, <- app_assoc. simpl.
      repeat split; auto.
Qed.

Lemma number_loop_spec ds rest :
  Forall (fun c => is_digit c = true) ds ->
  (rest = [] \/ exists c r, rest = c :: r /\ is_digit c = false) ->
  forall m a index,
    (a <= length ds)%nat ->
    (a + m + 1 <= length (ds ++ rest))%nat ->
    FITSImage.number_loop (ds ++ rest)
      (seqZ (Z.of_nat a) (Z.of_nat m)) index =
    match m with
    | O => index
    | S m' => Some (Z.of_nat (Nat.min (length ds) (a + m')))
    end.
Proof.
  intros Hds Hrest. induction m as [|m IH]; intros a index Ha Hlen; [easy|].
  rewrite seqZ_cons by lia. simpl FITSImage.number_loop.
  replace (Z.to_nat (Z.of_nat a + 1)) with (S a) by lia.
  replace (Z.pred (Z.of_nat (S m))) with (Z.of_nat m) by lia.
  replace (Z.succ (Z.of_nat a)) with (Z.of_nat (S a)) by lia.
  destruct (decide (a < length ds)%nat) as [Hlt|Hge].
  - rewrite take_app_le by lia.
    assert (isdigit (take (S a) ds) = true) as ->.
    { apply isdigit_true. split; [|now apply Forall_take].
      destruct ds; [simpl in Hlt; lia | discriminate]. }
    simpl negb. cbv iota. rewrite IH by (rewrite ?length_app in *; lia).
    destruct m as [|m']; f_equal; f_equal; lia.
  - assert (a = length ds) as -> by lia.
    destruct Hrest as [-> | (c & r & -> & Hc)].
    { rewrite length_app in Hlen. simpl in Hlen. lia. }
    assert (isdigit (take (S (length ds)) (ds ++ c :: r)) = false) as ->.
    { destruct (isdigit _) eqn:E; [|easy]. apply isdigit_true in E as [_ E].
      rewrite take_app_ge in E by lia.
      replace (S (length ds) - length ds)%nat with 1%nat in E by lia.
      simpl in E. apply Forall_app in E as [_ E].
      apply Forall_cons in E as [E _]. congruence. }
    simpl. f_equal. f_equal. lia.
Qed.

Lemma digit_run (cs : str) :
  exists ds rest, cs = ds ++ rest /\
    Forall (fun c => is_digit c = true) ds /\
    (rest = [] \/ exists c r, rest = c :: r /\ is_digit c = false).
Proof.
  induction cs as [|c cs (ds & rest & -> & Hds & Hrest)].
  - exists [], []. auto.
  - destruct (is_digit c) eqn:Hc.
    + exists (c :: ds), rest. repeat split; auto.
    + exists [], (c :: ds ++ rest). repeat split; eauto.
Qed.

(** ** [os.path.basename] and [os.path.splitext] *)

Lemma rfind_range c p : -1 <= rfind c p < Z.of_nat (length p).
Proof.
  induction p as [|a p IH]; simpl; [lia|].
  destruct (Z.leb_spec 0 (rfind c p)); [lia|].
  destruct (Ascii.eqb a c); lia.
Qed.

Lemma rfind_app c l1 l2 :
  rfind c (l1 ++ l2) =
    if 0 <=? rfind c l2 then Z.of_nat (length l1) + rfind c l2
    else rfind c l1.
Proof.
  induction l1 as [|a l1 IH]; simpl.
  - pose proof (rfind_range c l2).
    destruct (Z.leb_spec 0 (rfind c l2)); lia.
  - rewrite IH. destruct (Z.leb_spec 0 (rfind c l2)); [|easy].
    destruct (Z.leb_spec 0 (Z.of_nat (length l1) + rfind c l2)); lia.
Qed.

Lemma rfind_hit c p :
  0 <= rfind c p -> p !! Z.to_nat (rfind c p) = Some c.
Proof.
  induction p as [|a p IH]; simpl; [lia|].
  destruct (Z.leb_spec 0 (rfind c p)).
  - intros _. replace (Z.to_nat (rfind c p + 1)) with (S (Z.to_nat (rfind c p)))
      by lia.
    now apply IH.
  - destruct (Ascii.eqb_spec a c) as [->|]; [easy|lia].
Qed.

Lemma rfind_basename c p :
  rfind c (drop (Z.to_nat (rfind c p + 1)) p) = -1.
Proof.
  induction p as [|a p IH]; simpl; [easy|].
  pose proof (rfind_range c p).
  destruct (Z.leb_spec 0 (rfind c p)).
  - replace (Z.to_nat (rfind c p + 1 + 1))
      with (S (Z.to_nat (rfind c p + 1))) by lia.
    exact IH.
  - destruct (Ascii.eqb a c) eqn:Ea; simpl.
    + rewrite drop_0. lia.
    + rewrite Ea. destruct (Z.leb_spec 0 (rfind c p)); [lia|reflexivity].
Qed.

Lemma skip_leading_dots_Some p dotIndex n :
  forall filenameIndex r,
    skip_leading_dots p dotIndex filenameIndex n = Some r ->
    r = (take (Z.to_nat dotIndex) p, drop (Z.to_nat dotIndex) p).
Proof.
  induction n as [|n IH]; intros f r; simpl; [easy|].
  destruct (p !! Z.to_nat f); [|easy].
  destruct (negb _); [now intros [= <-]|apply IH].
Qed.

Lemma skip_leading_dots_app d b k n :
  0 <= k ->
  forall f, 0 <= f ->
    skip_leading_dots (d ++ b)
      (Z.of_nat (length d) + k) (Z.of_nat (length d) + f) n =
    match skip_leading_dots b k f n with
    | Some r => Some (d ++ r.1, r.2)
    | None => None
    end.
Proof.
  intros Hk. induction n as [|n IH]; intros f Hf; simpl; [easy|].
  replace (Z.to_nat (Z.of_nat (length d) + f))
    with (length d + Z.to_nat f)%nat by lia.
  rewrite lookup_app_r by lia.
  replace (length d + Z.to_nat f - length d)%nat with (Z.to_nat f) by lia.
  destruct (b !! Z.to_nat f); [|easy].
  destruct (negb _).
  - replace (Z.to_nat (Z.of_nat (length d) + k))
      with (length d + Z.to_nat k)%nat by lia.
    now rewrite take_app_add, drop_app_add.
  - replace (Z.of_nat (length d) + f + 1)
      with (Z.of_nat (length d) + (f + 1)) by lia.
    apply IH. lia.
Qed.

Lemma splitext_app p : (os_path_splitext p).1 ++ (os_path_splitext p).2 = p.
Proof.
  unfold os_path_splitext. destruct (_ <? _); [|apply app_nil_r].
  destruct (skip_leading_dots _ _ _ _) as [r|] eqn:E; [|apply app_nil_r].
  apply skip_leading_dots_Some in E as ->. apply take_drop.
Qed.

Lemma splitext_extension p :
  (os_path_splitext p).2 = [] \/
  exists e, (os_path_splitext p).2 = "."%char :: e.
Proof.
  unfold os_path_splitext. destruct (_ <? _) eqn:Hlt; [|now left].
  destruct (skip_leading_dots _ _ _ _) as [r|] eqn:E; [|now left].
  apply skip_leading_dots_Some in E as ->. right. simpl.
  pose proof (rfind_range "/" p).
  exists (drop (S (Z.to_nat (rfind "." p))) p).
  apply drop_S, rfind_hit. lia.
Qed.

Lemma splitext_app_basename d b :
  rfind "/" b = -1 ->
  rfind "/" (d ++ b) = Z.of_nat (length d) - 1 ->
  (os_path_splitext (d ++ b)).2 = (os_path_splitext b).2.
Proof.
  intros Hb Hd. unfold os_path_splitext. rewrite Hd, Hb, rfind_app.
  pose proof (rfind_range "." b). pose proof (rfind_range "." d).
  destruct (Z.leb_spec 0 (rfind "." b)).
  - destruct (Z.ltb_spec (Z.of_nat (length d) - 1)
                (Z.of_nat (length d) + rfind "." b)); [|lia].
    destruct (Z.ltb_spec (-1) (rfind "." b)); [|lia].
    replace (Z.of_nat (length d) - 1 + 1) with (Z.of_nat (length d) + 0)
      by lia.
    replace (Z.of_nat (length d) + rfind "." b - (Z.of_nat (length d) + 0))
      with (rfind "." b - (-1 + 1)) by lia.
    rewrite skip_leading_dots_app by lia.
    now destruct (skip_leading_dots b _ _ _).
  - destruct (Z.ltb_spec (Z.of_nat (length d) - 1) (rfind "." d)); [lia|].
    destruct (Z.ltb_spec (-1) (rfind "." b)); [lia|]. reflexivity.
Qed.

Lemma splitext_basename p :
  (os_path_splitext p).2 = (os_path_splitext (os_path_basename p)).2.
Proof.
  unfold os_path_basename.
  pose proof (rfind_range "/" p) as Hsep.
  rewrite <- (take_drop (Z.to_nat (rfind "/" p + 1)) p) at 1.
  apply splitext_app_basename; [apply rfind_basename|].
  rewrite take_drop, length_take. lia.
Qed.

(** The basename without extension and the extension, which the code
    computes from two different strings, are the two parts of the
    basename. *)
Lemma basename_woe_extension self :
  FITSImage.basename_woe self ++ FITSImage.extension self =
  FITSImage.basename self.
Proof.
  unfold FITSImage.basename_woe, FITSImage.extension, FITSImage.basename.
  rewrite splitext_basename. apply splitext_app.
Qed.

(** ** [number], given the digits that follow the prefix *)

Lemma number_spec debug self p ds rest :
  FITSImage.prefix self = Ok p ->
  drop (length p) (FITSImage.basename self) = ds ++ rest ->
  Forall (fun c => is_digit c = true) ds ->
  (rest = [] \/ exists c r, rest = c :: r /\ is_digit c = false) ->
  FITSImage.number debug self =
    Ok (take (length ds + length rest - 2) ds).
Proof.
  intros Hp Hcs Hds Hrest. unfold FITSImage.number. rewrite Hp. simpl rbind.
  assert ((if negb (length p =? 0)%nat
           then drop (length p) (FITSImage.basename self)
           else FITSImage.basename self) = ds ++ rest) as ->.
  { destruct (length p) eqn:E; simpl; [|exact Hcs]. now rewrite <- Hcs. }
  rewrite length_app.
  destruct (decide (length ds + length rest < 2)%nat) as [Hn|Hn].
  - replace (seqZ _ _) with (@nil Z).
    2:{ symmetry. apply seqZ_nil. lia. }
    simpl FITSImage.number_loop.
    destruct (Z.ltb_spec (Z.of_nat (length ds + length rest)) 2); [|lia].
    unfold py_assert. rewrite andb_false_r. simpl.
    now replace (length ds + length rest - 2)%nat with 0%nat by lia.
  - pose proof (number_loop_spec ds rest Hds Hrest
                  (length ds + length rest - 1) 0 None) as H.
    replace (Z.of_nat (length ds + length rest)%nat - 1)
      with (Z.of_nat (length ds + length rest - 1)) by lia.
    change 0 with (Z.of_nat 0) at 1.
    rewrite H by (rewrite ?length_app; lia).
    destruct (length ds + length rest - 1)%nat as [|m'] eqn:Em; [lia|].
    rewrite Nat2Z.id. f_equal.
    replace (length ds + length rest - 2)%nat with m' by lia. simpl.
    destruct (decide (m' <= length ds)%nat).
    + rewrite Nat.min_r by lia. apply take_app_le. lia.
    + rewrite Nat.min_l by lia. rewrite take_app_length.
      symmetry. apply take_ge. lia.
Qed.

Lemma prefix_loop_digits p ds :
  Forall (fun c => is_digit c = false) p ->
  Forall (fun c => is_digit c = true) ds ->
  forall str_char,
    FITSImage.prefix_loop str_char (p ++ ds) = Ok (str_char ++ p).
Proof.
  intros Hp Hds. induction Hp as [|c p Hc _ IH]; intros acc; simpl.
  - rewrite app_nil_r. destruct Hds as [|d ds Hd _]; [easy|].
    simpl. now rewrite py_int_character, Hd.
  - rewrite py_int_character, Hc, IH, <- app_assoc. reflexivity.
Qed.

Lemma number_Ok debug self :
  exists p ds rest,
    FITSImage.prefix self = Ok p /\
    FITSImage.number debug self = Ok ds /\
    Forall (fun c => is_digit c = true) ds /\
    FITSImage.basename self = p ++ ds ++ rest.
Proof.
  destruct (prefix_loop_spec (FITSImage.basename_woe self) [])
    as (p & rest0 & Hp & Hwoe & _ & _).
  destruct (digit_run (rest0 ++ FITSImage.extension self))
    as (ds & rest & Hcs & Hds & Hrest).
  assert (FITSImage.basename self = p ++ ds ++ rest) as Hb.
  { rewrite <- basename_woe_extension, Hwoe, <- app_assoc. now f_equal. }
  exists p, (take (length ds + length rest - 2) ds),
    (drop (length ds + length rest - 2) ds ++ rest).
  split; [exact Hp|]. split; [|split].
  - apply (number_spec debug self p ds rest); auto.
    now rewrite Hb, drop_app_length.
  - now apply Forall_take.
  - now rewrite (app_assoc (take _ _)), take_drop.
Qed.

(** ** Sorting by key *)

Section ListSortFacts.
Context {A : Type}.
Implicit Types (kx : Z * A) (l : list (Z * A)).

Local Abbreviation le_key := (fun kx ky : Z * A => kx.1 <= ky.1).

Lemma insert_Permutation kx l : FITSet.insert kx l ≡ₚ kx :: l.
Proof.
  induction l as [|ky l IH]; simpl; [easy|].
  destruct (kx.1 <=? ky.1); [easy|].
  rewrite IH. apply Permutation_swap.
Qed.

Lemma insert_le_all kx l :
  Forall (le_key kx) l -> FITSet.insert kx l = kx :: l.
Proof.
  intros [|ky l' Hk _]; simpl; [easy|].
  destruct (Z.leb_spec kx.1 ky.1); [easy|lia].
Qed.

Lemma insert_StronglySorted kx l :
  StronglySorted le_key l -> StronglySorted le_key (FITSet.insert kx l).
Proof.
  induction 1 as [|ky l Hl IH Hky]; simpl.
  - repeat constructor.
  - destruct (Z.leb_spec kx.1 ky.1).
    + constructor; [now constructor|]. constructor; [easy|].
      eapply Forall_impl; [exact Hky|]. simpl. intros; lia.
    + constructor; [exact IH|].
      rewrite insert_Permutation. constructor; [lia|easy].
Qed.

Lemma isort_StronglySorted l :
  StronglySorted le_key (foldr FITSet.insert [] l).
Proof.
  induction l; simpl; [constructor|now apply insert_StronglySorted].
Qed.

Lemma isort_Permutation l : foldr FITSet.insert [] l ≡ₚ l.
Proof.
  induction l as [|kx l IH]; simpl; [easy|].
  now rewrite insert_Permutation, IH.
Qed.

Lemma Forall_filter_keep (P Q : Z * A -> Prop)
  `{!forall kx, Decision (Q kx)} l :
  Forall P l -> Forall P (filter Q l).
Proof.
  induction 1 as [|kx l Hk _ IH]; [constructor|].
  rewrite filter_cons. destruct (decide (Q kx)); [now constructor|easy].
Qed.

Lemma insert_filter (Q : Z * A -> Prop) `{!forall kx, Decision (Q kx)} kx l :
  StronglySorted le_key l ->
  filter Q (FITSet.insert kx l) =
    if decide (Q kx) then FITSet.insert kx (filter Q l) else filter Q l.
Proof.
  induction 1 as [|ky l Hl IH Hky]; simpl.
  - rewrite filter_cons, filter_nil. now destruct (decide (Q kx)).
  - destruct (Z.leb_spec kx.1 ky.1).
    + rewrite (filter_cons _ kx). destruct (decide (Q kx)); [|easy].
      symmetry. apply insert_le_all.
      apply Forall_filter_keep. constructor; [easy|].
      eapply Forall_impl; [exact Hky|]. simpl. intros; lia.
    + rewrite (filter_cons _ ky), IH, (filter_cons _ ky).
      destruct (decide (Q kx)), (decide (Q ky)); try easy.
      simpl. destruct (Z.leb_spec kx.1 ky.1); [lia|easy].
Qed.

Lemma isort_filter (Q : Z * A -> Prop) `{!forall kx, Decision (Q kx)} l :
  filter Q (foldr FITSet.insert [] l) =
  foldr FITSet.insert [] (filter Q l).
Proof.
  induction l as [|kx l IH]; simpl; [easy|].
  rewrite insert_filter by apply isort_StronglySorted.
  rewrite filter_cons, IH. now destruct (decide (Q kx)).
Qed.

Lemma isort_same_key n l :
  Forall (fun kx => kx.1 = n) l -> foldr FITSet.insert [] l = l.
Proof.
  induction 1 as [|kx l Hk Hl IH]; simpl; [easy|].
  rewrite IH. apply insert_le_all.
  eapply Forall_impl; [exact Hl|]. simpl. intros; lia.
Qed.

Lemma decorate_Ok (key : A -> result Z) (k : A -> Z) (xs : list A) :
  Forall (fun x => key x = Ok (k x)) xs ->
  FITSet.decorate key xs = Ok (map (fun x => (k x, x)) xs).
Proof.
  induction 1 as [|x xs Hx _ IH]; simpl; [easy|].
  now rewrite Hx, IH.
Qed.

End ListSortFacts.

(** ** FITSet.sort and FITSet.number_interval_filter *)

Section FITSetFacts.
Variable debug : bool.

Local Abbreviation deco :=
  (fun x : FITSImage.t => (FITSet.number_of debug x, x)).

Lemma has_number_length img ds :
  FITSImage.number debug img = Ok ds ->
  negb (length ds =? 0)%nat = FITSet.has_number debug img.
Proof.
  unfold FITSet.has_number. intros ->. now destruct ds.
Qed.

Lemma sort_key_Ok img :
  FITSet.has_number debug img = true ->
  FITSet.sort_key debug img = Ok (FITSet.number_of debug img) /\
  exists ds, FITSImage.number debug img = Ok ds /\
    py_int ds = Ok (FITSet.number_of debug img).
Proof.
  unfold FITSet.has_number, FITSet.number_of, FITSet.sort_key.
  destruct (number_Ok debug img) as (p & ds & rest & _ & -> & Hds & _).
  destruct ds as [|d ds]; [easy|]. intros _.
  assert (isdigit (d :: ds) = true) as E by now apply isdigit_true.
  unfold py_int, rbind. rewrite E.
  split; [reflexivity|]. exists (d :: ds). now rewrite E.
Qed.

Lemma with_number_filter self :
  FITSet.with_number debug self =
  Ok (filter (fun img => FITSet.has_number debug img) self).
Proof.
  induction self as [|img self IH]; simpl; [easy|].
  destruct (number_Ok debug img) as (p & ds & rest & _ & Hn & _).
  rewrite Hn, IH. simpl. rewrite (has_number_length _ _ Hn), filter_cons.
  now destruct (FITSet.has_number debug img).
Qed.

Lemma select_filter interval_lower interval_upper self :
  FITSet.select debug interval_lower interval_upper self =
  Ok (filter (fun img => FITSet.has_number debug img /\
                interval_lower <= FITSet.number_of debug img
                  <= interval_upper) self,
      map FITSImage.path
        (filter (fun img => ~ FITSet.has_number debug img) self)).
Proof.
  induction self as [|img self IH]; simpl; [easy|].
  destruct (number_Ok debug img) as (p & ds & rest & _ & Hn & _).
  rewrite Hn, IH. simpl. rewrite (has_number_length _ _ Hn).
  rewrite !filter_cons.
  destruct (FITSet.has_number debug img) eqn:Hh; simpl.
  - destruct (sort_key_Ok img Hh) as (_ & ds' & Hn' & Hint).
    assert (ds' = ds) as -> by congruence. rewrite Hint. simpl.
    destruct (Z.leb_spec interval_lower (FITSet.number_of debug img)),
      (Z.leb_spec (FITSet.number_of debug img) interval_upper); simpl;
      destruct (decide _) as [?|?]; first [reflexivity | lia | tauto].
  - reflexivity.
Qed.

Lemma decorate_images imgs :
  Forall (fun img => FITSet.has_number debug img = true) imgs ->
  FITSet.decorate (FITSet.sort_key debug) imgs = Ok (map deco imgs).
Proof.
  intros H. apply (decorate_Ok _ (FITSet.number_of debug)).
  eapply Forall_impl; [exact H|]. intros img Hh. now apply sort_key_Ok.
Qed.

Lemma sort_isort self :
  FITSet.sort debug self =
  Ok (map snd (foldr FITSet.insert []
       (map deco (filter (fun img => FITSet.has_number debug img) self)))).
Proof.
  unfold FITSet.sort, FITSet.list_sort.
  rewrite with_number_filter. simpl. rewrite decorate_images; [easy|].
  apply Forall_forall. intros img [H _]%list_elem_of_filter.
  now destruct (FITSet.has_number debug img).
Qed.

Lemma isort_decorated imgs :
  foldr FITSet.insert [] (map deco imgs) =
  map deco (map snd (foldr FITSet.insert [] (map deco imgs))).
Proof.
  assert (Forall (fun kx => kx = deco kx.2)
            (foldr FITSet.insert [] (map deco imgs))) as H.
  { rewrite isort_Permutation. apply Forall_forall.
    intros kx (img & -> & _)%list_elem_of_fmap. reflexivity. }
  induction H as [|kx l Hk _ IH]; simpl; [easy|]. now rewrite <- Hk, <- IH.
Qed.

Lemma filter_deco (P : Z -> Prop) `{!forall n, Decision (P n)} imgs :
  filter (fun kx : Z * FITSImage.t => P kx.1) (map deco imgs) =
  map deco (filter (fun img => P (FITSet.number_of debug img)) imgs).
Proof.
  induction imgs as [|img imgs IH]; simpl; [easy|].
  rewrite !filter_cons, IH. simpl.
  destruct (decide _); reflexivity.
Qed.

Lemma map_snd_deco imgs : map snd (map deco imgs) = imgs.
Proof. induction imgs; simpl; congruence. Qed.

Lemma StronglySorted_deco imgs :
  StronglySorted (fun kx ky : Z * FITSImage.t => kx.1 <= ky.1)
    (map deco imgs) ->
  StronglySorted
    (fun a b => FITSet.number_of debug a <= FITSet.number_of debug b) imgs.
Proof.
  induction imgs as [|img imgs IH]; simpl; [constructor|].
  intros [H1 H2]%StronglySorted_inv. constructor; [auto|].
  apply Forall_forall. intros b Hb. rewrite Forall_forall in H2.
  apply (H2 (deco b)), list_elem_of_fmap. eauto.
Qed.

Lemma isort_filter_images (P : Z -> Prop) {Hdec : forall n, Decision (P n)}
  imgs :
  filter (fun img => P (FITSet.number_of debug img))
    (map snd (foldr FITSet.insert [] (map deco imgs))) =
  map snd (foldr FITSet.insert [] (map deco
    (filter (fun img => P (FITSet.number_of debug img)) imgs))).
Proof.
  rewrite <- filter_deco, <- isort_filter, isort_decorated, filter_deco.
  now rewrite !map_snd_deco.
Qed.

Lemma sort_Permutation imgs :
  map snd (foldr FITSet.insert [] (map deco imgs)) ≡ₚ imgs.
Proof.
  etrans; [apply Permutation_map, isort_Permutation|].
  rewrite map_snd_deco. reflexivity.
Qed.

Lemma sort_StronglySorted imgs :
  StronglySorted
    (fun a b => FITSet.number_of debug a <= FITSet.number_of debug b)
    (map snd (foldr FITSet.insert [] (map deco imgs))).
Proof.
  apply StronglySorted_deco. rewrite <- isort_decorated.
  apply isort_StronglySorted.
Qed.

Lemma sort_stable n imgs :
  filter (fun img => FITSet.number_of debug img = n)
    (map snd (foldr FITSet.insert [] (map deco imgs))) =
  filter (fun img => FITSet.number_of debug img = n) imgs.
Proof.
  pose proof (isort_filter_images (fun m => m = n) imgs) as H.
  etrans; [exact H|]. clear H.
  rewrite (isort_same_key n), map_snd_deco; [easy|].
  apply Forall_forall. intros kx (img & -> & Hi)%list_elem_of_fmap.
  now apply list_elem_of_filter in Hi as [-> _].
Qed.

Lemma sort_interval interval_lower interval_upper self :
  FITSet.sort debug
    (filter (fun img => FITSet.has_number debug img /\
               interval_lower <= FITSet.number_of debug img
                 <= interval_upper) self) =
  Ok (filter (fun img => interval_lower <= FITSet.number_of debug img
                <= interval_upper)
       (map snd (foldr FITSet.insert []
         (map deco (filter (fun img => FITSet.has_number debug img) self))))).
Proof.
  rewrite sort_isort, list_filter_filter. f_equal. symmetry.
  pose proof (isort_filter_images
                (fun n => interval_lower <= n <= interval_upper)
                (filter (fun img => FITSet.has_number debug img) self)) as H.
  etrans; [exact H|]. clear H.
  rewrite list_filter_filter. do 3 f_equal.
  apply list_filter_iff. tauto.
Qed.

End FITSetFacts.

(** X9 (fitsimage.py, FITSImage.prefix): the prefix of an image is the
    longest beginning of its basename without extension that holds no
    digit: the basename without extension is the prefix followed by
    nothing or by a digit.  The method never raises. *)
Theorem prefix_longest_without_digit self :
  exists p rest,
    FITSImage.prefix self = Ok p /\
    FITSImage.basename_woe self = p ++ rest /\
    Forall (fun c => is_digit c = false) p /\
    (rest = [] \/ exists d rest', rest = d :: rest' /\ is_digit d = true).
Proof.
  destruct (prefix_loop_spec (FITSImage.basename_woe self) [])
    as (p & rest & Hp & Hwoe & Hnd & Hrest).
  now exists p, rest.
Qed.

(** X10 (fitsimage.py, FITSImage.number): the number of an image never
    raises and is a string of digits, possibly empty, that follows the
    prefix in the basename of the image; so [int] of a number that is not
    empty never raises. *)
Theorem number_is_digits debug self :
  exists p ds rest,
    FITSImage.prefix self = Ok p /\
    FITSImage.number debug self = Ok ds /\
    Forall (fun c => is_digit c = true) ds /\
    FITSImage.basename self = p ++ ds ++ rest /\
    (ds <> [] -> exists n, py_int ds = Ok n).
Proof.
  destruct (number_Ok debug self) as (p & ds & rest & Hp & Hn & Hds & Hb).
  exists p, ds, rest. repeat split; auto.
  intros Hne. unfold py_int.
  assert (isdigit ds = true) as -> by now apply isdigit_true.
  eauto.
Qed.

(** X11 (fitsimage.py, FITSImage.prefix and FITSImage.number): for an image
    whose basename without extension is a text without digits followed by
    digits, and whose extension has a character after its dot, the prefix
    is the text and the number is the digits, leading zeros kept. *)
Theorem number_with_extension debug self p ds :
  FITSImage.basename_woe self = p ++ ds ->
  Forall (fun c => is_digit c = false) p ->
  Forall (fun c => is_digit c = true) ds ->
  (2 <= length (FITSImage.extension self))%nat ->
  FITSImage.prefix self = Ok p /\ FITSImage.number debug self = Ok ds.
Proof.
  intros Hwoe Hp Hds Hext.
  assert (FITSImage.prefix self = Ok p) as Hpre.
  { unfold FITSImage.prefix. rewrite Hwoe. now apply prefix_loop_digits. }
  split; [exact Hpre|].
  rewrite (number_spec debug self p ds (FITSImage.extension self) Hpre).
  - f_equal. apply take_ge. lia.
  - now rewrite <- basename_woe_extension, Hwoe, <- app_assoc,
      drop_app_length.
  - exact Hds.
  - destruct (splitext_extension (FITSImage.path self)) as [E | [e E]];
      fold (FITSImage.extension self) in E; rewrite E in *.
    + simpl in Hext. lia.
    + right. now exists "."%char, e.
Qed.

Lemma number_with_extension_witness :
  FITSImage.basename_woe ScenarioNames.ferM_0013_fits =
    list_ascii_of_string "ferM_0013" /\
  FITSImage.prefix ScenarioNames.ferM_0013_fits =
    Ok (list_ascii_of_string "ferM_") /\
  FITSImage.number true ScenarioNames.ferM_0013_fits =
    Ok (list_ascii_of_string "0013").
Proof.
  split; [reflexivity|].
  apply (number_with_extension true ScenarioNames.ferM_0013_fits
           (list_ascii_of_string "ferM_") (list_ascii_of_string "0013"));
    [reflexivity | repeat constructor | repeat constructor
    | vm_compute; lia].
Defined.

(** X12 (fitsimage.py, FITSImage.number): for an image without extension
    whose basename is a text without digits followed by digits, the number
    is the digits without the last two of them: the loop of [number] never
    looks at the last character, and the slice leaves out one more. *)
Theorem number_without_extension debug self p ds :
  FITSImage.basename_woe self = p ++ ds ->
  Forall (fun c => is_digit c = false) p ->
  Forall (fun c => is_digit c = true) ds ->
  FITSImage.extension self = [] ->
  FITSImage.number debug self = Ok (take (length ds - 2) ds).
Proof.
  intros Hwoe Hp Hds Hext.
  assert (FITSImage.prefix self = Ok p) as Hpre.
  { unfold FITSImage.prefix. rewrite Hwoe. now apply prefix_loop_digits. }
  rewrite (number_spec debug self p ds [] Hpre); auto.
  - simpl. now rewrite Nat.add_0_r.
  - now rewrite <- basename_woe_extension, Hwoe, Hext, !app_nil_r,
      drop_app_length.
Qed.

Lemma number_without_extension_witness :
  FITSImage.extension ScenarioNames.ferM_0013 = [] /\
  FITSImage.number true ScenarioNames.ferM_0013 =
    Ok (list_ascii_of_string "00").
Proof.
  split; [reflexivity|].
  apply (number_without_extension true ScenarioNames.ferM_0013
           (list_ascii_of_string "ferM_") (list_ascii_of_string "0013"));
    [reflexivity | repeat constructor | repeat constructor | reflexivity].
Defined.

(** X13 (fitsimage.py, FITSImage.basename_woe and FITSImage.extension):
    the basename without extension, taken from the basename, and the
    extension, taken from the whole path, are the two parts of the
    basename; the extension is empty or begins with a dot. *)
Theorem basename_woe_then_extension self :
  FITSImage.basename_woe self ++ FITSImage.extension self =
    FITSImage.basename self /\
  (FITSImage.extension self = [] \/
   exists e, FITSImage.extension self = "."%char :: e).
Proof.
  split; [apply basename_woe_extension|apply splitext_extension].
Qed.

(** X14 (fitsimage.py, FITSet.sort): sorting a set never raises.  The
    result holds the images of the set that have a number, each as often
    as the set does, in increasing order of their numbers read as
    integers, and images with the same number keep the order they have in
    the set. *)
Theorem sort_by_number debug self :
  exists out,
    FITSet.sort debug self = Ok out /\
    out ≡ₚ filter (fun img => FITSet.has_number debug img) self /\
    StronglySorted
      (fun a b => FITSet.number_of debug a <= FITSet.number_of debug b)
      out /\
    forall n,
      filter (fun img => FITSet.number_of debug img = n) out =
      filter (fun img => FITSet.number_of debug img = n)
        (filter (fun img => FITSet.has_number debug img) self).
Proof.
  eexists. split; [apply sort_isort|]. split; [|split].
  - apply sort_Permutation.
  - apply sort_StronglySorted.
  - intros n. apply sort_stable.
Qed.

(** X15 (fitsimage.py, FITSet.number_interval_filter): selecting the
    images with a number in an interval never raises, and gives what
    sorting the whole set and then keeping the images in the interval
    gives; the images it warns about are those without number, in the
    order of the set. *)
Theorem number_interval_filter_of_sort debug interval_lower interval_upper
  self :
  exists out,
    FITSet.sort debug self = Ok out /\
    FITSet.number_interval_filter debug interval_lower interval_upper self =
      Ok (filter (fun img => interval_lower <= FITSet.number_of debug img
                    <= interval_upper) out,
          map FITSImage.path
            (filter (fun img => ~ FITSet.has_number debug img) self)).
Proof.
  eexists. split; [apply sort_isort|].
  unfold FITSet.number_interval_filter.
  rewrite select_filter. simpl. now rewrite sort_interval.
Qed.

(** ** Rounding to binary64 without overflow *)

Module SFFacts.

Lemma digits2_size p : digits2_pos p = Pos.size p.
Proof. induction p; simpl; congruence. Qed.

Lemma digits2_gt p : Z.pos p < 2 ^ Z.pos (digits2_pos p).
Proof.
  rewrite digits2_size. pose proof (Pos.size_gt p) as H.
  apply Pos2Z.pos_lt_pos in H. now rewrite Pos2Z.inj_pow in H.
Qed.

Lemma digits2_le p : 2 ^ Z.pos (digits2_pos p) <= 2 * Z.pos p.
Proof.
  rewrite digits2_size. pose proof (Pos.size_le p) as H.
  apply Pos2Z.pos_le_pos in H. now rewrite Pos2Z.inj_pow in H.
Qed.

Lemma digits2_bound p d :
  0 <= d -> Z.pos p < 2 ^ d -> Z.pos (digits2_pos p) <= d.
Proof.
  intros Hd Hp. pose proof (digits2_le p).
  destruct (Z.le_gt_cases (Z.pos (digits2_pos p)) d) as [|Hgt]; [easy|].
  assert (2 ^ (d + 1) <= 2 ^ Z.pos (digits2_pos p))
    by (apply Z.pow_le_mono_r; lia).
  rewrite Z.pow_add_r in * by lia. lia.
Qed.

Lemma digits2_mono p q :
  (p <= q)%positive -> Z.pos (digits2_pos p) <= Z.pos (digits2_pos q).
Proof.
  intros H. apply digits2_bound; [lia|].
  pose proof (digits2_gt q). lia.
Qed.

Lemma Zdigits2_mono m n :
  0 <= m <= n -> Zdigits2 m <= Zdigits2 n.
Proof.
  destruct m as [|p|p], n as [|q|q]; simpl; try lia.
  intros. apply digits2_mono. lia.
Qed.

Lemma shr_1_m mrs :
  0 <= shr_m mrs -> 0 <= shr_m (shr_1 mrs) <= shr_m mrs / 2.
Proof.
  destruct mrs as [m r s]. cbn [shr_m].
  destruct m as [|[p|p|]|p]; unfold shr_1; cbn [shr_m]; try lia; intros _;
    (split; [lia|apply Z.div_le_lower_bound; lia]).
Qed.

Lemma iter_shr_1_m k :
  forall mrs, 0 <= shr_m mrs ->
    0 <= shr_m (SpecFloat.iter_pos shr_1 k mrs) <= shr_m mrs / 2.
Proof.
  induction k as [k IH|k IH|]; intros mrs H; simpl.
  - pose proof (shr_1_m mrs H) as H1.
    pose proof (IH _ (proj1 H1)) as H2.
    pose proof (IH _ (proj1 H2)) as H3.
    assert (forall x, 0 <= x -> x / 2 <= x)
      by (intros; apply Z.div_le_upper_bound; lia).
    split; [lia|]. etrans; [apply H3|]. etrans; [apply H0; lia|].
    etrans; [apply H2|]. etrans; [apply H0; lia|]. apply H1.
  - pose proof (IH _ H) as H2.
    pose proof (IH _ (proj1 H2)) as H3.
    assert (forall x, 0 <= x -> x / 2 <= x)
      by (intros; apply Z.div_le_upper_bound; lia).
    split; [lia|]. etrans; [apply H3|]. etrans; [apply H0; lia|]. apply H2.
  - now apply shr_1_m.
Qed.

Lemma shr_m_of_loc m l : shr_m (shr_record_of_loc m l) = m.
Proof. now destruct l as [|[]]. Qed.

Lemma fexp64 x : fexp prec emax x = Z.max (x - 53) (-1074).
Proof. reflexivity. Qed.

Lemma shr_fexp_cases m e l :
  0 <= m ->
  (shr_fexp prec emax m e l = (shr_record_of_loc m l, e) /\
   fexp prec emax (Zdigits2 m + e) <= e) \/
  (exists mrs,
     shr_fexp prec emax m e l = (mrs, fexp prec emax (Zdigits2 m + e)) /\
     0 <= shr_m mrs <= m / 2).
Proof.
  intros Hm. unfold shr_fexp, shr.
  destruct (fexp prec emax (Zdigits2 m + e) - e) as [|k|k] eqn:E.
  - left. split; [easy|lia].
  - right. eexists. split.
    + f_equal. lia.
    + rewrite <- (shr_m_of_loc m l) at 3. apply iter_shr_1_m.
      now rewrite shr_m_of_loc.
  - left. split; [easy|lia].
Qed.

Lemma round_nearest_even_bounds q l :
  q <= round_nearest_even q l <= q + 1.
Proof.
  destruct l as [|[]]; simpl; try lia. destruct (Z.even q); lia.
Qed.

Lemma finite_or_zero_weaken s E E' x :
  finite_or_zero s E x -> E <= E' -> finite_or_zero s E' x.
Proof. destruct x; simpl; try easy. intros [-> ?] ?. split; [easy|lia]. Qed.

Lemma binary_round_aux_finite s m e D E :
  Z.pos (digits2_pos m) <= D -> e <= E -> 53 <= D -> -1074 <= E ->
  E + 2 * (D - 53) <= 971 ->
  finite_or_zero s (E + 2 * (D - 53))
    (binary_round_aux prec emax s (Z.pos m) e loc_Exact).
Proof.
  intros Hd He HD HE Hmax. unfold binary_round_aux.
  assert (exists mrs' e',
            shr_fexp prec emax (Z.pos m) e loc_Exact = (mrs', e') /\
            0 <= round_nearest_even (shr_m mrs') (loc_of_shr_record mrs')
              <= Z.pos m /\
            e' <= E + (D - 53)) as (mrs' & e' & -> & Hm1 & He').
  { destruct (shr_fexp_cases (Z.pos m) e loc_Exact) as [[-> _]|(mrs & -> & Hq)];
      [lia| |].
    - eexists _, _. split; [reflexivity|]. simpl. lia.
    - eexists _, _. split; [reflexivity|].
      pose proof (round_nearest_even_bounds (shr_m mrs)
                    (loc_of_shr_record mrs)).
      assert (Z.pos m / 2 + 1 <= Z.pos m \/ Z.pos m = 1) as [|Hm1] by
        (destruct (Z.eq_dec (Z.pos m) 1); [now right|left];
         assert (Z.pos m / 2 <= Z.pos m - 1) by
           (apply Z.div_le_upper_bound; lia); lia).
      + split; [lia|]. rewrite fexp64. simpl Zdigits2. lia.
      + rewrite Hm1 in Hq. change (1 / 2) with 0 in Hq.
        split; [lia|]. rewrite fexp64. simpl Zdigits2. lia. }
  set (m1 := round_nearest_even _ _) in *.
  assert (Zdigits2 m1 <= D) as Hd1.
  { etrans; [apply (Zdigits2_mono m1 (Z.pos m)); lia|]. exact Hd. }
  destruct (shr_fexp_cases m1 e' loc_Exact) as [[-> _]|(mrs & -> & Hq)];
    [lia| |].
  - simpl. destruct m1 as [|p|p]; [easy| |lia].
    destruct (Z.leb_spec e' (emax - prec)); [split; [easy|lia]|].
    change (emax - prec) with 971 in *. lia.
  - assert (fexp prec emax (Zdigits2 m1 + e') <= E + 2 * (D - 53))
      by (rewrite fexp64; lia).
    destruct (shr_m mrs) as [|p|p]; [easy| |lia].
    destruct (Z.leb_spec (fexp prec emax (Zdigits2 m1 + e')) (emax - prec));
      [split; [easy|lia]|].
    change (emax - prec) with 971 in *. lia.
Qed.

Lemma digits2_iter_xO p d :
  Z.pos (digits2_pos (Pos.iter xO p d)) = Z.pos (digits2_pos p) + Z.pos d.
Proof.
  induction d as [|d IH] using Pos.peano_ind.
  - simpl. lia.
  - rewrite Pos.iter_succ. simpl digits2_pos. lia.
Qed.

Lemma binary_normalize_finite m :
  0 <= m < 2 ^ 63 ->
  finite_or_zero false 20 (binary_normalize prec emax m 0 false).
Proof.
  intros Hm. destruct m as [|p|p]; [easy| |lia].
  unfold binary_normalize, binary_round, shl_align.
  rewrite Z.add_0_r, Z.sub_0_r, fexp64.
  assert (Z.pos (digits2_pos p) <= 63) by (apply digits2_bound; lia).
  destruct (Z.max _ _) as [|k|k] eqn:E.
  - apply (binary_round_aux_finite false p 0 63 0); lia.
  - apply (binary_round_aux_finite false p 0 63 0); lia.
  - apply (finite_or_zero_weaken false 0); [|lia].
    apply (binary_round_aux_finite false (Pos.iter xO p k) (Z.neg k) 53 0);
      try lia.
    rewrite digits2_iter_xO. lia.
Qed.

Lemma finite_or_zero_nonneg E x :
  finite_or_zero false E x -> nonneg_finite E x.
Proof. now destruct x. Qed.

Lemma float_of_int_finite n :
  finite_or_zero false 20 (Prim2SF (PyNumber.float_of_int n)).
Proof.
  unfold PyNumber.float_of_int. rewrite of_uint63_spec.
  apply binary_normalize_finite.
  pose proof (Uint63.to_Z_bounded (Uint63.of_Z n)) as H.
  change Uint63.wB with (2 ^ 63) in H. exact H.
Qed.

Lemma unit_interval_finite x :
  (0 <=? x)%float = true -> (x <=? 1)%float = true ->
  nonneg_finite (-52) (Prim2SF x).
Proof.
  rewrite !FloatAxioms.leb_spec.
  change (Prim2SF 0) with (S754_zero false).
  change (Prim2SF 1) with (S754_finite false 4503599627370496 (-52)).
  destruct (Prim2SF x) as [s|s| |s m e]; simpl; try easy.
  - now destruct s.
  - destruct s; [easy|]. intros _. unfold SFleb, SFcompare.
    destruct (Z.compare_spec e (-52)); intros Hle; try discriminate;
      (split; [reflexivity|lia]).
Qed.

Lemma valid_digits s m e :
  valid_binary (S754_finite s m e) = true -> Z.pos (digits2_pos m) <= 53.
Proof.
  simpl. unfold bounded, canonical_mantissa. rewrite andb_true_iff, fexp64.
  intros [H _]. apply Z.eqb_eq in H. lia.
Qed.

Lemma mul_nonneg_finite a b Ea Eb :
  nonneg_finite Ea (Prim2SF a) -> nonneg_finite Eb (Prim2SF b) ->
  -1074 <= Ea + Eb -> Ea + Eb + 106 <= 971 ->
  nonneg_finite (Ea + Eb + 106) (Prim2SF (a * b)).
Proof.
  rewrite mul_spec. unfold SF64mul, SFmul.
  pose proof (Prim2SF_valid a) as Va. pose proof (Prim2SF_valid b) as Vb.
  destruct (Prim2SF a) as [sa|sa| |sa ma ea],
           (Prim2SF b) as [sb|sb| |sb mb eb]; simpl; try easy.
  intros [-> Ha] [-> Hb] Hlo Hhi.
  apply valid_digits in Va, Vb.
  apply finite_or_zero_nonneg.
  apply (finite_or_zero_weaken false ((Ea + Eb) + 2 * (106 - 53))); [|lia].
  apply binary_round_aux_finite; try lia.
  apply digits2_bound; [lia|].
  pose proof (digits2_gt ma). pose proof (digits2_gt mb).
  assert (2 ^ Z.pos (digits2_pos ma) <= 2 ^ 53)
    by (apply Z.pow_le_mono_r; lia).
  assert (2 ^ Z.pos (digits2_pos mb) <= 2 ^ 53)
    by (apply Z.pow_le_mono_r; lia).
  rewrite Pos2Z.inj_mul. change (2 ^ 106) with (2 ^ 53 * 2 ^ 53).
  apply Z.mul_lt_mono_nonneg; lia.
Qed.

(** [int(round(x))] of a float that is not negative. *)
Lemma int_round_nonneg E x :
  nonneg_finite E (Prim2SF x) ->
  exists k, PyNumber.int (PyNumber.round x) = Returns k /\ 0 <= k /\
    ((x =? 0)%float = true -> k = 0).
Proof.
  intros Hx. unfold PyNumber.round.
  rewrite FloatAxioms.eqb_spec. change (Prim2SF 0) with (S754_zero false).
  destruct (Prim2SF x) as [s|s| |s m e] eqn:Ex; simpl in Hx; try easy.
  - exists 0. unfold PyNumber.int. now rewrite Ex.
  - destruct Hx as [-> _].
    assert (SFeqb (S754_finite false m e) (S754_zero false) = true -> False)
      by (now cbv).
    destruct (Z.leb_spec 0 e).
    + unfold PyNumber.int. rewrite Ex.
      destruct (Z.leb_spec 0 e); [|lia].
      eexists. split; [reflexivity|]. split; [|tauto].
      apply Z.shiftl_nonneg. lia.
    + set (r := if Z.testbit _ _ then _ else _).
      pose proof (float_of_int_finite r) as Hr.
      unfold PyNumber.int.
      destruct (Prim2SF (PyNumber.float_of_int r)) as [s'|s'| |s' m' e'];
        simpl in Hr; try easy.
      * exists 0. split; [reflexivity|]. split; [lia|tauto].
      * destruct Hr as [-> _]. eexists. split; [reflexivity|].
        split; [|tauto].
        destruct (0 <=? e'); [apply Z.shiftl_nonneg|apply Z.shiftr_nonneg];
          lia.
Qed.

Lemma Zdigits2_bound m d : 0 <= d -> 0 <= m < 2 ^ d -> Zdigits2 m <= d.
Proof.
  intros Hd Hm. destruct m as [|p|p]; simpl; [lia| |lia].
  apply digits2_bound; lia.
Qed.

(** Rounding a mantissa that comes with a location, as division does. *)
Lemma binary_round_aux_finite_loc s m e l D E :
  0 <= m < 2 ^ D -> e <= E -> 53 <= D -> -1074 <= E ->
  E + 2 * (D - 53) + 1 <= 971 ->
  finite_or_zero s (E + 2 * (D - 53) + 1)
    (binary_round_aux prec emax s m e l).
Proof.
  intros Hm He HD HE Hmax. unfold binary_round_aux.
  assert (Zdigits2 m <= D) as Hd by (apply Zdigits2_bound; lia).
  assert (2 ^ D < 2 ^ (D + 1)) by (apply Z.pow_lt_mono_r; lia).
  assert (exists mrs' e',
            shr_fexp prec emax m e l = (mrs', e') /\
            0 <= round_nearest_even (shr_m mrs') (loc_of_shr_record mrs')
              < 2 ^ (D + 1) /\
            e' <= E + (D - 53)) as (mrs' & e' & -> & Hm1 & He').
  { destruct (shr_fexp_cases m e l) as [[-> _]|(mrs & -> & Hq)]; [lia| |].
    - eexists _, _. split; [reflexivity|].
      pose proof (round_nearest_even_bounds
                    (shr_m (shr_record_of_loc m l))
                    (loc_of_shr_record (shr_record_of_loc m l))) as Hr.
      rewrite shr_m_of_loc in Hr. rewrite shr_m_of_loc. lia.
    - eexists _, _. split; [reflexivity|].
      pose proof (round_nearest_even_bounds (shr_m mrs)
                    (loc_of_shr_record mrs)).
      assert (m / 2 <= m) by (apply Z.div_le_upper_bound; lia).
      split; [lia|]. rewrite fexp64. lia. }
  set (m1 := round_nearest_even _ _) in *.
  assert (Zdigits2 m1 <= D + 1) as Hd1 by (apply Zdigits2_bound; lia).
  destruct (shr_fexp_cases m1 e' loc_Exact) as [[-> _]|(mrs & -> & Hq)];
    [lia| |].
  - simpl. destruct m1 as [|p|p]; [easy| |lia].
    destruct (Z.leb_spec e' (emax - prec)); [split; [easy|lia]|].
    change (emax - prec) with 971 in *. lia.
  - assert (fexp prec emax (Zdigits2 m1 + e') <= E + 2 * (D - 53) + 1)
      by (rewrite fexp64; lia).
    destruct (shr_m mrs) as [|p|p]; [easy| |lia].
    destruct (Z.leb_spec (fexp prec emax (Zdigits2 m1 + e')) (emax - prec));
      [split; [easy|lia]|].
    change (emax - prec) with 971 in *. lia.
Qed.

Lemma div2_nonneg_finite a E :
  nonneg_finite E (Prim2SF a) ->
  -1074 <= E + 51 -> E + 158 <= 971 ->
  nonneg_finite (E + 158) (Prim2SF (a / 2)).
Proof.
  rewrite div_spec. unfold SF64div, SFdiv.
  change (Prim2SF 2) with (S754_finite false 4503599627370496 (-51)).
  pose proof (Prim2SF_valid a) as Va.
  destruct (Prim2SF a) as [sa|sa| |sa m e]; simpl; try easy.
  intros [-> He] Hlo Hhi. apply valid_digits in Va.
  unfold SFdiv_core_binary.
  set (d1 := Zdigits2 (Z.pos m)).
  assert (1 <= d1 <= 53) as Hd1 by (subst d1; simpl; lia).
  change (Zdigits2 4503599627370496) with 53.
  rewrite fexp64.
  set (e' := Z.min _ _).
  assert (e' <= e + 51) as He' by (subst e'; lia).
  assert (0 <= e - -51 - e' <= 106 - d1) as Hs by (subst e'; lia).
  set (s := e - -51 - e') in *.
  set (m' := match s with Z.pos _ => _ | _ => _ end).
  assert (0 <= m' < 2 ^ 106) as Hm'.
  { assert (Z.pos m < 2 ^ d1) by (subst d1; apply digits2_gt).
    assert (m' = Z.pos m * 2 ^ s) as ->.
    { subst m'. destruct s as [|p|p] eqn:Es; [lia| |lia].
      rewrite Z.shiftl_mul_pow2; lia. }
    assert (0 < 2 ^ s) by (apply Z.pow_pos_nonneg; lia).
    split; [lia|].
    apply Z.lt_le_trans with (2 ^ d1 * 2 ^ s).
    - apply Z.mul_lt_mono_pos_r; lia.
    - rewrite <- Z.pow_add_r by lia. apply Z.pow_le_mono_r; lia. }
  pose proof (Z.div_pos m' 4503599627370496 ltac:(lia) ltac:(lia)) as Hq0.
  assert (m' / 4503599627370496 <= m') as Hq1
    by (apply Z.div_le_upper_bound; lia).
  unfold Z.div in Hq0, Hq1.
  destruct (Z.div_eucl m' 4503599627370496) as [q r]. simpl in Hq0, Hq1.
  apply finite_or_zero_nonneg.
  apply (finite_or_zero_weaken false ((E + 51) + 2 * (106 - 53) + 1));
    [|lia].
  apply binary_round_aux_finite_loc; lia.
Qed.

Lemma int_nonneg E x :
  nonneg_finite E (Prim2SF x) ->
  exists k, PyNumber.int x = Returns k /\ 0 <= k.
Proof.
  unfold PyNumber.int.
  destruct (Prim2SF x) as [s|s| |s m e]; simpl; try easy.
  - eauto with lia.
  - intros [-> _]. eexists. split; [reflexivity|].
    destruct (0 <=? e); [apply Z.shiftl_nonneg|apply Z.shiftr_nonneg]; lia.
Qed.

End SFFacts.


(** ** FITSet.imcombine: the rejection counts *)

Lemma int_round_product len f :
  (0 <=? f)%float = true -> (f <=? 1)%float = true ->
  exists k,
    PyNumber.int (PyNumber.round (PyNumber.float_of_int len * f)) =
      Returns k /\
    0 <= k /\ ((f =? 0)%float = true -> k = 0).
Proof.
  intros H0 H1.
  pose proof (SFFacts.finite_or_zero_nonneg _ _
                (SFFacts.float_of_int_finite len)) as Hl.
  pose proof (SFFacts.unit_interval_finite f H0 H1) as Hf.
  pose proof (SFFacts.mul_nonneg_finite _ _ 20 (-52) Hl Hf) as Hp.
  destruct (SFFacts.int_round_nonneg _ _ (Hp ltac:(lia) ltac:(lia)))
    as (k & Hk & Hk0 & Hz).
  exists k. split; [exact Hk|]. split; [exact Hk0|].
  intros Hf0. apply Hz.
  rewrite FloatAxioms.eqb_spec, mul_spec in *.
  change (Prim2SF 0) with (S754_zero false) in *.
  unfold SF64mul, SFmul.
  destruct (Prim2SF (PyNumber.float_of_int len)) as [s|s| |s m e];
    simpl in Hl; try easy;
    destruct (Prim2SF f) as [s'|s'| |s' m' e']; simpl in Hf; try easy;
    destruct Hf as [-> _]; discriminate Hf0.
Qed.

Lemma rejection_counts_Returns len flow fhigh :
  (0 <=? flow)%float = true -> (flow <=? 1)%float = true ->
  (0 <=? fhigh)%float = true -> (fhigh <=? 1)%float = true ->
  exists nlow nhigh,
    FITSet.rejection_counts len flow fhigh = Returns (nlow, nhigh) /\
    0 <= nlow /\ 0 <= nhigh /\
    ((flow =? 0)%float = true -> nlow = 0) /\
    ((fhigh =? 0)%float = true -> nhigh = 0) /\
    (3 <= len -> (flow =? 0)%float = false -> 1 <= nlow) /\
    (2 <= len -> (fhigh =? 0)%float = false -> 1 <= nhigh).
Proof.
  intros Hl0 Hl1 Hh0 Hh1. unfold FITSet.rejection_counts, PyNumber.truth.
  destruct (int_round_product len flow Hl0 Hl1) as (nl & -> & Hnl & Hzl).
  destruct (int_round_product len fhigh Hh0 Hh1) as (nh & -> & Hnh & Hzh).
  destruct (flow =? 0)%float eqn:El, (fhigh =? 0)%float eqn:Eh;
    rewrite ?(Hzl eq_refl), ?(Hzh eq_refl); simpl;
    destruct (Z.eqb_spec len 2) as [->|]; simpl;
    try destruct (Z.leb_spec 3 len); simpl;
    try destruct (Z.eqb_spec nl 0) as [->|]; simpl;
    try destruct (Z.eqb_spec nh 0) as [->|]; simpl;
    eexists _, _; (split; [reflexivity|]); repeat split;
      intros; try discriminate; try lia.
Qed.

(** X16 (fitsimage.py, FITSet.imcombine): for fractions in the range
    [0, 1] the computation of the rejection counts raises nothing, and
    neither count is negative; a fraction of zero gives a count of zero,
    whatever the number of images; a fraction that is not zero gives a
    count of at least one for the high pixels of two or more images and
    for the low pixels of three or more. *)
Theorem rejection_counts_in_range len flow fhigh :
  (0 <=? flow)%float = true -> (flow <=? 1)%float = true ->
  (0 <=? fhigh)%float = true -> (fhigh <=? 1)%float = true ->
  exists nlow nhigh,
    FITSet.rejection_counts len flow fhigh = Returns (nlow, nhigh) /\
    0 <= nlow /\ 0 <= nhigh /\
    ((flow =? 0)%float = true -> nlow = 0) /\
    ((fhigh =? 0)%float = true -> nhigh = 0) /\
    (3 <= len -> (flow =? 0)%float = false -> 1 <= nlow) /\
    (2 <= len -> (fhigh =? 0)%float = false -> 1 <= nhigh).
Proof.
  exact (rejection_counts_Returns len flow fhigh).
Qed.

Lemma rejection_counts_in_range_witness :
  exists nlow nhigh,
    FITSet.rejection_counts 3 ScenarioCombine.flow ScenarioCombine.fhigh =
      Returns (nlow, nhigh) /\ 1 <= nlow /\ 1 <= nhigh.
Proof.
  destruct (rejection_counts_in_range 3 ScenarioCombine.flow
              ScenarioCombine.fhigh eq_refl eq_refl eq_refl eq_refl)
    as (nl & nh & H & _ & _ & _ & _ & Hl & Hh).
  exists nl, nh. split; [exact H|].
  split; [apply Hl; [lia|reflexivity]|apply Hh; [lia|reflexivity]].
Defined.

(** ** Runs of the call trees *)

#[local] Set Warnings "-clear-no-such-hyp".

Module SysFacts.
Import Sys.

Lemma runs_handle {A B} (p : prog A) (h : answer A -> prog B) t out :
  runs (handle p h) t out <->
  exists t1 r t2, runs p t1 r /\ runs (h r) t2 out /\ t = t1 ++ t2.
Proof.
  split.
  - revert t. induction p as [a|e|c k IH|s k IH|path k IH|path k IH];
      simpl; intros t H.
    + exists [], (Returns a), t. repeat split; [constructor|easy].
    + exists [], (Raises e), t. repeat split; [constructor|easy].
    + inversion H as [| |? ? r t' ? H'| | |]; subst.
      destruct (IH _ _ H') as (t1 & r' & t2 & H1 & H2 & ->).
      exists (Did c r :: t1), r', t2. repeat split; [now constructor|easy].
    + inversion H as [| | |? ? r t' ? H'| |]; subst.
      destruct (IH _ _ H') as (t1 & r' & t2 & H1 & H2 & ->).
      exists (Mkstemped s r :: t1), r', t2.
      repeat split; [now constructor|easy].
    + inversion H as [| | | |? ? r t' ? H'|]; subst.
      destruct (IH _ _ H') as (t1 & r' & t2 & H1 & H2 & ->).
      exists (Existed path r :: t1), r', t2.
      repeat split; [now constructor|easy].
    + inversion H as [| | | | |? ? r t' ? H']; subst.
      destruct (IH _ _ H') as (t1 & r' & t2 & H1 & H2 & ->).
      exists (Opened path r :: t1), r', t2.
      repeat split; [now constructor|easy].
  - intros (t1 & r & t2 & H1 & H2 & ->).
    induction H1; simpl; try (constructor; auto); exact H2.
Qed.

Lemma runs_lift {A} (r : answer A) t out :
  runs (lift r) t out <-> t = [] /\ out = r.
Proof.
  destruct r; simpl; split.
  - now inversion 1.
  - intros [-> ->]. constructor.
  - now inversion 1.
  - intros [-> ->]. constructor.
Qed.

Lemma runs_Ret_iff {A} (a : A) t out :
  runs (Ret a) t out <-> t = [] /\ out = Returns a.
Proof. apply (runs_lift (Returns a)). Qed.

Lemma runs_Throw_iff {A} e t (out : answer A) :
  runs (Throw e) t out <-> t = [] /\ out = Raises e.
Proof. apply (runs_lift (Raises e)). Qed.

Lemma runs_bind {A B} (p : prog A) (k : A -> prog B) t out :
  runs (bind p k) t out <->
  (exists t1 e, runs p t1 (Raises e) /\ t = t1 /\ out = Raises e) \/
  (exists t1 a t2, runs p t1 (Returns a) /\ runs (k a) t2 out /\
     t = t1 ++ t2).
Proof.
  unfold bind. rewrite runs_handle. split.
  - intros (t1 & [a|e] & t2 & H1 & H2 & ->).
    + right. now exists t1, a, t2.
    + left. apply runs_Throw_iff in H2 as [-> ->].
      exists t1, e. now rewrite app_nil_r.
  - intros [(t1 & e & H1 & -> & ->)|(t1 & a & t2 & H1 & H2 & ->)].
    + exists t1, (Raises e), []. rewrite app_nil_r.
      repeat split; [easy|constructor].
    + now exists t1, (Returns a), t2.
Qed.

Lemma runs_call c t out :
  runs (call c) t out <-> t = [Did c out].
Proof.
  unfold call. split.
  - inversion 1 as [| |? ? r t' ? H'| | |]; subst.
    now apply runs_lift in H' as [-> ->].
  - intros ->. constructor. now apply runs_lift.
Qed.

Lemma runs_mkstemp suffix t out :
  runs (mkstemp suffix) t out <-> t = [Mkstemped suffix out].
Proof.
  unfold mkstemp. split.
  - inversion 1 as [| | |? ? r t' ? H'| |]; subst.
    now apply runs_lift in H' as [-> ->].
  - intros ->. constructor. now apply runs_lift.
Qed.

Lemma runs_path_exists path t out :
  runs (path_exists path) t out <->
  exists b, t = [Existed path b] /\ out = Returns b.
Proof.
  unfold path_exists. split.
  - inversion 1 as [| | | |? ? r t' ? H'|]; subst.
    apply runs_Ret_iff in H' as [-> ->]. eauto.
  - intros (b & -> & ->). constructor. constructor.
Qed.

Lemma runs_new path t out :
  runs (FITSImage.new path) t out <->
  exists r, t = [Opened path r] /\
    out = match r with
          | Returns size => Returns (FITSImage.mk path size)
          | Raises e => Raises e
          end.
Proof.
  unfold FITSImage.new. split.
  - inversion 1 as [| | | | |? ? r t' ? H']; subst. exists r.
    destruct r; [apply runs_Ret_iff in H'|apply runs_Throw_iff in H'];
      now destruct H' as [-> ->].
  - intros (r & -> & ->). constructor. destruct r; constructor.
Qed.

Lemma runs_finally {A} (p : prog A) cleanup t out :
  runs (finally p cleanup) t out <->
  exists t1 r t2 c, runs p t1 r /\ runs cleanup t2 c /\ t = t1 ++ t2 /\
    out = match c with Returns _ => r | Raises e => Raises e end.
Proof.
  unfold finally. rewrite runs_handle. split.
  - intros (t1 & r & t2 & H1 & H2 & ->).
    apply runs_bind in H2
      as [(t' & e & Hc & -> & ->)|(t' & [] & t'' & Hc & Hl & ->)].
    + now exists t1, r, t', (Raises e).
    + apply runs_lift in Hl as [-> ->]. rewrite app_nil_r.
      now exists t1, r, t', (Returns tt).
  - intros (t1 & r & t2 & c & H1 & H2 & -> & ->).
    exists t1, r, t2. repeat split; [easy|]. apply runs_bind.
    destruct c as [[]|e].
    + right. exists t2, tt, []. rewrite app_nil_r.
      repeat split; [easy|]. now apply runs_lift.
    + left. now exists t2, e.
Qed.

(** Taking a run apart, call by call. *)
Ltac sys_step :=
  match goal with
  | H : true = false |- _ => discriminate H
  | H : false = true |- _ => discriminate H
  | H : (?a, ?b) = (?c, ?d) |- _ =>
      assert (a = c) by congruence; assert (b = d) by congruence;
      clear H; subst
  | H : runs (bind _ _) _ _ |- _ =>
      let H' := fresh "H" in
      apply runs_bind in H
        as [(? & ? & H & ? & ?)|(? & ? & ? & H & H' & ?)];
      [|cbv beta in H']; subst
  | H : runs (call _) _ _ |- _ => apply runs_call in H; subst
  | H : runs (mkstemp _) _ _ |- _ => apply runs_mkstemp in H; subst
  | H : runs (path_exists _) _ _ |- _ =>
      let b := fresh "there" in
      apply runs_path_exists in H as (b & ? & ?); subst
  | H : runs (FITSImage.new _) _ _ |- _ =>
      let r := fresh "r" in
      apply runs_new in H as (r & ? & ?); destruct r; subst
  | H : runs (Ret _) _ _ |- _ => apply runs_Ret_iff in H as [? ?]; subst
  | H : runs (Throw _) _ _ |- _ => apply runs_Throw_iff in H as [? ?]; subst
  | H : runs (if true then _ else _) _ _ |- _ => cbv iota in H
  | H : runs (if false then _ else _) _ _ |- _ => cbv iota in H
  | H : runs (if ?b then _ else _) _ _ |- _ => destruct b eqn:?
  | H : runs (let '(_, _) := ?x in _) _ _ |- _ => destruct x
  | H : Returns _ = Raises _ |- _ => discriminate H
  | H : Raises _ = Returns _ |- _ => discriminate H
  | H : Returns ?a = Returns ?b |- _ =>
      assert (a = b) by congruence; clear H; subst
  | H : Raises ?a = Raises ?b |- _ =>
      assert (a = b) by congruence; clear H; subst
  | u : unit |- _ => destruct u
  end.

End SysFacts.

(** ** The runs of the scenarios *)

Ltac run_it :=
  repeat first [ apply Sys.runs_Ret | apply Sys.runs_Throw
               | apply Sys.runs_Do | apply Sys.runs_Mkstemp
               | apply Sys.runs_Exists | apply Sys.runs_Open ];
  simpl.

Lemma runs_combining :
  Sys.runs (FITSet.imcombine ScenarioCombine.flats ScenarioCombine.master
              ScenarioCombine.flow ScenarioCombine.fhigh)
    (Sys.Mkstemped (list_ascii_of_string ".lst")
       (Returns ScenarioCombine.lst) :: ScenarioCombine.combining)
    (Returns (FITSImage.mk ScenarioCombine.master (2048, 2048))).
Proof.
  unfold FITSet.imcombine.
  change (FITSet.rejection_counts _ _ _) with (@Returns (Z * Z) (1, 2)).
  simpl. repeat (run_it; try reflexivity).
Qed.

Lemma runs_dividing :
  Sys.runs (FITSImage.imarith (ScenarioCombine.flat "001") ["/"%char]
              (FITSImage.OtherFloat 2)
              (Some (FITSImage.path (ScenarioCombine.flat "001"))))
    ScenarioCombine.dividing
    (Returns (ScenarioCombine.flat "001")).
Proof.
  unfold FITSImage.imarith, FITSImage.imcopy_default, FITSImage.imcopy_with.
  simpl. repeat (run_it; try reflexivity).
Qed.

Lemma runs_cropping :
  Sys.runs (FITSImage.imcopy (ScenarioCombine.flat "001")
              (Some (FITSImage.path (ScenarioCombine.flat "001")))
              (list_ascii_of_string ".fits")
              (Some 1) (Some 100) (Some 1) (Some 200))
    ScenarioCombine.cropping
    (Returns (ScenarioCombine.flat "001")).
Proof.
  unfold FITSImage.imcopy, FITSImage.imcopy_default, FITSImage.imcopy_with.
  simpl. repeat (run_it; try reflexivity).
Qed.

Lemma runs_rejecting :
  Sys.runs (FITSImage.imarith (ScenarioCombine.flat "001") ["+"%char]
              FITSImage.OtherObject None)
    ScenarioCombine.rejecting
    (Raises (Builtin (ValueError
       "second operand must be either a FITSImage or a real value"))).
Proof.
  unfold FITSImage.imarith. simpl. repeat (run_it; try reflexivity).
Qed.

(** ** FITSet.imcombine *)

Lemma remove_dups_singleton `{EqDecision A} (l : list A) :
  length (remove_dups l) = 1%nat <->
  l <> [] /\ forall a b, a ∈ l -> b ∈ l -> a = b.
Proof.
  split.
  - intros H. destruct (remove_dups l) as [|x [|y d]] eqn:E; try easy.
    assert (forall a, a ∈ l -> a = x) as Hx.
    { intros a Ha. rewrite <- elem_of_remove_dups, E in Ha.
      now apply list_elem_of_singleton in Ha. }
    split; [now intros ->|].
    intros a b Ha Hb. now rewrite (Hx a Ha), (Hx b Hb).
  - intros [Hne Heq]. destruct l as [|x l]; [easy|].
    pose proof (NoDup_remove_dups (x :: l)) as Hnd.
    assert (forall a, a ∈ remove_dups (x :: l) -> a = x) as Hx.
    { intros a Ha. rewrite elem_of_remove_dups in Ha.
      apply Heq; [exact Ha|left]. }
    assert (x ∈ remove_dups (x :: l)) as Hin
      by (apply elem_of_remove_dups; left).
    destruct (remove_dups (x :: l)) as [|a [|b d]]; [now inversion Hin|easy|].
    assert (a = x) as -> by (apply Hx; left).
    assert (b = x) as -> by (apply Hx; right; left).
    apply NoDup_cons in Hnd as [Hnd _]. exfalso. apply Hnd. left.
Qed.

(** X17 (fitsimage.py, FITSet.imcombine): a set that is empty, a fraction
    outside the range [0, 1] (NaN included) or two images of different
    sizes make imcombine raise ValueError before it has called anything;
    for any other arguments nothing is raised before the temporary file
    of the list of images is created. *)
Theorem imcombine_checks_first self output_path flow fhigh t out :
  Sys.runs (FITSet.imcombine self output_path flow fhigh) t out ->
  let valid :=
    self <> [] /\
    FITSet.in_range flow = true /\ FITSet.in_range fhigh = true /\
    forall a b, a ∈ self -> b ∈ self ->
      FITSImage.size a = FITSImage.size b in
  (~ valid /\ t = [] /\
   exists msg, out = Raises (Builtin (ValueError msg))) \/
  (valid /\
   exists r t', t = Sys.Mkstemped (list_ascii_of_string ".lst") r :: t').
Proof.
  intros H valid. subst valid. unfold FITSet.imcombine in H.
  destruct (length self =? 0)%nat eqn:E0.
  { left. apply SysFacts.runs_Throw_iff in H as [-> ->].
    split; [|eauto]. intros [Hne _]. apply Hne.
    now apply nil_length_inv, Nat.eqb_eq. }
  assert (self <> []) as Hne by (now intros ->).
  destruct (FITSet.in_range flow) eqn:Hl; simpl in H.
  2:{ left. apply SysFacts.runs_Throw_iff in H as [-> ->].
      split; [now intros (_ & ? & _)|]. eauto. }
  destruct (FITSet.in_range fhigh) eqn:Hh; simpl in H.
  2:{ left. apply SysFacts.runs_Throw_iff in H as [-> ->].
      split; [now intros (_ & _ & ? & _)|]. eauto. }
  destruct (length (remove_dups _) =? 1)%nat eqn:Hs; simpl in H.
  2:{ left. apply SysFacts.runs_Throw_iff in H as [-> ->].
      split; [|eauto]. intros (_ & _ & _ & Heq).
      apply Nat.eqb_neq in Hs. apply Hs, remove_dups_singleton.
      split; [now destruct self|].
      intros a b (x & -> & Hx)%list_elem_of_fmap
        (y & -> & Hy)%list_elem_of_fmap. now apply Heq. }
  right. split.
  { apply Nat.eqb_eq, remove_dups_singleton in Hs as [_ Heq].
    repeat split; [exact Hne|].
    intros a b Ha Hb. apply Heq; apply list_elem_of_fmap; eauto. }
  unfold FITSet.in_range in Hl, Hh.
  apply andb_true_iff in Hl as [Hl0 Hl1], Hh as [Hh0 Hh1].
  destruct (rejection_counts_Returns (Z.of_nat (length self)) flow fhigh
              Hl0 Hl1 Hh0 Hh1) as (nl & nh & Hc & _).
  rewrite Hc in H. simpl in H.
  inversion H; subst. eauto.
Qed.

Lemma imcombine_checks_first_witness :
  ScenarioCombine.flats <> [] /\
  FITSet.in_range ScenarioCombine.flow = true /\
  FITSet.in_range ScenarioCombine.fhigh = true /\
  forall a b, a ∈ ScenarioCombine.flats -> b ∈ ScenarioCombine.flats ->
    FITSImage.size a = FITSImage.size b.
Proof.
  destruct (imcombine_checks_first _ _ _ _ _ _ runs_combining)
    as [(_ & Ht & _)|(Hvalid & _)]; [discriminate Ht|exact Hvalid].
Defined.

(** The writes of the paths of the images into the list file. *)
Lemma imcombine_calls_app t1 t2 :
  Sys.imcombine_calls (t1 ++ t2) =
  Sys.imcombine_calls t1 ++ Sys.imcombine_calls t2.
Proof. apply omap_app. Qed.

Lemma runs_write_paths input_path self t out :
  Sys.runs (FITSet.write_paths input_path self) t out ->
  (out = Returns tt /\
   t = map (fun img => Sys.Did (Sys.Write input_path
               (FITSImage.path img ++ ["010"%char])) (Returns tt)) self) \/
  ((exists e, out = Raises e) /\ Sys.imcombine_calls t = []).
Proof.
  revert t. induction self as [|img self IH]; simpl; intros t H.
  - SysFacts.sys_step. now left.
  - repeat SysFacts.sys_step.
    + right. eauto.
    + destruct (IH _ H0) as [[-> ->]|[He Hno]]; [now left|].
      right. split; [easy|]. simpl. exact Hno.
Qed.

Lemma imcombine_calls_written input_path (self : list FITSImage.t) :
  Sys.imcombine_calls
    (map (fun img => Sys.Did (Sys.Write input_path
            (FITSImage.path img ++ ["010"%char])) (Returns tt)) self) = [].
Proof. now induction self. Qed.

(** The body of the try block of [imcombine]. *)
Lemma runs_imcombine_try p self output_path nl nh t out :
  Sys.runs
    (FITSet.write_paths p self;;
     Sys.call (Sys.Close p);;
     sys! there := Sys.path_exists output_path in
     (if there then Sys.call (Sys.Unlink output_path) else Sys.Ret tt);;
     Sys.call Sys.OpenDevnull;;
     Sys.call (Sys.IrafImcombine ("@"%char :: p) output_path nl nh)) t out ->
  Sys.imcombine_calls t = [] \/
  exists mid,
    t = map (fun img => Sys.Did (Sys.Write p
               (FITSImage.path img ++ ["010"%char])) (Returns tt)) self
        ++ Sys.Did (Sys.Close p) (Returns tt) :: mid
        ++ [Sys.Did (Sys.IrafImcombine ("@"%char :: p) output_path nl nh)
              out] /\
    Sys.imcombine_calls mid = [].
Proof.
  intros H.
  apply SysFacts.runs_bind in H
    as [(t1 & e & Hw & -> & ->)|(t1 & [] & t2 & Hw & H & ->)];
    apply runs_write_paths in Hw as [[Hw ->]|[[e' Hw] Hno]];
    try discriminate; [now left|].
  repeat SysFacts.sys_step;
    rewrite ?imcombine_calls_app, ?imcombine_calls_written; simpl;
    try (now left); right.
  - exists [Sys.Existed output_path true;
            Sys.Did (Sys.Unlink output_path) (Returns tt);
            Sys.Did Sys.OpenDevnull (Returns tt)]. easy.
  - exists [Sys.Existed output_path false;
            Sys.Did Sys.OpenDevnull (Returns tt)]. easy.
Qed.

(** X18 (fitsimage.py, FITSet.imcombine): once the temporary file of the
    list of images exists, imcombine removes it whatever happens in
    between, and is done with it: only the opening of the output image
    and the deletion of its keywords can follow.  IRAF's imcombine is
    called at most once, on that file, with the rejection counts computed
    from the fractions, after the path of every image has been written to
    the file, in the order of the set, and the file closed; the next call
    is the removal of the file. *)
Theorem imcombine_removes_list_file self output_path flow fhigh p t' out :
  Sys.runs (FITSet.imcombine self output_path flow fhigh)
    (Sys.Mkstemped (list_ascii_of_string ".lst") (Returns p) :: t') out ->
  exists body r rest,
    t' = body ++ Sys.Did (Sys.Unlink p) r :: rest /\
    Forall (fun s => (exists r', s = Sys.Opened output_path r') \/
                     (exists k r', s = Sys.Did (Sys.DeleteKeyword
                                                  output_path k) r')) rest /\
    (Sys.imcombine_calls t' = [] \/
     exists mid nl nh r',
       FITSet.rejection_counts (Z.of_nat (length self)) flow fhigh =
         Returns (nl, nh) /\
       body =
         map (fun img => Sys.Did (Sys.Write p
                (FITSImage.path img ++ ["010"%char])) (Returns tt)) self
         ++ Sys.Did (Sys.Close p) (Returns tt) :: mid
         ++ [Sys.Did (Sys.IrafImcombine ("@"%char :: p) output_path nl nh)
               r'] /\
       Sys.imcombine_calls mid = [] /\
       Sys.imcombine_calls t' = [("@"%char :: p, output_path, nl, nh)]).
Proof.
  intros H. unfold FITSet.imcombine in H.
  destruct (length self =? 0)%nat; [now inversion H|].
  destruct (negb _ || negb _); [now inversion H|].
  destruct (negb _); [now inversion H|].
  destruct (FITSet.rejection_counts _ _ _) as [[nl nh]|e] eqn:Hc;
    simpl in H; [|now inversion H].
  inversion H as [| | |? ? ? ? ? H'| |]; subst. clear H. simpl in H'.
  apply SysFacts.runs_handle in H' as (t1 & r1 & t2 & Hf & Hrest & ->).
  apply (SysFacts.runs_finally _ _ t1 r1) in Hf
    as (tb & rb & tc & c & Hb & Hu & -> & ->).
  apply SysFacts.runs_call in Hu as ->.
  assert (Forall (fun s => (exists r', s = Sys.Opened output_path r') \/
                     (exists k r', s = Sys.Did (Sys.DeleteKeyword
                                                  output_path k) r')) t2 /\
          Sys.imcombine_calls t2 = []) as [Hrest1 Hrest2].
  { destruct c as [[]|e], rb as [[]|e']; simpl in Hrest;
      repeat SysFacts.sys_step; simpl;
      (split; [|reflexivity]);
      repeat (apply Forall_cons; split;
              [first [left; eexists; reflexivity
                     |right; eexists _, _; reflexivity]|]);
      apply Forall_nil_2. }
  exists tb, c, t2. split; [now rewrite <- app_assoc|].
  split; [exact Hrest1|].
  rewrite <- app_assoc, !imcombine_calls_app, Hrest2. simpl.
  apply runs_imcombine_try in Hb as [Hno|(mid & -> & Hno)].
  - left. now rewrite Hno.
  - right. exists mid, nl, nh, rb. repeat split; auto.
    rewrite !imcombine_calls_app, imcombine_calls_written. simpl.
    rewrite imcombine_calls_app, Hno. reflexivity.
Qed.

Lemma imcombine_removes_list_file_witness :
  exists body r rest,
    ScenarioCombine.combining =
      body ++ Sys.Did (Sys.Unlink ScenarioCombine.lst) r :: rest /\
    Sys.imcombine_calls body =
      [("@"%char :: ScenarioCombine.lst, ScenarioCombine.master, 1, 2)].
Proof.
  destruct (imcombine_removes_list_file _ _ _ _ _ _ _ runs_combining)
    as (body & r & rest & Ht & _
          & [Hno|(mid & nl & nh & r' & Hc & Hb & Hm & _)]).
  - discriminate Hno.
  - exists body, r, rest. split; [exact Ht|].
    injection Hc as <- <-. rewrite Hb.
    rewrite imcombine_calls_app, imcombine_calls_written. simpl.
    now rewrite imcombine_calls_app, Hm.
Defined.

(** ** FITSImage.imarith and FITSImage.imcopy *)

Lemma runs_imcopy_default self t out :
  Sys.runs (FITSImage.imcopy_default self) t out ->
  (exists e, out = Raises e /\
     (t = [Sys.Mkstemped (list_ascii_of_string ".fits") (Raises e)] \/
      exists p, t = [Sys.Mkstemped (list_ascii_of_string ".fits") (Returns p);
                     Sys.Did (Sys.Close p) (Raises e)] \/
                t = [Sys.Mkstemped (list_ascii_of_string ".fits") (Returns p);
                     Sys.Did (Sys.Close p) (Returns tt);
                     Sys.Did (Sys.Copy2 (FITSImage.path self) p) (Raises e)] \/
                t = [Sys.Mkstemped (list_ascii_of_string ".fits") (Returns p);
                     Sys.Did (Sys.Close p) (Returns tt);
                     Sys.Did (Sys.Copy2 (FITSImage.path self) p) (Returns tt);
                     Sys.Opened p (Raises e)])) \/
  (exists p size, out = Returns (FITSImage.mk p size) /\
     t = [Sys.Mkstemped (list_ascii_of_string ".fits") (Returns p);
          Sys.Did (Sys.Close p) (Returns tt);
          Sys.Did (Sys.Copy2 (FITSImage.path self) p) (Returns tt);
          Sys.Opened p (Returns size)]).
Proof.
  unfold FITSImage.imcopy_default, FITSImage.imcopy_with. simpl.
  intros H. repeat SysFacts.sys_step; simpl; eauto 10.
Qed.

Ltac imarith_runs H :=
  unfold FITSImage.imarith in H;
  repeat first
    [ SysFacts.sys_step
    | match goal with
      | H : Sys.runs (FITSImage.imcopy_default _) _ _ |- _ =>
          apply runs_imcopy_default in H
            as [(? & ? & [?|(? & [?|[?|?]])])|(? & ? & ? & ?)]; subst
      | H : Sys.runs (match ?o with Some _ => _ | None => _ end) _ _ |- _ =>
          destruct o as [[|? ?]|]
      | H : Sys.runs (match ?o with
                      | FITSImage.OtherImage _ => _ | _ => _ end) _ _ |- _ =>
          destruct o
      | H : bool_decide _ = true |- _ => apply bool_decide_eq_true in H
      | H : bool_decide _ = false |- _ => apply bool_decide_eq_false in H
      | H : negb _ = true |- _ => apply negb_true_iff in H
      | H : negb _ = false |- _ => apply negb_false_iff in H
      end ].

(** X19 (fitsimage.py, FITSImage.imarith): IRAF's imarith is called at
    most once, with the operator that was given, and the path it is given
    for its result is equal to neither of the paths it is given for its
    operands, as long as the paths that mkstemp returns are new: an
    operand whose path is equal to the output path is replaced by a
    temporary copy.  Paths are compared as strings, as line 931 compares
    them: two spellings of the path of one file are not equal. *)
Theorem imarith_reads_not_its_output self operator other output_path t out :
  Sys.runs (FITSImage.imarith self operator other output_path) t out ->
  NoDup (Sys.temp_paths t) ->
  (forall p, p ∈ Sys.temp_paths t -> output_path <> Some p) ->
  forall a op b o, (a, op, b, o) ∈ Sys.imarith_calls t ->
    Sys.imarith_calls t = [(a, op, b, o)] /\
    op = operator /\ a <> o /\ b <> Sys.Image o /\
    (output_path = Some o \/ head (Sys.temp_paths t) = Some o).
Proof.
  intros H Hnd Hfresh a op b o Hin.
  imarith_runs H.
  all: simpl in *.
  all: try (now apply elem_of_nil in Hin).
  all: apply list_elem_of_singleton in Hin; injection Hin as -> -> -> ->.
  all: repeat match goal with
           | H : NoDup (_ :: _) |- _ => apply NoDup_cons in H as [? ?]
           | H : _ ∉ _ :: _ |- _ => apply not_elem_of_cons in H as [? ?]
           end.
  all: (split; [reflexivity|]); (split; [reflexivity|]).
  all: (split; [|split; [|first [left; reflexivity|right; reflexivity]]]).
  all: first
    [ congruence
    | intros ->; eapply Hfresh; [|reflexivity]; set_solver
    | intros [= ->]; eapply Hfresh; [|reflexivity]; set_solver ].
Qed.

Lemma imarith_reads_not_its_output_witness :
  Sys.imarith_calls ScenarioCombine.dividing =
    [(ScenarioCombine.tmp, ["/"%char], Sys.Real 2,
      FITSImage.path (ScenarioCombine.flat "001"))] /\
  ScenarioCombine.tmp <> FITSImage.path (ScenarioCombine.flat "001").
Proof.
  assert (NoDup (Sys.temp_paths ScenarioCombine.dividing)) as Hnd
    by (apply NoDup_singleton).
  assert (forall p, p ∈ Sys.temp_paths ScenarioCombine.dividing ->
            Some (FITSImage.path (ScenarioCombine.flat "001")) <> Some p)
    as Hfresh.
  { intros p Hp. apply list_elem_of_singleton in Hp as ->. discriminate. }
  destruct (imarith_reads_not_its_output _ _ _ _ _ _
              runs_dividing Hnd Hfresh
              ScenarioCombine.tmp ["/"%char] (Sys.Real 2)
              (FITSImage.path (ScenarioCombine.flat "001")))
    as (H1 & _ & H2 & _); [apply list_elem_of_singleton; reflexivity|].
  now split.
Defined.

(** X20 (fitsimage.py, FITSImage.imarith): imarith removes no file but
    the output image and the temporary files that it created itself; when
    it returns, the image it returns is the output image, at the path
    given or else at the first path that mkstemp returned, and every
    other temporary file has been removed. *)
Theorem imarith_removes_its_own_files self operator other output_path t out :
  Sys.runs (FITSImage.imarith self operator other output_path) t out ->
  (forall p, p ∈ Sys.unlinks t ->
     output_path = Some p \/ p ∈ Sys.temp_paths t) /\
  (forall img, out = Returns img ->
     (output_path = Some (FITSImage.path img) \/
      head (Sys.temp_paths t) = Some (FITSImage.path img)) /\
     forall p, p ∈ Sys.temp_paths t ->
       p = FITSImage.path img \/ p ∈ Sys.unlinks t).
Proof.
  intros H. imarith_runs H. all: simpl in *.
  all: (split; [intros p Hp; set_solver|]).
  all: intros ? [= <-].
  all: simpl; (split; [auto|]); set_solver.
Qed.

Lemma imarith_removes_its_own_files_witness :
  Sys.unlinks ScenarioCombine.dividing =
    [FITSImage.path (ScenarioCombine.flat "001"); ScenarioCombine.tmp] /\
  forall p, p ∈ Sys.temp_paths ScenarioCombine.dividing ->
    p = FITSImage.path (ScenarioCombine.flat "001") \/
    p ∈ Sys.unlinks ScenarioCombine.dividing.
Proof.
  split; [reflexivity|].
  destruct (imarith_removes_its_own_files _ _ _ _ _ _ runs_dividing)
    as [_ H].
  exact (proj2 (H _ eq_refl)).
Defined.

(** X21 (fitsimage.py, FITSImage.imarith): a second operand that is
    neither an image, an int nor a float is rejected only after the
    output path has been settled: without an output path the temporary
    file of the output has been created by then, and imarith raises
    without removing it. *)
Theorem imarith_rejects_operand_late self operator output_path t out :
  Sys.runs (FITSImage.imarith self operator FITSImage.OtherObject
              output_path) t out ->
  operator ∈ FITSImage.operators ->
  (exists e, out = Raises e) /\ Sys.unlinks t = [] /\
  match output_path with
  | Some (_ :: _) => t = []
  | _ => exists r, head t =
                     Some (Sys.Mkstemped (list_ascii_of_string ".fits") r)
  end.
Proof.
  intros H Hop. unfold FITSImage.imarith in H.
  rewrite bool_decide_eq_true_2 in H by exact Hop. simpl in H.
  destruct output_path as [[|c p]|]; repeat SysFacts.sys_step; simpl; eauto.
Qed.

Lemma imarith_rejects_operand_late_witness :
  Sys.temp_paths ScenarioCombine.rejecting = [ScenarioCombine.tmp] /\
  Sys.unlinks ScenarioCombine.rejecting = [].
Proof.
  split; [reflexivity|].
  refine (proj1 (proj2 (imarith_rejects_operand_late _ _ _ _ _
                          runs_rejecting _))).
  unfold FITSImage.operators. simpl. apply list_elem_of_here.
Defined.

Lemma section_Some x1 x2 y1 y2 a b c d :
  FITSImage.section x1 x2 y1 y2 = Some (a, b, c, d) ->
  x1 = Some a /\ x2 = Some b /\ y1 = Some c /\ y2 = Some d.
Proof.
  destruct x1, x2, y1, y2; simpl; try discriminate. now intros [= -> -> -> ->].
Qed.

Ltac imcopy_runs H :=
  unfold FITSImage.imcopy, FITSImage.imcopy_with, FITSImage.is_path in H;
  repeat first
    [ SysFacts.sys_step
    | match goal with
      | H : Sys.runs (FITSImage.imcopy_default _) _ _ |- _ =>
          apply runs_imcopy_default in H
            as [(? & ? & [?|(? & [?|[?|?]])])|(? & ? & ? & ?)]; subst
      | H : Sys.runs (match ?o with Some _ => _ | None => _ end) _ _ |- _ =>
          destruct o as [[|? ?]|]
      | H : Sys.runs (match FITSImage.section ?a ?b ?c ?d with
                      | Some _ => _ | None => _ end) _ _ |- _ =>
          let E := fresh "Hsection" in
          destruct (FITSImage.section a b c d) as [[[[? ?] ?] ?]|] eqn:E;
          [apply section_Some in E as (? & ? & ? & ?)|]
      | H : bool_decide _ = true |- _ => apply bool_decide_eq_true in H
      | H : bool_decide _ = false |- _ => apply bool_decide_eq_false in H
      end ].

(** X22 (fitsimage.py, FITSImage.imcopy): as long as the paths that
    mkstemp returns are new, shutil.copy2 is never given the same path
    twice, and the section that IRAF's imcopy is given to read is never a
    section of the path it is given to write: when the output path is
    equal to the path of the image, the image is read from a temporary
    copy.  Paths are compared as strings, as line 860 compares them: two
    spellings of the path of one file are not equal.  imcopy removes no
    path but the output path and the paths that mkstemp returned to it;
    when it returns, the image returned is at the output path, or at the
    path mkstemp returned when none was given, and every other path that
    mkstemp returned has been removed. *)
Theorem imcopy_reads_not_its_output self output_path suffix x1 x2 y1 y2
    t out :
  Sys.runs (FITSImage.imcopy self output_path suffix x1 x2 y1 y2) t out ->
  NoDup (Sys.temp_paths t) ->
  (forall p, p ∈ Sys.temp_paths t -> p <> FITSImage.path self) ->
  (forall src dst, (src, dst) ∈ Sys.copies t -> src <> dst) /\
  (forall i o, (i, o) ∈ Sys.imcopy_calls t ->
     exists source a b c d,
       x1 = Some a /\ x2 = Some b /\ y1 = Some c /\ y2 = Some d /\
       i = FITSImage._subscript source a b c d /\
       FITSImage.path source <> o) /\
  (forall p, p ∈ Sys.unlinks t ->
     output_path = Some p \/ p ∈ Sys.temp_paths t) /\
  (forall img, out = Returns img ->
     (output_path = Some (FITSImage.path img) \/
      head (Sys.temp_paths t) = Some (FITSImage.path img)) /\
     forall p, p ∈ Sys.temp_paths t ->
       p = FITSImage.path img \/ p ∈ Sys.unlinks t).
Proof.
  intros H Hnd Hfresh.
  imcopy_runs H.
  all: simpl in *.
  all: repeat match goal with
           | H : NoDup (_ :: _) |- _ => apply NoDup_cons in H as [? ?]
           | H : _ ∉ _ :: _ |- _ => apply not_elem_of_cons in H as [? ?]
           end.
  all: (split; [intros src dst Hin; set_solver|]).
  all: (split; [|split; [intros p Hin; set_solver|]]).
  all: try (intros img [= <-]; simpl; split; [auto|]; set_solver).
  all: try (intros img [=]).
  all: intros i o Hin; try (now apply elem_of_nil in Hin).
  all: apply list_elem_of_singleton in Hin; injection Hin as -> ->.
  all: eexists _, _, _, _, _; repeat (split; [reflexivity|]).
  all: simpl; first [congruence | apply Hfresh; set_solver
                    | intros E; symmetry in E; revert E; apply Hfresh;
                      set_solver
                    | rewrite <- Heqb; apply Hfresh; set_solver ].
Qed.

Lemma imcopy_reads_not_its_output_witness :
  Sys.imcopy_calls ScenarioCombine.cropping =
    [(FITSImage._subscript (FITSImage.mk ScenarioCombine.tmp (2048, 2048))
        1 100 1 200,
      FITSImage.path (ScenarioCombine.flat "001"))] /\
  forall src dst, (src, dst) ∈ Sys.copies ScenarioCombine.cropping ->
    src <> dst.
Proof.
  split; [reflexivity|].
  refine (proj1 (imcopy_reads_not_its_output _ _ _ _ _ _ _ _ _
                   runs_cropping _ _)).
  - apply NoDup_singleton.
  - intros p Hp. apply list_elem_of_singleton in Hp as ->. discriminate.
Defined.

(** ** FITSImage.normalize: the central area *)

Lemma center_of_Returns x :
  exists c, FITSImage.center_of x = Returns c /\ 0 <= c.
Proof.
  unfold FITSImage.center_of.
  pose proof (SFFacts.finite_or_zero_nonneg _ _
                (SFFacts.float_of_int_finite x)) as Hx.
  pose proof (SFFacts.div2_nonneg_finite _ 20 Hx ltac:(lia) ltac:(lia)) as Hd.
  destruct (SFFacts.int_round_nonneg _ _ Hd) as (c & Hc & Hc0 & _). eauto.
Qed.

(** X23 (fitsimage.py, FITSImage.normalize): for a fraction in the range
    [0, 1] and an image of at least one pixel, the computation of the
    central area raises nothing, and the section on which the central
    value is computed is not empty and lies within the image; when the
    method warns, the section is the full frame, and when it does not,
    the section is as wide as it is high, with the centre of the image in
    its middle. *)
Theorem central_area_in_frame self fraction :
  1 <= (FITSImage.size self).1 -> 1 <= (FITSImage.size self).2 ->
  (0 <=? fraction)%float = true -> (fraction <=? 1)%float = true ->
  exists warned x1 x2 y1 y2,
    FITSImage.central_area self fraction =
      Returns (warned, (x1, x2, y1, y2)) /\
    1 <= x1 <= x2 /\ x2 <= (FITSImage.size self).1 /\
    1 <= y1 <= y2 /\ y2 <= (FITSImage.size self).2 /\
    (warned = true ->
       (x1, x2, y1, y2) =
         (1, (FITSImage.size self).1, 1, (FITSImage.size self).2)) /\
    (warned = false ->
       x2 - x1 = y2 - y1 /\
       FITSImage.center_of (FITSImage.size self).1 =
         Returns ((x1 + x2) / 2) /\
       FITSImage.center_of (FITSImage.size self).2 =
         Returns ((y1 + y2) / 2)).
Proof.
  unfold FITSImage.central_area.
  destruct (FITSImage.size self) as [x_size y_size]. simpl fst. simpl snd.
  intros Hx Hy Hf0 Hf1.
  destruct (center_of_Returns x_size) as (xc & -> & Hxc).
  destruct (center_of_Returns y_size) as (yc & -> & Hyc).
  pose proof (SFFacts.finite_or_zero_nonneg _ _
                (SFFacts.float_of_int_finite (Z.min x_size y_size))) as Hs.
  pose proof (SFFacts.unit_interval_finite fraction Hf0 Hf1) as Hf.
  pose proof (SFFacts.mul_nonneg_finite _ _ 20 (-52) Hs Hf
                ltac:(lia) ltac:(lia)) as Hp.
  pose proof (SFFacts.div2_nonneg_finite _ _ Hp ltac:(lia) ltac:(lia)) as Hd.
  destruct (SFFacts.int_nonneg _ _ Hd) as (hw & -> & Hhw).
  destruct (Z.ltb_spec (Z.min (xc - hw) (yc - hw)) 1),
    (Z.ltb_spec x_size (xc + hw)), (Z.ltb_spec y_size (yc + hw)); simpl;
    eexists _, _, _, _, _; (split; [reflexivity|]);
    repeat split; try lia; try discriminate; try congruence.
  all: f_equal; apply Z.div_unique with 0; lia.
Qed.

Lemma central_area_in_frame_witness :
  exists warned x1 x2 y1 y2,
    FITSImage.central_area (ScenarioCombine.flat "001") 0.5 =
      Returns (warned, (x1, x2, y1, y2)) /\
    1 <= x1 <= x2 /\ x2 <= 2048 /\ 1 <= y1 <= y2 /\ y2 <= 2048.
Proof.
  destruct (central_area_in_frame (ScenarioCombine.flat "001") 0.5)
    as (w & x1 & x2 & y1 & y2 & H & H1 & H2 & H3 & H4 & _);
    [simpl; lia|simpl; lia|reflexivity|reflexivity|].
  exists w, x1, x2, y1, y2. auto.
Defined.

(** ** Sets that are already sorted *)

Lemma isort_sorted {A} (l : list (Z * A)) :
  StronglySorted (fun kx ky => kx.1 <= ky.1) l ->
  foldr FITSet.insert [] l = l.
Proof.
  induction 1 as [|kx l Hl IH Hk]; simpl; [easy|].
  rewrite IH. now apply insert_le_all.
Qed.

Lemma sorted_fixed debug imgs :
  Forall (fun img => FITSet.has_number debug img = true) imgs ->
  StronglySorted
    (fun a b => FITSet.number_of debug a <= FITSet.number_of debug b) imgs ->
  FITSet.sort debug imgs = Ok imgs.
Proof.
  intros Hh Hs. rewrite sort_isort.
  assert (filter (fun img => FITSet.has_number debug img) imgs = imgs) as ->.
  { clear Hs. induction Hh as [|img imgs Hi _ IH]; [easy|].
    rewrite filter_cons, IH. rewrite Hi. now rewrite decide_True. }
  rewrite isort_sorted, map_snd_deco; [easy|].
  clear Hh. induction Hs as [|img imgs _ IH Hk]; simpl; constructor; [easy|].
  apply Forall_fmap. exact Hk.
Qed.

(** X24 (fitsimage.py, FITSet.sort and FITSet.number_interval_filter): a
    set that [sort] returned is left as it is by sorting it again, and
    selecting an interval of it keeps the images of the interval in their
    order and warns about none. *)
Theorem sort_idempotent debug self out :
  FITSet.sort debug self = Ok out ->
  FITSet.sort debug out = Ok out /\
  forall interval_lower interval_upper,
    FITSet.number_interval_filter debug interval_lower interval_upper out =
      Ok (filter (fun img => interval_lower <= FITSet.number_of debug img
                    <= interval_upper) out, []).
Proof.
  intros Hout. rewrite sort_isort in Hout. injection Hout as <-.
  set (imgs := filter _ self).
  set (out := map snd _).
  assert (Forall (fun img => FITSet.has_number debug img = true) out) as Hh.
  { apply Forall_forall. intros img Hin.
    assert (img ∈ imgs) as Hi by (now rewrite <- (sort_Permutation debug)).
    apply list_elem_of_filter in Hi as [Hi _].
    now destruct (FITSet.has_number debug img). }
  pose proof (sort_StronglySorted debug imgs) as Hs. fold out in Hs.
  split; [now apply sorted_fixed|].
  intros lo hi. unfold FITSet.number_interval_filter.
  rewrite select_filter. simpl.
  assert (filter (fun img => ~ FITSet.has_number debug img) out = []) as ->.
  { clear Hs. induction Hh as [|img l Hi _ IH]; [easy|].
    rewrite filter_cons, IH, Hi. now rewrite decide_False by (simpl; tauto). }
  assert (filter (fun img => FITSet.has_number debug img /\
                    lo <= FITSet.number_of debug img <= hi) out =
          filter (fun img => lo <= FITSet.number_of debug img <= hi) out)
    as ->.
  { clear Hs. induction Hh as [|img l Hi _ IH]; [easy|].
    rewrite !filter_cons, IH, Hi.
    destruct (decide (lo <= FITSet.number_of debug img <= hi)).
    - now rewrite decide_True by (simpl; tauto).
    - now rewrite decide_False by (simpl; tauto). }
  rewrite sorted_fixed; [easy| |].
  - clear Hs. induction Hh as [|img l Hi _ IH]; [constructor|].
    rewrite filter_cons. destruct (decide _); [constructor|]; auto.
  - clear Hh. induction Hs as [|img l _ IH Hk]; [constructor|].
    rewrite filter_cons. destruct (decide _); [|exact IH].
    constructor; [exact IH|].
    clear IH. induction Hk as [|b l Hb _ IH]; [constructor|].
    rewrite filter_cons. destruct (decide _); [constructor|]; auto.
Qed.

Lemma sort_idempotent_witness :
  FITSet.sort true ScenarioSet.night = Ok ScenarioSet.sorted /\
  FITSet.sort true ScenarioSet.sorted = Ok ScenarioSet.sorted.
Proof.
  split; [reflexivity|].
  apply (sort_idempotent true ScenarioSet.night). reflexivity.
Defined.
